(** * A shallow embedding of [snomed_graph.py]

    The module under study wraps a [networkx.DiGraph] holding a SNOMED CT
    release: one node per concept (attributes [fsn], [synonyms]) and one
    edge per ordered pair of concepts (attributes [group], [type],
    [type_id]).  The queries of class [SnomedGraph] are translated below
    one by one; exceptions are explicit and recursion is driven by a
    call-depth budget, the number of nested calls the interpreter's
    recursion limit leaves room for, so that termination and stack
    overflow are statements and not side effects of the encoding. *)

From stdpp Require Import base list gmap strings sorting.
From Stdlib Require Import ZArith Lia Ascii.
Local Open Scope Z_scope.

(** ** Exceptions and results *)

Inductive exn : Set :=
  | AssertionError
  | KeyError
  | TypeError
  | IndexError
  | NodeNotFound
  | NetworkXNoPath
  | NetworkXError.

(** [OutOfFuel]: the run used up its call-depth budget before the call
    returned.  Under an interpreter whose recursion limit leaves room
    for that many nested calls this is Python's [RecursionError]; no
    function of the module catches it, so it propagates like the other
    exceptions. *)
Inductive res (A : Type) : Type :=
  | Ok (a : A)
  | Raise (e : exn)
  | OutOfFuel.

Arguments Ok {A} a.

Arguments Raise {A} e.

Arguments OutOfFuel {A}.

Definition res_bind {A B : Type} (m : res A) (f : A → res B) : res B :=
  match m with
  | Ok a => f a
  | Raise e => Raise e
  | OutOfFuel => OutOfFuel
  end.

Notation "'let!' x ':=' m 'in' k" := (res_bind m (λ x, k))
  (at level 10, x name, m at level 100, k at level 200,
   format "'[v' 'let!'  x  ':='  m  'in' '/' k ']'").

(** A list comprehension whose body may raise. *)
Fixpoint res_mapM {A B : Type} (f : A → res B) (l : list A) : res (list B) :=
  match l with
  | [] => Ok []
  | x :: l' => let! y := f x in let! ys := res_mapM f l' in Ok (y :: ys)
  end.

(** A [for] loop that threads an accumulator and stops at the first
    exception. *)
Fixpoint foldM {A B : Type} (f : B → A → res B) (l : list A) (b : B) : res B :=
  match l with
  | [] => Ok b
  | x :: l' => let! b' := f b x in foldM f l' b'
  end.

(** ** Insertion-ordered dictionaries

    A Python [dict] iterates in insertion order and an assignment to an
    existing key keeps the key's position. *)

Definition odict (V : Type) : Type := list (Z * V).

Fixpoint od_get {V : Type} (k : Z) (d : odict V) : option V :=
  match d with
  | [] => None
  | (k', v) :: d' => if decide (k = k') then Some v else od_get k d'
  end.

Fixpoint od_set {V : Type} (k : Z) (v : V) (d : odict V) : odict V :=
  match d with
  | [] => [(k, v)]
  | (k', v') :: d' =>
      if decide (k = k') then (k, v) :: d' else (k', v') :: od_set k v d'
  end.

Fixpoint od_del {V : Type} (k : Z) (d : odict V) : odict V :=
  match d with
  | [] => []
  | (k', v') :: d' =>
      if decide (k = k') then od_del k d' else (k', v') :: od_del k d'
  end.

Definition od_keys {V : Type} (d : odict V) : list Z := d.*1.

(** ** The data classes *)

(** [SnomedConceptDetails]: [synonyms] defaults to Python's [None]. *)
Record SnomedConceptDetails : Type := {
  sctid : Z;
  fsn : string;
  synonyms : option (list string)
}.

(** [SnomedRelationship] *)
Record SnomedRelationship : Type := {
  src : SnomedConceptDetails;
  tgt : SnomedConceptDetails;
  group : Z;
  type : string;
  type_id : Z
}.

(** [SnomedRelationshipGroup] *)
Record SnomedRelationshipGroup : Type := {
  rg_group : Z;
  relationships : list SnomedRelationship
}.

#[global] Instance SnomedConceptDetails_eq_dec : EqDecision SnomedConceptDetails.
Proof. solve_decision. Defined.

#[global] Instance SnomedRelationship_eq_dec : EqDecision SnomedRelationship.
Proof. solve_decision. Defined.

(** ** The part of [networkx.DiGraph] the module relies on *)

(** Node attribute dictionary: a node created by [add_edge] alone has
    neither key. *)
Record NodeData : Type := {
  nd_fsn : option string;
  nd_synonyms : option (list string)
}.

(** Edge attribute dictionary; [from_rf2] always writes the three keys. *)
Record EdgeData : Type := {
  ed_group : Z;
  ed_type : string;
  ed_type_id : Z
}.

#[global] Instance NodeData_eq_dec : EqDecision NodeData.
Proof. solve_decision. Defined.

#[global] Instance EdgeData_eq_dec : EqDecision EdgeData.
Proof. solve_decision. Defined.

(** [_node], [_succ] and [_pred] are the three dictionaries of a
    [DiGraph]; [_succ[u][v]] and [_pred[v][u]] hold the same attribute
    dictionary. *)
Record DiGraph : Type := {
  _node : odict NodeData;
  _succ : odict (odict EdgeData);
  _pred : odict (odict EdgeData)
}.

Module nx.

Definition DiGraph_init : DiGraph := {| _node := []; _succ := []; _pred := [] |}.

(** [n in G] *)
Definition contains (G : DiGraph) (n : Z) : bool :=
  bool_decide (is_Some (od_get n (_node G))).

(** [len(G)] *)
Definition number_of_nodes (G : DiGraph) : nat := length (_node G).

(** [G.nodes[n]] *)
Definition nodes (G : DiGraph) (n : Z) : res NodeData :=
  match od_get n (_node G) with
  | Some nd => Ok nd
  | None => Raise KeyError
  end.

(** [G.edges[(u, v)]] reads [_succ[u][v]]. *)
Definition edge_data (G : DiGraph) (u v : Z) : option EdgeData :=
  match od_get u (_succ G) with
  | Some d => od_get v d
  | None => None
  end.

Definition edges (G : DiGraph) (uv : Z * Z) : res EdgeData :=
  match edge_data G uv.1 uv.2 with
  | Some ed => Ok ed
  | None => Raise KeyError
  end.

(** [G[u]], the successors of [u] in insertion order; empty when [u] is
    not a node. *)
Definition successors (G : DiGraph) (u : Z) : list Z :=
  match od_get u (_succ G) with
  | Some d => od_keys d
  | None => []
  end.

Definition predecessors (G : DiGraph) (v : Z) : list Z :=
  match od_get v (_pred G) with
  | Some d => od_keys d
  | None => []
  end.

(** [G.out_edges(u)] *)
Definition out_edges (G : DiGraph) (u : Z) : res (list (Z * Z)) :=
  match od_get u (_succ G) with
  | Some d => Ok ((λ v, (u, v)) <$> od_keys d)
  | None => Raise NetworkXError
  end.

(** [G.in_edges(v)] *)
Definition in_edges (G : DiGraph) (v : Z) : res (list (Z * Z)) :=
  match od_get v (_pred G) with
  | Some d => Ok ((λ u, (u, v)) <$> od_keys d)
  | None => Raise NetworkXError
  end.

(** The node-creating half of [add_node] and [add_edge]. *)
Definition ensure_node (n : Z) (G : DiGraph) : DiGraph :=
  match od_get n (_succ G) with
  | Some _ => G
  | None =>
      {| _node := od_set n {| nd_fsn := None; nd_synonyms := None |} (_node G);
         _succ := od_set n [] (_succ G);
         _pred := od_set n [] (_pred G) |}
  end.

(** [G.add_node(n, fsn=..., synonyms=...)] *)
Definition add_node (n : Z) (fsn : string) (synonyms : list string)
    (G : DiGraph) : DiGraph :=
  let G := ensure_node n G in
  {| _node := od_set n {| nd_fsn := Some fsn; nd_synonyms := Some synonyms |} (_node G);
     _succ := _succ G;
     _pred := _pred G |}.

(** [G.add_edge(u, v, group=..., type=..., type_id=...)] *)
Definition add_edge (u v : Z) (ed : EdgeData) (G : DiGraph) : DiGraph :=
  let G := ensure_node v (ensure_node u G) in
  {| _node := _node G;
     _succ := od_set u (od_set v ed (default [] (od_get u (_succ G)))) (_succ G);
     _pred := od_set v (od_set u ed (default [] (od_get v (_pred G)))) (_pred G) |}.

(** [G.degree(n)] of a directed graph: in-degree plus out-degree. *)
Definition degree (G : DiGraph) (n : Z) : nat :=
  (length (successors G n) + length (predecessors G n))%nat.

(** [nx.isolates(G)] *)
Definition isolates (G : DiGraph) : list Z :=
  filter (λ n, degree G n = 0%nat) (od_keys (_node G)).

Definition od_alter {V : Type} (f : V → V) (k : Z) (d : odict V) : odict V :=
  match od_get k d with
  | Some v => od_set k (f v) d
  | None => d
  end.

(** One step of [G.remove_nodes_from]: nodes that are absent are
    skipped. *)
Definition remove_node (G : DiGraph) (n : Z) : DiGraph :=
  match od_get n (_succ G) with
  | None => G
  | Some nbrs =>
      let pred1 := foldl (λ P u, od_alter (od_del n) u P) (_pred G) (od_keys nbrs) in
      let succ1 := od_del n (_succ G) in
      let succ2 := foldl (λ S u, od_alter (od_del n) u S) succ1
                     (od_keys (default [] (od_get n pred1))) in
      {| _node := od_del n (_node G);
         _succ := succ2;
         _pred := od_del n pred1 |}
  end.

Definition remove_nodes_from (G : DiGraph) (ns : list Z) : DiGraph :=
  foldl remove_node G ns.

(** [itertools.pairwise] *)
Definition pairwise (nodes : list Z) : list (Z * Z) := zip nodes (tail nodes).

(** The depth-first search behind [nx.all_simple_paths]: [path] is the
    path walked so far, [u] its last node, [cutoff] the number of edges
    that may still be added.  Successors are tried in adjacency order; a
    node already on the path is skipped, and the search does not go on
    through the target. *)
Fixpoint simple_paths_dfs (cutoff : nat) (G : DiGraph) (target : Z)
    (path : list Z) (u : Z) : list (list Z) :=
  match cutoff with
  | O => []
  | S cutoff' =>
      v ← successors G u;
      if decide (v ∈ path) then []
      else if decide (v = target) then [path ++ [v]]
      else simple_paths_dfs cutoff' G target (path ++ [v]) v
  end.

(** [nx.all_simple_paths(G, source, target)], with the default
    [cutoff = len(G) - 1].  When source and target coincide, networkx
    from 3.2 on yields the one-node path and earlier versions yield
    nothing; [one_node_path] tells which. *)
Definition all_simple_paths (one_node_path : bool) (G : DiGraph) (source target : Z)
    : res (list (list Z)) :=
  if negb (contains G source) then Raise NodeNotFound
  else if negb (contains G target) then Raise NodeNotFound
  else if decide (source = target) then Ok (if one_node_path then [[source]] else [])
  else Ok (simple_paths_dfs (number_of_nodes G - 1) G target [source] source).

(** Breadth-first search by levels.  [frontier] holds one path per node
    first reached at the current level; [enqueue] keeps a candidate path
    when its last node is new. *)
Definition enqueue (st : list Z * list (list Z)) (q : list Z) : list Z * list (list Z) :=
  match last q with
  | Some x => if decide (x ∈ st.1) then st else (x :: st.1, st.2 ++ [q])
  | None => st
  end.

Definition extensions (G : DiGraph) (p : list Z) : list (list Z) :=
  match last p with
  | Some u => (λ v, p ++ [v]) <$> successors G u
  | None => []
  end.

Definition next_level (G : DiGraph) (seen : list Z) (frontier : list (list Z))
    : list Z * list (list Z) :=
  foldl enqueue (seen, []) (frontier ≫= extensions G).

Definition reaches (target : Z) (p : list Z) : Prop := last p = Some target.

#[global] Instance reaches_dec (target : Z) (p : list Z) : Decision (reaches target p).
Proof. unfold reaches. apply _. Defined.

Fixpoint bfs (fuel : nat) (G : DiGraph) (target : Z) (seen : list Z)
    (frontier : list (list Z)) : option (list Z) :=
  match list_find (reaches target) frontier with
  | Some ip => Some ip.2
  | None =>
      match fuel with
      | O => None
      | S fuel' =>
          let st := next_level G seen frontier in
          match st.2 with
          | [] => None
          | _ => bfs fuel' G target st.1 st.2
          end
      end
  end.

(** [nx.shortest_path(G, source, target)]: a path from source to target
    with the fewest edges.  Which of several such paths networkx returns
    is left open by its documentation: networkx searches from both ends
    at once, the model returns the path a forward breadth-first search
    in adjacency order finds first, and the two may differ when several
    paths have the fewest edges. *)
Definition shortest_path (G : DiGraph) (source target : Z) : res (list Z) :=
  if negb (contains G source && contains G target) then Raise NodeNotFound
  else match bfs (number_of_nodes G) G target [source] [[source]] with
       | Some p => Ok p
       | None => Raise NetworkXNoPath
       end.

(** [nx.has_path(G, source, target)] *)
Definition has_path (G : DiGraph) (source target : Z) : res bool :=
  match shortest_path G source target with
  | Ok _ => Ok true
  | Raise NetworkXNoPath => Ok false
  | Raise e => Raise e
  | OutOfFuel => OutOfFuel
  end.

End nx.

(** ** Class [SnomedGraph] *)

Definition fsn_typeId : Z := 900000000000003001.

Definition is_a_relationship_typeId : Z := 116680003.

Definition root_concept_id : Z := 138875005.

(** [SnomedConceptDetails(sctid=sctid, **attrs)]: the constructor needs
    the keyword [fsn]; [synonyms] is optional. *)
Definition SnomedConceptDetails_init (sctid : Z) (attrs : NodeData)
    : res SnomedConceptDetails :=
  match nd_fsn attrs with
  | Some f => Ok {| sctid := sctid; fsn := f; synonyms := nd_synonyms attrs |}
  | None => Raise TypeError
  end.

(** [SnomedRelationship(src, tgt, **vals)] *)
Definition SnomedRelationship_init (src tgt : SnomedConceptDetails)
    (vals : EdgeData) : SnomedRelationship :=
  {| src := src; tgt := tgt; group := ed_group vals;
     type := ed_type vals; type_id := ed_type_id vals |}.

Definition get_concept_details (G : DiGraph) (sctid : Z) : res SnomedConceptDetails :=
  let! attrs := nx.nodes G sctid in
  SnomedConceptDetails_init sctid attrs.

(** [__get_out_relationships]; every caller consumes the generator to its
    end, so the model returns the whole list. *)
Definition get_out_relationships (G : DiGraph) (src_sctid : Z)
    : res (list SnomedRelationship) :=
  let! src := get_concept_details G src_sctid in
  let! es := nx.out_edges G src_sctid in
  res_mapM (λ e : Z * Z,
          let! tgt := get_concept_details G e.2 in
          let! vals := nx.edges G (src_sctid, e.2) in
          Ok (SnomedRelationship_init src tgt vals)) es.

(** [__get_in_relationships] *)
Definition get_in_relationships (G : DiGraph) (tgt_sctid : Z)
    : res (list SnomedRelationship) :=
  let! tgt := get_concept_details G tgt_sctid in
  let! es := nx.in_edges G tgt_sctid in
  res_mapM (λ e : Z * Z,
          let! src := get_concept_details G e.1 in
          let! vals := nx.edges G (e.1, tgt_sctid) in
          Ok (SnomedRelationship_init src tgt vals)) es.

Definition is_a (r : SnomedRelationship) : Prop :=
  type_id r = is_a_relationship_typeId.

#[global] Instance is_a_dec (r : SnomedRelationship) : Decision (is_a r).
Proof. unfold is_a. apply _. Defined.

Definition get_children (G : DiGraph) (sctid : Z) : res (list SnomedConceptDetails) :=
  let! rs := get_in_relationships G sctid in
  Ok (src <$> filter is_a rs).

Definition get_parents (G : DiGraph) (sctid : Z) : res (list SnomedConceptDetails) :=
  let! rs := get_out_relationships G sctid in
  Ok (tgt <$> filter is_a rs).

(** *** Sets of concepts

    [__eq__] and [__hash__] of [SnomedConceptDetails] look at the [sctid]
    alone, so a Python [set] of concepts is a finite map from [sctid] to
    the element first inserted under it. *)

Abbreviation cset := (gmap Z SnomedConceptDetails).

(** [set(l)] *)
Definition set_ (l : list SnomedConceptDetails) : cset :=
  list_to_map ((λ c, (sctid c, c)) <$> l).

(** Iteration over a set, in an unspecified order. *)
Definition set_elements (s : cset) : list SnomedConceptDetails :=
  (map_to_list s).*2.

(** The default written as [steps_removed = 99999] in the source. *)
Definition unbounded_steps : Z := 99999.

Definition check_steps_removed (steps_removed : option Z) : res Z :=
  match steps_removed with
  | None => Ok unbounded_steps
  | Some s => if bool_decide (s ≤ 0) then Raise AssertionError else Ok s
  end.

(** [get_descendants]; [fuel] is the number of nested calls the Python
    call stack has room for, and [get_descendants_fuel fuel] the call
    under that recursion limit. *)
Fixpoint get_descendants_fuel (fuel : nat) (G : DiGraph) (sctid_ : Z)
    (steps_removed : option Z) : res cset :=
  match fuel with
  | O => OutOfFuel
  | S fuel' =>
      let! steps := check_steps_removed steps_removed in
      let! children := get_children G sctid_ in
      let descendants := set_ children in
      if bool_decide (steps > 1) then
        foldM (λ descendants c,
                 let! r := get_descendants_fuel fuel' G (sctid c) (Some (steps - 1)) in
                 Ok (descendants ∪ r))
              children descendants
      else Ok descendants
  end.

(** [get_ancestors] *)
Fixpoint get_ancestors_fuel (fuel : nat) (G : DiGraph) (sctid_ : Z)
    (steps_removed : option Z) : res cset :=
  match fuel with
  | O => OutOfFuel
  | S fuel' =>
      let! steps := check_steps_removed steps_removed in
      let! parents := get_parents G sctid_ in
      let ancestors := set_ parents in
      let! ancestors :=
        (if bool_decide (steps > 1) then
           foldM (λ ancestors p,
                    let! r := get_ancestors_fuel fuel' G (sctid p) (Some (steps - 1)) in
                    Ok (ancestors ∪ r))
                 parents ancestors
         else Ok ancestors) in
      Ok (filter (λ kv : Z * SnomedConceptDetails,
                      sctid kv.2 ≠ root_concept_id) ancestors)
  end.

(** [get_neighbourhood]; the result is a Python list. *)
Fixpoint get_neighbourhood_fuel (fuel : nat) (G : DiGraph) (sctid_ : Z)
    (steps_removed : Z) : res (list SnomedConceptDetails) :=
  match fuel with
  | O => OutOfFuel
  | S fuel' =>
      if bool_decide (steps_removed > 0) then
        let! parents := get_parents G sctid_ in
        let! children := get_children G sctid_ in
        let neighbourhood := set_ parents ∪ set_ children in
        let! neighbourhood :=
          (if bool_decide (steps_removed > 1) then
             foldM (λ neighbourhood n,
                      let! r := get_neighbourhood_fuel fuel' G (sctid n) (steps_removed - 1) in
                      Ok (neighbourhood ∪ set_ r))
                   (set_elements neighbourhood) neighbourhood
           else Ok neighbourhood) in
        Ok (filter (λ n, sctid n ∉ [sctid_; root_concept_id])
                (set_elements neighbourhood))
      else Raise AssertionError
  end.

(** The call depth that is enough for a query on any graph: the
    remaining depth goes down by one at each recursive call and the
    recursion stops at depth 1. *)
Definition call_depth (steps : Z) : nat := Z.to_nat (Z.max steps 1).

Definition steps_or_default (steps_removed : option Z) : Z :=
  default unbounded_steps steps_removed.

(** The three queries on a call stack that is deep enough for the depth
    asked for; the run under a given recursion limit is
    [get_descendants_fuel], [get_ancestors_fuel] and
    [get_neighbourhood_fuel]. *)
Definition get_descendants (G : DiGraph) (sctid_ : Z) (steps_removed : option Z)
    : res cset :=
  get_descendants_fuel (call_depth (steps_or_default steps_removed)) G sctid_ steps_removed.

Definition get_ancestors (G : DiGraph) (sctid_ : Z) (steps_removed : option Z)
    : res cset :=
  get_ancestors_fuel (call_depth (steps_or_default steps_removed)) G sctid_ steps_removed.

Definition get_neighbourhood (G : DiGraph) (sctid_ : Z) (steps_removed : Z)
    : res (list SnomedConceptDetails) :=
  get_neighbourhood_fuel (call_depth steps_removed) G sctid_ steps_removed.

(** *** [find_path] and [path_to_root] *)

(** The relationship built for one step of a path. *)
Definition step_relationship (G : DiGraph) (e : Z * Z) : res SnomedRelationship :=
  let! vals := nx.edges G e in
  let! src := get_concept_details G e.1 in
  let! tgt := get_concept_details G e.2 in
  Ok (SnomedRelationship_init src tgt vals).

Definition find_path (G : DiGraph) (sctid1 sctid2 : Z) (print_ : bool)
    : res (list SnomedRelationship) :=
  let! forward := nx.has_path G sctid1 sctid2 in
  let! nodes :=
    (if forward then nx.shortest_path G sctid1 sctid2
     else
       let! backward := nx.has_path G sctid2 sctid1 in
       if backward then nx.shortest_path G sctid2 sctid1 else Ok []) in
  let! path := res_mapM (step_relationship G) (nx.pairwise nodes) in
  if print_ then
    match nodes, path with
    | _ :: _, [] => Raise IndexError
    | _, _ => Ok path
    end
  else Ok path.

(** The inner loop of [path_to_root]: the relationships along [nodes],
    or [None] from the first edge on that is not typed "is a". *)
Fixpoint is_a_path (G : DiGraph) (pairs : list (Z * Z))
    : res (option (list SnomedRelationship)) :=
  match pairs with
  | [] => Ok (Some [])
  | e :: pairs' =>
      let! relationship := step_relationship G e in
      if decide (type_id relationship = is_a_relationship_typeId) then
        let! path := is_a_path G pairs' in
        Ok (cons relationship <$> path)
      else Ok None
  end.

(** The update of [shortest_path] after one candidate; [if path:] holds
    for a list that is neither [None] nor empty. *)
Definition keep_shortest (shortest_path path : option (list SnomedRelationship))
    : option (list SnomedRelationship) :=
  match path with
  | Some ((_ :: _) as p) =>
      match shortest_path with
      | Some ((_ :: _) as sp) =>
          if decide (length p < length sp)%nat then Some p else shortest_path
      | _ => Some p
      end
  | _ => shortest_path
  end.

Definition path_to_root (one_node_path : bool) (G : DiGraph) (sctid : Z) (print_ : bool)
    : res (option (list SnomedRelationship)) :=
  let! candidates := nx.all_simple_paths one_node_path G sctid root_concept_id in
  let! shortest_path :=
    foldM (λ shortest_path nodes,
             let! path := is_a_path G (nx.pairwise nodes) in
             Ok (keep_shortest shortest_path path))
          candidates None in
  if print_ then
    match shortest_path with
    | None => Raise TypeError
    | Some [] => Raise IndexError
    | Some _ => Ok shortest_path
    end
  else Ok shortest_path.

(** *** [get_inferred_relationships] *)

(** [sorted(l, key=key)] is a stable sort; stable insertion computes the
    same list. *)
Fixpoint insert_by {A : Type} (key : A → Z) (x : A) (l : list A) : list A :=
  match l with
  | [] => [x]
  | y :: l' =>
      if bool_decide (key x ≤ key y) then x :: y :: l' else y :: insert_by key x l'
  end.

Definition sorted {A : Type} (l : list A) (key : A → Z) : list A :=
  foldr (insert_by key) [] l.

(** [itertools.groupby(l, key=key)], each group turned into a list: the
    maximal runs of consecutive elements with equal keys. *)
Fixpoint groupby {A : Type} (l : list A) (key : A → Z) : list (Z * list A) :=
  match l with
  | [] => []
  | x :: l' =>
      match groupby l' key with
      | (g, xs) :: rest =>
          if decide (key x = g) then (g, x :: xs) :: rest
          else (key x, [x]) :: (g, xs) :: rest
      | [] => [(key x, [x])]
      end
  end.

Definition get_inferred_relationships (G : DiGraph) (sctid : Z)
    : res (list SnomedRelationshipGroup) :=
  let! rs := get_out_relationships G sctid in
  let inferred_relationships := filter (λ r, ¬ is_a r) rs in
  let key_ := group in
  let inferred_relationships_grouped :=
    groupby (sorted inferred_relationships key_) key_ in
  Ok ((λ gr : Z * list SnomedRelationship,
         {| rg_group := gr.1; relationships := gr.2 |})
      <$> inferred_relationships_grouped).

(** ** [from_rf2]

    The two tab-separated files are taken as already read into rows; the
    columns are those the function uses. *)

Module Rel.

Record row : Type := {
  sourceId : Z;
  destinationId : Z;
  relationshipGroup : Z;
  typeId : Z;
  active : Z
}.

End Rel.

Module Desc.

Record row : Type := {
  conceptId : Z;
  typeId : Z;
  term : string;
  active : Z
}.

End Desc.

(** The message printed when a concept has no fully specified name. *)
Record NoFsnWarning : Type := {
  w_sctid : Z;
  w_fsn : string
}.

Module pd.

(** [Series.unique()]: distinct values in order of first appearance. *)
Fixpoint unique_from (seen : list Z) (l : list Z) : list Z :=
  match l with
  | [] => []
  | x :: l' =>
      if decide (x ∈ seen) then unique_from seen l'
      else x :: unique_from (x :: seen) l'
  end.

Definition unique (l : list Z) : list Z := unique_from [] l.

Definition rows_of (concepts : list Desc.row) (k : Z) : list Desc.row :=
  filter (λ d, Desc.conceptId d = k) concepts.

(** [df.loc[labels]] on a frame indexed by [conceptId]: the rows of each
    label in turn, [KeyError] when a label has none. *)
Definition loc (concepts : list Desc.row) (labels : list Z) : res (list Desc.row) :=
  let! groups :=
    res_mapM (λ k, match rows_of concepts k with
                   | [] => Raise KeyError
                   | rows => Ok rows
                   end) labels in
  Ok (mjoin groups).

(** [Series.to_dict()]: a later row replaces an earlier one with the
    same index. *)
Definition to_dict (rows : list Desc.row) : gmap Z string :=
  foldl (λ m d, <[Desc.conceptId d := Desc.term d]> m) ∅ rows.

(** [df.groupby(df.index)]: one group per distinct [conceptId], in
    ascending order of the key, rows in their original order. *)
Definition groupby_index (concepts : list Desc.row) : list (Z * list Desc.row) :=
  (λ k, (k, rows_of concepts k))
  <$> sorted (unique (Desc.conceptId <$> concepts)) id.

End pd.

Definition create_relationship_types (relationships_df : list Rel.row)
    (concepts_df : list Desc.row) : res (gmap Z string) :=
  let! relationship_types :=
    pd.loc concepts_df (pd.unique (Rel.typeId <$> relationships_df)) in
  let relationship_types :=
    filter (λ d, Desc.typeId d = fsn_typeId) relationship_types in
  Ok (pd.to_dict relationship_types).

Definition create_relationships (relationship_types : gmap Z string)
    (relationships_df : list Rel.row) (G : DiGraph) : res DiGraph :=
  foldM (λ G r,
           match relationship_types !! Rel.typeId r with
           | Some name =>
               Ok (nx.add_edge (Rel.sourceId r) (Rel.destinationId r)
                     {| ed_group := Rel.relationshipGroup r;
                        ed_type := name;
                        ed_type_id := Rel.typeId r |} G)
           | None => Raise KeyError
           end)
        relationships_df G.

(** One turn of the loop that adds the concepts. *)
Definition add_concept (st : DiGraph * list NoFsnWarning) (g : Z * list Desc.row)
    : res (DiGraph * list NoFsnWarning) :=
  let '(sctid, rows) := g in
  let synonyms := Desc.term <$> filter (λ d, Desc.typeId d ≠ fsn_typeId) rows in
  match Desc.term <$> filter (λ d, Desc.typeId d = fsn_typeId) rows with
  | fsn :: _ => Ok (nx.add_node sctid fsn synonyms st.1, st.2)
  | [] =>
      match synonyms with
      | fsn :: synonyms =>
          Ok (nx.add_node sctid fsn synonyms st.1,
              st.2 ++ [{| w_sctid := sctid; w_fsn := fsn |}])
      | [] => Raise IndexError
      end
  end.

Definition add_concepts (concepts_df : list Desc.row) (G : DiGraph)
    : res (DiGraph * list NoFsnWarning) :=
  foldM add_concept (pd.groupby_index concepts_df) (G, []).

(** [df[df.active == 1]] *)
Definition active_relationships (relationships_df : list Rel.row) : list Rel.row :=
  filter (λ r, Rel.active r = 1) relationships_df.

Definition active_descriptions (concepts_df : list Desc.row) : list Desc.row :=
  filter (λ d, Desc.active d = 1) concepts_df.

(** [from_rf2], from the two data frames on; the result pairs the graph
    with the warnings printed on the way. *)
Definition from_rf2 (relationships_df : list Rel.row) (concepts_df : list Desc.row)
    : res (DiGraph * list NoFsnWarning) :=
  let relationships_df := active_relationships relationships_df in
  let concepts_df := active_descriptions concepts_df in
  let! relationship_types := create_relationship_types relationships_df concepts_df in
  let G := nx.DiGraph_init in
  let! G := create_relationships relationship_types relationships_df G in
  let! st := add_concepts concepts_df G in
  let G := nx.remove_nodes_from st.1 (nx.isolates st.1) in
  Ok (G, st.2).

(** * Vocabulary of the statements *)

(** What a loop [for x in l: acc = acc.union(F(x))] leaves in [acc]. *)
Definition union_loop {A : Type} (F : A → res cset) (acc : cset) (x : A) : res cset :=
  let! r := F x in Ok (acc ∪ r).

(** [v] is a parent of [u]: the edge from [u] to [v] is typed "is a". *)
Definition isa_edge (G : DiGraph) (u v : Z) : Prop :=
  ∃ ed, nx.edge_data G u v = Some ed ∧ ed_type_id ed = is_a_relationship_typeId.

(** Every element of the set is the concept the graph stores under its
    key. *)
Definition details_of (G : DiGraph) (s : cset) : Prop :=
  ∀ x c, s !! x = Some c → get_concept_details G x = Ok c.

(** [x] is reached from [u] by following between 1 and [k] "is a"
    edges. *)
Definition isa_within (G : DiGraph) (k : Z) (u x : Z) : Prop :=
  ∃ n : nat, (0 < n)%nat ∧ Z.of_nat n ≤ k ∧ nsteps (isa_edge G) n u x.

Definition pred_data (G : DiGraph) (v u : Z) : option EdgeData :=
  match od_get v (_pred G) with
  | Some d => od_get u d
  | None => None
  end.

(** The invariants [networkx] maintains between its three dictionaries. *)
Record wf_graph (G : DiGraph) : Prop := {
  wf_succ : ∀ n, is_Some (od_get n (_succ G)) ↔ is_Some (od_get n (_node G));
  wf_pred : ∀ n, is_Some (od_get n (_pred G)) ↔ is_Some (od_get n (_node G));
  wf_adj : ∀ u v ed, nx.edge_data G u v = Some ed ↔ pred_data G v u = Some ed;
  wf_target : ∀ u v ed, nx.edge_data G u v = Some ed → is_Some (od_get v (_node G))
}.

(** Every node carries a fully specified name. *)
Definition described (G : DiGraph) : Prop :=
  ∀ n nd, od_get n (_node G) = Some nd → is_Some (nd_fsn nd).

Definition valid_steps (steps_removed : option Z) : Prop :=
  match steps_removed with
  | None => True
  | Some s => 0 < s
  end.

(** [G.edges(data=True)] *)
Definition edge_list (G : DiGraph) : list (Z * Z * EdgeData) :=
  mjoin ((λ ud : Z * odict EdgeData,
             (λ ve : Z * EdgeData, (ud.1, ve.1, ve.2)) <$> ud.2) <$> _succ G).

Definition edge_pairs (G : DiGraph) : list (Z * Z) :=
  (λ e : Z * Z * EdgeData, (e.1.1, e.1.2)) <$> edge_list G.

(** No dictionary of the graph holds a key twice. *)
Record unique_keys (G : DiGraph) : Prop := {
  uk_node : NoDup (od_keys (_node G));
  uk_succ : NoDup (od_keys (_succ G));
  uk_inner : Forall (λ ud : Z * odict EdgeData, NoDup (od_keys ud.2)) (_succ G)
}.

Definition edge_of_row (types : gmap Z string) (r : Rel.row) : option EdgeData :=
  match types !! Rel.typeId r with
  | Some name => Some {| ed_group := Rel.relationshipGroup r;
                         ed_type := name;
                         ed_type_id := Rel.typeId r |}
  | None => None
  end.

(** The rows that describe an edge from [s] to [t], in file order. *)
Definition rows_between (rels : list Rel.row) (s t : Z) : list Rel.row :=
  filter (λ r, Rel.sourceId r = s ∧ Rel.destinationId r = t) rels.

Definition fsn_terms (rows : list Desc.row) : list string :=
  Desc.term <$> filter (λ d, Desc.typeId d = fsn_typeId) rows.

Definition synonym_terms (rows : list Desc.row) : list string :=
  Desc.term <$> filter (λ d, Desc.typeId d ≠ fsn_typeId) rows.

(** The names a concept ends up with, and whether a synonym had to stand
    in for the fully specified name. *)
Definition resolve_names (rows : list Desc.row) : option (string * list string * bool) :=
  match fsn_terms rows with
  | f :: _ => Some (f, synonym_terms rows, false)
  | [] =>
      match synonym_terms rows with
      | s :: rest => Some (s, rest, true)
      | [] => None
      end
  end.

Definition warning_of (g : Z * list Desc.row) : option NoFsnWarning :=
  match resolve_names g.2 with
  | Some (f, _, true) => Some {| w_sctid := g.1; w_fsn := f |}
  | _ => None
  end.

Definition node_of (rows : list Desc.row) : option NodeData :=
  match resolve_names rows with
  | Some (f, syn, _) => Some {| nd_fsn := Some f; nd_synonyms := Some syn |}
  | None => None
  end.

Definition group_rows (k : Z) (groups : list (Z * list Desc.row)) : option (list Desc.row) :=
  snd <$> last (filter (λ g, g.1 = k) groups).

(** The name [from_rf2] gives a relationship type: the term of the last
    fully-specified-name row of the type concept. *)
Definition type_name (concepts : list Desc.row) (t : Z) : option string :=
  Desc.term <$> last (filter (λ d, Desc.typeId d = fsn_typeId) (pd.rows_of concepts t)).

Definition empty_node : NodeData := {| nd_fsn := None; nd_synonyms := None |}.

(** The edge a relationship row asks for. *)
Definition row_edge (concepts : list Desc.row) (r : Rel.row) : option EdgeData :=
  match type_name concepts (Rel.typeId r) with
  | Some name => Some {| ed_group := Rel.relationshipGroup r;
                         ed_type := name;
                         ed_type_id := Rel.typeId r |}
  | None => None
  end.

(** The attributes of the node of concept [k], from its description
    rows. *)
Definition concept_node (concepts : list Desc.row) (k : Z) : option NodeData :=
  match pd.rows_of concepts k with
  | [] => Some empty_node
  | rows => node_of rows
  end.

(** [chain R u l]: [l] lists the nodes visited after [u], each reached
    from the one before by [R]. *)
Fixpoint chain {A : Type} (R : relation A) (u : A) (l : list A) : Prop :=
  match l with
  | [] => True
  | v :: l' => R u v ∧ chain R v l'
  end.

(** The node a walk from [u] along [l] ends at. *)
Definition endpoint {A : Type} (u : A) (l : list A) : A := default u (last l).

Definition key_le {A : Type} (key : A → Z) (a b : A) : Prop := key a ≤ key b.

Definition no_fsn_row (rows : list Desc.row) : Prop :=
  Forall (λ d, Desc.typeId d ≠ fsn_typeId) rows.

(** What C7 promises for concept [c] with active rows [d :: ds], none of
    them a fully-specified-name row: construction returns, the warning
    is in the log, and the node, when the graph keeps it, is named after
    [d] with the other terms as synonyms. *)
Definition promoted_in (relationships_df : list Rel.row) (concepts_df : list Desc.row)
    (c : Z) (d : Desc.row) (ds : list Desc.row) : Prop :=
  ∃ G log, from_rf2 relationships_df concepts_df = Ok (G, log) ∧
    {| w_sctid := c; w_fsn := Desc.term d |} ∈ log ∧
    (nx.contains G c = true →
     nx.nodes G c = Ok {| nd_fsn := Some (Desc.term d);
                          nd_synonyms := Some (Desc.term <$> ds) |}).

(** C7 read without the proviso: promotion for every concept and every
    input. *)
Definition always_promoted : Prop :=
  ∀ relationships_df concepts_df c d ds,
    pd.rows_of (active_descriptions concepts_df) c = d :: ds →
    no_fsn_row (d :: ds) →
    promoted_in relationships_df concepts_df c d ds.

(** [x] is an ancestor of [u]: it is reached from [u] by one "is a" edge
    or more. *)
Definition isa_ancestor (G : DiGraph) (u x : Z) : Prop :=
  ∃ n : nat, (0 < n)%nat ∧ nsteps (isa_edge G) n u x.

(** [r] is the relationship read off the edge from [u] to [v]. *)
Definition relationship_of_edge (G : DiGraph) (u v : Z) (r : SnomedRelationship) : Prop :=
  ∃ cu cv ed,
    get_concept_details G u = Ok cu ∧ get_concept_details G v = Ok cv ∧
    nx.edge_data G u v = Some ed ∧ r = SnomedRelationship_init cu cv ed.

(** There is an edge from [u] to [v], of whatever type. *)
Definition has_edge (G : DiGraph) (u v : Z) : Prop := v ∈ nx.successors G u.


#[global] Instance isa_edge_dec (G : DiGraph) (u v : Z) : Decision (isa_edge G u v).
Proof.
  unfold isa_edge. destruct (nx.edge_data G u v) as [ed|].
  - destruct (decide (ed_type_id ed = is_a_relationship_typeId)) as [H|H].
    + left. by exists ed.
    + right. intros (ed' & [= <-] & ?). done.
  - right. by intros (? & [=] & _).
Defined.

(** Every edge along [nodes] is typed "is a". *)
Definition all_is_a (G : DiGraph) (nodes : list Z) : Prop :=
  Forall (λ e, isa_edge G e.1 e.2) (nx.pairwise nodes).

#[global] Instance all_is_a_dec (G : DiGraph) (nodes : list Z) : Decision (all_is_a G nodes).
Proof. unfold all_is_a. apply _. Defined.

(** [rels] are the relationships of the edges along [nodes], in order. *)
Definition path_relationships (G : DiGraph) (nodes : list Z)
    (rels : list SnomedRelationship) : Prop :=
  Forall2 (λ e r, relationship_of_edge G e.1 e.2 r) (nx.pairwise nodes) rels.





(** [nodes] is a directed path from [s] to [t], repeated nodes allowed. *)
Definition is_path (G : DiGraph) (s t : Z) (nodes : list Z) : Prop :=
  ∃ ext, nodes = s :: ext ∧ chain (has_edge G) s ext ∧ endpoint s ext = t.

Definition shortest_between (G : DiGraph) (s t : Z) (nodes : list Z) : Prop :=
  is_path G s t nodes ∧
  ∀ nodes', is_path G s t nodes' → (length nodes ≤ length nodes')%nat.

(** [x] is reached from [s] in exactly [j] steps. *)
Definition reach (G : DiGraph) (s : Z) (j : nat) (x : Z) : Prop :=
  nsteps (has_edge G) j s x.

(** What holds of [seen] and [frontier] at level [k] of the search from
    [s]. *)
Record level_inv (G : DiGraph) (s : Z) (k : nat) (seen : list Z)
    (frontier : list (list Z)) : Prop := {
  inv_walks : ∀ p, p ∈ frontier →
                   ∃ ext, p = s :: ext ∧ chain (has_edge G) s ext ∧ length ext = k;
  inv_frontier : ∀ x, (∃ p, p ∈ frontier ∧ last p = Some x) ↔
                      reach G s k x ∧ ∀ j, (j < k)%nat → ¬ reach G s j x;
  inv_seen : ∀ x, x ∈ seen ↔ ∃ j, (j ≤ k)%nat ∧ reach G s j x
}.

(** C3 read literally: the two orders of the arguments give paths of the
    same length. *)
Definition find_path_same_length : Prop :=
  ∀ G a b p q,
    wf_graph G → described G →
    find_path G a b false = Ok p → find_path G b a false = Ok q →
    length p = length q.

(** C3 read literally: for two concepts of the graph a sequence of
    relationships is returned. *)
Definition find_path_always_returns : Prop :=
  ∀ G a b,
    wf_graph G → nx.contains G a = true → nx.contains G b = true →
    ∃ rels, find_path G a b false = Ok rels.

(** The node of concept [n] carries a fully specified name. *)
Definition has_fsn (G : DiGraph) (n : Z) : Prop :=
  ∃ nd, od_get n (_node G) = Some nd ∧ is_Some (nd_fsn nd).

(** The node sequences [find_path(a, b)] chooses from: the paths with
    the fewest edges from [a] to [b] or, when no path leads from [a] to
    [b], those from [b] to [a]. *)
Definition path_taken (G : DiGraph) (a b : Z) (nodes : list Z) : Prop :=
  shortest_between G a b nodes ∨
  ((∀ p, ¬ is_path G a b p) ∧ shortest_between G b a nodes).

(** * Example releases *)

Module demo.

Definition R (s d g t : Z) : Rel.row :=
  {| Rel.sourceId := s; Rel.destinationId := d; Rel.relationshipGroup := g;
     Rel.typeId := t; Rel.active := 1 |}.

Definition D (c t : Z) (s : string) : Desc.row :=
  {| Desc.conceptId := c; Desc.typeId := t; Desc.term := s; Desc.active := 1 |}.

Definition finding_site : Z := 363698007.

Definition synonym_typeId : Z := 900000000000013009.

(** Concept 1 is a 2, 2 is a 3, 3 is a root; 1 also has grouped
    attributes, and its edge to 9 is written twice. *)
Definition relationships : list Rel.row :=
  [ R 1 2 0 is_a_relationship_typeId;
    R 2 3 0 is_a_relationship_typeId;
    R 3 root_concept_id 0 is_a_relationship_typeId;
    R 1 7 2 finding_site;
    R 1 8 1 finding_site;
    R 1 9 0 is_a_relationship_typeId;
    R 1 6 2 finding_site;
    R 1 9 1 finding_site ].

Definition descriptions : list Desc.row :=
  [ D 1 fsn_typeId "One (finding)"; D 1 synonym_typeId "Uno";
    D 2 synonym_typeId "Two"; D 2 synonym_typeId "Dos";
    D 3 fsn_typeId "Three (finding)";
    D root_concept_id fsn_typeId "SNOMED CT Concept (SNOMED RT+CTV3)";
    D 6 fsn_typeId "Six (body structure)";
    D 7 fsn_typeId "Seven (body structure)";
    D 8 fsn_typeId "Eight (body structure)";
    D 9 fsn_typeId "Nine (body structure)";
    D is_a_relationship_typeId fsn_typeId "Is a (attribute)";
    D finding_site fsn_typeId "Finding site (attribute)";
    D 55 synonym_typeId "Unreferenced" ].

Definition build : res (DiGraph * list NoFsnWarning) :=
  Eval vm_compute in from_rf2 relationships descriptions.

Definition graph : DiGraph :=
  match build with
  | Ok (G, _) => G
  | _ => nx.DiGraph_init
  end.

Definition log : list NoFsnWarning :=
  match build with
  | Ok (_, log) => log
  | _ => []
  end.

End demo.

Module demo_untyped.

(** The concept that types the only relationship is described by a
    synonym alone. *)
Definition relationships : list Rel.row :=
  [ demo.R 1 2 0 is_a_relationship_typeId ].

Definition descriptions : list Desc.row :=
  [ demo.D 1 fsn_typeId "One (finding)";
    demo.D 2 fsn_typeId "Two (finding)";
    demo.D is_a_relationship_typeId demo.synonym_typeId "Is a" ].

End demo_untyped.

(** A chain of [n + 1] concepts, each one a child of the next. *)
Module deep.

Definition concept : NodeData := {| nd_fsn := Some "Link"; nd_synonyms := Some [] |}.

Definition is_a_edge : EdgeData :=
  {| ed_group := 0; ed_type := "Is a (attribute)";
     ed_type_id := is_a_relationship_typeId |}.

Definition graph (n : Z) : DiGraph :=
  {| _node := (λ i, (i, concept)) <$> seqZ 0 (n + 1);
     _succ := (λ i, (i, if decide (i < n) then [(i + 1, is_a_edge)] else []))
              <$> seqZ 0 (n + 1);
     _pred := (λ i, (i, if decide (0 < i) then [(i - 1, is_a_edge)] else []))
              <$> seqZ 0 (n + 1) |}.

End deep.

Arguments deep.graph : simpl never.

Module demo_results.

Definition ancestors_of_1 : cset :=
  match get_ancestors demo.graph 1 None with
  | Ok s => s
  | _ => ∅
  end.

Definition neighbourhood_of_2 : list SnomedConceptDetails :=
  match get_neighbourhood demo.graph 2 2 with
  | Ok l => l
  | _ => []
  end.

End demo_results.

(** A cycle: 1 is a 2, and the finding sites lead from 2 to 3 and from
    3 back to 1. *)
Module demo_cycle.

Definition relationships : list Rel.row :=
  [ demo.R 1 2 0 is_a_relationship_typeId;
    demo.R 2 3 1 demo.finding_site;
    demo.R 3 1 1 demo.finding_site ].

Definition descriptions : list Desc.row :=
  [ demo.D 1 fsn_typeId "One (finding)";
    demo.D 2 fsn_typeId "Two (finding)";
    demo.D 3 fsn_typeId "Three (body structure)";
    demo.D is_a_relationship_typeId fsn_typeId "Is a (attribute)";
    demo.D demo.finding_site fsn_typeId "Finding site (attribute)" ].

Definition build : res (DiGraph * list NoFsnWarning) :=
  Eval vm_compute in from_rf2 relationships descriptions.

Definition graph : DiGraph :=
  match build with
  | Ok (G, _) => G
  | _ => nx.DiGraph_init
  end.

End demo_cycle.

(** Three concepts in a ring: 1 is a 2, 2 is a 3 and 3 is a 1. *)
Module isa_cycle.

Definition relationships : list Rel.row :=
  [ demo.R 1 2 0 is_a_relationship_typeId;
    demo.R 2 3 0 is_a_relationship_typeId;
    demo.R 3 1 0 is_a_relationship_typeId ].

Definition descriptions : list Desc.row :=
  [ demo.D 1 fsn_typeId "One (finding)";
    demo.D 2 fsn_typeId "Two (finding)";
    demo.D 3 fsn_typeId "Three (finding)";
    demo.D is_a_relationship_typeId fsn_typeId "Is a (attribute)" ].

Definition build : res (DiGraph * list NoFsnWarning) :=
  Eval vm_compute in from_rf2 relationships descriptions.

Definition graph : DiGraph :=
  match build with
  | Ok (G, _) => G
  | _ => nx.DiGraph_init
  end.

End isa_cycle.

(** Concept 1 is a 2 and has its finding site in 6; no row describes
    concept 6. *)
Module demo_undescribed.

Definition relationships : list Rel.row :=
  [ demo.R 1 2 0 is_a_relationship_typeId;
    demo.R 1 6 1 demo.finding_site ].

Definition descriptions : list Desc.row :=
  [ demo.D 1 fsn_typeId "One (finding)";
    demo.D 2 fsn_typeId "Two (finding)";
    demo.D is_a_relationship_typeId fsn_typeId "Is a (attribute)";
    demo.D demo.finding_site fsn_typeId "Finding site (attribute)" ].

Definition build : res (DiGraph * list NoFsnWarning) :=
  Eval vm_compute in from_rf2 relationships descriptions.

Definition graph : DiGraph :=
  match build with
  | Ok (G, _) => G
  | _ => nx.DiGraph_init
  end.

End demo_undescribed.

(** * The rest of the module *)

(** ** The rest of class [SnomedGraph] *)

(** [SnomedConcept]: the details of a concept with its parents, its
    children and its inferred relationships. *)
Record SnomedConcept : Type := {
  concept_details : SnomedConceptDetails;
  parents : list SnomedConceptDetails;
  children : list SnomedConceptDetails;
  inferred_relationship_groups : list SnomedRelationshipGroup
}.

Definition get_full_concept (G : DiGraph) (sctid : Z) : res SnomedConcept :=
  let! concept_details := get_concept_details G sctid in
  let! parents := get_parents G sctid in
  let! children := get_children G sctid in
  let! inferred_relationship_groups := get_inferred_relationships G sctid in
  Ok {| concept_details := concept_details; parents := parents;
        children := children;
        inferred_relationship_groups := inferred_relationship_groups |}.

(** [__iter__], run to its end: the details of every node, in the order
    of the node dictionary. *)
Definition SnomedGraph_iter (G : DiGraph) : res (list SnomedConceptDetails) :=
  res_mapM (get_concept_details G) (od_keys (_node G)).

(** [__len__] *)
Definition SnomedGraph_len (G : DiGraph) : nat := nx.number_of_nodes G.

(** [__contains__] *)
Definition SnomedGraph_contains (G : DiGraph) (item : Z) : bool := nx.contains G item.

(** The property [relationship_types]: the values of the edge attribute
    [type], as a set. *)
Definition relationship_types (G : DiGraph) : gset string :=
  list_to_set ((λ e : Z * Z * EdgeData, ed_type e.2) <$> edge_list G).

(** ** The property [hierarchy]

    A Python [str] is read as the sequence of its characters, an [ascii]
    standing for a code point below 256. *)

(** The characters [\s] matches in a [str] pattern, among those below
    256. *)
Definition isspace (c : ascii) : bool :=
  let n := N_of_ascii c in
  ((9 <=? n) && (n <=? 13) || (28 <=? n) && (n <=? 32) || (n =? 133) || (n =? 160))%N.

(** The characters of [s] before its first closing parenthesis, and
    those after it. *)
Fixpoint until_close (s : list ascii) : option (list ascii * list ascii) :=
  match s with
  | [] => None
  | c :: s' =>
      if decide (c = ")"%char) then Some ([], s')
      else prod_map (cons c) id <$> until_close s'
  end.

(** The match of [\(([^)]+)\)\s*$] that starts at the head of [s], if
    there is one: an opening parenthesis, the characters up to the next
    closing parenthesis, of which there is at least one, that
    parenthesis, and white space up to the end of the string. *)
Definition match_here (s : list ascii) : option (list ascii) :=
  match s with
  | c :: rest =>
      if decide (c = "("%char) then
        match until_close rest with
        | Some (_ :: _, spaces) => if forallb isspace spaces then Some s else None
        | _ => None
        end
      else None
  | [] => None
  end.

(** [re.search]: the match at the leftmost position that has one. *)
Fixpoint re_search (s : list ascii) : option (list ascii) :=
  match match_here s with
  | Some m => Some m
  | None =>
      match s with
      | [] => None
      | _ :: s' => re_search s'
      end
  end.

(** [SnomedConceptDetails.hierarchy]; [m[1:-1]] drops the first and the
    last character of the match. *)
Definition hierarchy (self : SnomedConceptDetails) : string :=
  match re_search (String.list_ascii_of_string (fsn self)) with
  | Some hierarchy_match => String.string_of_list_ascii (removelast (tail hierarchy_match))
  | None => ""
  end.

(** [SnomedConcept.hierarchy] *)
Definition SnomedConcept_hierarchy (self : SnomedConcept) : string :=
  hierarchy (concept_details self).

(** ** [get_core_file_paths]

    Paths are those of a POSIX system, where [os.path] is [posixpath]. *)

Module posixpath.

(** [p[:p.rfind('/') + 1]] *)
Fixpoint upto_last_sep (p : list ascii) : list ascii :=
  match p with
  | [] => []
  | c :: p' =>
      if bool_decide ("/"%char ∈ p') then c :: upto_last_sep p'
      else if decide (c = "/"%char) then [c] else []
  end.

(** [p[p.rfind('/') + 1:]] *)
Fixpoint after_last_sep (p : list ascii) : list ascii :=
  match p with
  | [] => []
  | c :: p' =>
      if bool_decide ("/"%char ∈ p') then after_last_sep p'
      else if decide (c = "/"%char) then p' else c :: p'
  end.

(** [head.rstrip('/')] *)
Fixpoint rstrip (head : list ascii) : list ascii :=
  match head with
  | [] => []
  | c :: head' =>
      match rstrip head' with
      | [] => if decide (c = "/"%char) then [] else [c]
      | stripped => c :: stripped
      end
  end.

Definition basename (p : string) : string :=
  String.string_of_list_ascii (after_last_sep (String.list_ascii_of_string p)).

(** A head made of separators only is the root and is left alone. *)
Definition dirname (p : string) : string :=
  let head := upto_last_sep (String.list_ascii_of_string p) in
  String.string_of_list_ascii
    (if forallb (λ c, bool_decide (c = "/"%char)) head then head else rstrip head).

End posixpath.

(** [s.split(sep)] for a separator of one character. *)
Fixpoint str_split (sep : ascii) (s : list ascii) : list (list ascii) :=
  match s with
  | [] => [[]]
  | c :: s' =>
      if decide (c = sep) then [] :: str_split sep s'
      else match str_split sep s' with
           | w :: ws => (c :: w) :: ws
           | [] => [[c]]
           end
  end.

Section release_paths.

(** [os.path.exists], the state of the file system. *)
Variable os_path_exists : string → bool.

(** [datetime.strptime(s, "%Y%m%dT%H%M%SZ").strftime("%Y%m%d")], with
    [None] for the [ValueError] of a string that is not such a time. *)
Variable release_date : string → option string.

(** The [try] block: the country namespace and the version date read
    off the folder name, [None] when the block raises. *)
Definition release_name_parts (dir : string) : option (string * string) :=
  match String.string_of_list_ascii
          <$> str_split "_"%char (String.list_ascii_of_string dir) with
  | [filetype; contenttype; contentsubtype; countrynamespace; versiondate] =>
      pair countrynamespace <$> release_date versiondate
  | [filetype; contenttype; contentsubtype; versiondate] =>
      pair "INT" <$> release_date versiondate
  | _ => None
  end.

Definition get_core_file_paths (path langcode : string) : res (string * string) :=
  if negb (os_path_exists path) then Raise AssertionError
  else
    let base_dir := posixpath.dirname path in
    let dir := posixpath.basename path in
    match release_name_parts dir with
    | None => Raise AssertionError
    | Some (countrynamespace, versiondate) =>
        let relationships_path :=
          base_dir +:+ "/" +:+ dir
          +:+ "/Snapshot/Terminology/sct2_Relationship_Snapshot_"
          +:+ countrynamespace +:+ "_" +:+ versiondate +:+ ".txt" in
        if negb (os_path_exists relationships_path) then Raise AssertionError
        else
          let descriptions_path :=
            base_dir +:+ "/" +:+ dir
            +:+ "/Snapshot/Terminology/sct2_Description_Snapshot-" +:+ langcode
            +:+ "_" +:+ countrynamespace +:+ "_" +:+ versiondate +:+ ".txt" in
          if negb (os_path_exists descriptions_path) then Raise AssertionError
          else Ok (relationships_path, descriptions_path)
    end.

End release_paths.

(** * Vocabulary of the further properties *)

(** [u] and [v] are joined by an edge typed "is a", in one direction or
    the other. *)
Definition kin (G : DiGraph) (u v : Z) : Prop := isa_edge G u v ∨ isa_edge G v u.

(** [x] is reached from [u] by between 1 and [k] steps along "is a"
    edges, each taken in either direction. *)
Definition kin_within (G : DiGraph) (k : Z) (u x : Z) : Prop :=
  ∃ n : nat, (0 < n)%nat ∧ Z.of_nat n ≤ k ∧ nsteps (kin G) n u x.

(** Every element of the set is stored under its own [sctid]. *)
Definition keyed (s : cset) : Prop := ∀ x c, s !! x = Some c → sctid c = x.

(** The type of relationship row [r] is a concept with an active
    fully-specified-name row. *)
Definition type_described (concepts_df : list Desc.row) (r : Rel.row) : Prop :=
  ∃ d, d ∈ concepts_df ∧ Desc.active d = 1 ∧
       Desc.conceptId d = Rel.typeId r ∧ Desc.typeId d = fsn_typeId.

(** Concept [k] is at one end of an active relationship row. *)
Definition related (relationships_df : list Rel.row) (k : Z) : Prop :=
  ∃ r, r ∈ relationships_df ∧ Rel.active r = 1 ∧
       (Rel.sourceId r = k ∨ Rel.destinationId r = k).

(** Concept [k] has an active description row. *)
Definition has_description (concepts_df : list Desc.row) (k : Z) : Prop :=
  ∃ d, d ∈ concepts_df ∧ Desc.active d = 1 ∧ Desc.conceptId d = k.

(** * Properties *)

(** ** The result monad *)

Lemma res_bind_Ok {A B : Type} (m : res A) (f : A → res B) (b : B) :
  res_bind m f = Ok b ↔ ∃ a, m = Ok a ∧ f a = Ok b.
Proof.
  destruct m; simpl; split; try (intros (? & [=] & ?)); try done; eauto.
  by subst.
Qed.

Lemma res_bind_not_OutOfFuel {A B : Type} (m : res A) (f : A → res B) :
  m ≠ OutOfFuel → (∀ a, m = Ok a → f a ≠ OutOfFuel) → res_bind m f ≠ OutOfFuel.
Proof. destruct m; simpl; eauto. Qed.

Ltac inv_res :=
  repeat match goal with
  | H : res_bind _ _ = Ok _ |- _ =>
      apply res_bind_Ok in H; destruct H as (? & ? & H)
  | H : Ok _ = Ok _ |- _ => injection H as H; try subst
  | H : Raise _ = Ok _ |- _ => discriminate H
  | H : OutOfFuel = Ok _ |- _ => discriminate H
  end.

Lemma res_mapM_Ok {A B : Type} (f : A → res B) (l : list A) (l' : list B) :
  res_mapM f l = Ok l' ↔ Forall2 (λ x y, f x = Ok y) l l'.
Proof.
  revert l'. induction l as [|x l IH]; intros l'; simpl.
  - split; [intros [= <-]; constructor | by inversion 1].
  - rewrite res_bind_Ok. split.
    + intros (y & Hy & H). apply res_bind_Ok in H as (ys & Hys & [= <-]).
      constructor; [done | by apply IH].
    + inversion 1 as [|? y ? ys Hy Hys]; subst. exists y. split; [done|].
      apply res_bind_Ok. exists ys. split; [by apply IH | done].
Qed.

Lemma res_mapM_total {A B : Type} (f : A → res B) (l : list A) :
  Forall (λ x, ∃ y, f x = Ok y) l → ∃ l', res_mapM f l = Ok l'.
Proof.
  induction 1 as [|x l [y Hy] _ [l' IH]]; simpl; [by eexists|].
  rewrite Hy; simpl. rewrite IH; simpl. by eexists.
Qed.

Lemma Forall2_elem_of_l {A B : Type} (P : A → B → Prop) (l : list A) (k : list B) (x : A) :
  Forall2 P l k → x ∈ l → ∃ y, y ∈ k ∧ P x y.
Proof.
  induction 1 as [|a b l k Hab _ IH]; [by intros ?%elem_of_nil|].
  intros [->|Hx]%elem_of_cons.
  - exists b. split; [left | done].
  - destruct (IH Hx) as (y & ? & ?). exists y. split; [by right | done].
Qed.

Lemma Forall2_elem_of_r {A B : Type} (P : A → B → Prop) (l : list A) (k : list B) (y : B) :
  Forall2 P l k → y ∈ k → ∃ x, x ∈ l ∧ P x y.
Proof.
  induction 1 as [|a b l k Hab _ IH]; [by intros ?%elem_of_nil|].
  intros [->|Hy]%elem_of_cons.
  - exists a. split; [left | done].
  - destruct (IH Hy) as (x & ? & ?). exists x. split; [by right | done].
Qed.

Lemma foldM_union_Ok {A : Type} (F : A → res cset) (l : list A) (acc s : cset) :
  foldM (union_loop F) l acc = Ok s ↔
  ∃ rs, Forall2 (λ x r, F x = Ok r) l rs ∧ s = foldl (∪) acc rs.
Proof.
  revert acc. induction l as [|x l IH]; intros acc; simpl.
  - split.
    + intros [= <-]. exists []. split; [constructor | done].
    + intros (rs & Hrs & ->). by inversion Hrs.
  - unfold union_loop at 1. rewrite res_bind_Ok. split.
    + intros (a & Ha & H). apply res_bind_Ok in Ha as (r & Hr & [= <-]).
      apply IH in H as (rs & Hrs & ->). exists (r :: rs). split; [by constructor | done].
    + intros (rs & Hrs & ->). inversion Hrs as [|? r ? rs' Hr Hrs']; subst.
      exists (acc ∪ r). split; [by rewrite Hr|]. apply IH. eauto.
Qed.

Lemma foldM_not_OutOfFuel {A B : Type} (f : B → A → res B) (l : list A) (b : B) :
  (∀ b x, x ∈ l → f b x ≠ OutOfFuel) → foldM f l b ≠ OutOfFuel.
Proof.
  revert b. induction l as [|x l IH]; intros b Hf; simpl; [done|].
  apply res_bind_not_OutOfFuel.
  - apply Hf. left.
  - intros b' _. apply IH. intros. apply Hf. by right.
Qed.

Lemma foldM_ext_in {A B : Type} (f g : B → A → res B) (l : list A) (b : B) :
  (∀ b x, x ∈ l → f b x = g b x) → foldM f l b = foldM g l b.
Proof.
  revert b. induction l as [|x l IH]; intros b Hfg; simpl; [done|].
  rewrite Hfg by left. destruct (g b x); simpl; try done.
  apply IH. intros. apply Hfg. by right.
Qed.

Lemma dom_foldl_union (acc : cset) (rs : list cset) (x : Z) :
  x ∈ dom (foldl (∪) acc rs) ↔ x ∈ dom acc ∨ ∃ r, r ∈ rs ∧ x ∈ dom r.
Proof.
  revert acc. induction rs as [|r rs IH]; intros acc; simpl.
  - split; [by left | intros [?|(? & ?%elem_of_nil & _)]; done].
  - rewrite IH, dom_union, elem_of_union. split.
    + intros [[?|?]|(r' & ? & ?)]; eauto.
      * right. exists r. split; [left | done].
      * right. exists r'. split; [by right | done].
    + intros [?|(r' & [->|?]%elem_of_cons & ?)]; eauto.
Qed.

(** ** Ordered dictionaries *)

Lemma od_get_keys {V : Type} (k : Z) (d : odict V) :
  k ∈ od_keys d ↔ is_Some (od_get k d).
Proof.
  unfold od_keys. induction d as [|[k' v] d IH]; simpl.
  - split; [by intros ?%elem_of_nil | by intros [? [=]]].
  - rewrite elem_of_cons, IH. case_decide; [split; eauto|].
    split; [intros [?|?]; [congruence | done] | by right].
Qed.

Lemma od_get_set {V : Type} (k k' : Z) (v : V) (d : odict V) :
  od_get k' (od_set k v d) = if decide (k' = k) then Some v else od_get k' d.
Proof.
  induction d as [|[k0 v0] d IH]; simpl.
  - by repeat case_decide.
  - destruct (decide (k = k0)) as [->|]; simpl;
      destruct (decide (k' = k0)) as [->|]; rewrite ?IH;
      repeat case_decide; congruence.
Qed.

Lemma od_get_del {V : Type} (k k' : Z) (d : odict V) :
  od_get k' (od_del k d) = if decide (k' = k) then None else od_get k' d.
Proof.
  induction d as [|[k0 v0] d IH]; simpl.
  - by case_decide.
  - destruct (decide (k = k0)) as [->|]; simpl;
      destruct (decide (k' = k0)) as [->|]; rewrite ?IH;
      repeat case_decide; congruence.
Qed.

Lemma od_get_elem_of {V : Type} (k : Z) (v : V) (d : odict V) :
  od_get k d = Some v → (k, v) ∈ d.
Proof.
  induction d as [|[k0 v0] d IH]; simpl; [done|].
  case_decide; [intros [= ->]; subst; left | right; auto].
Qed.

(** ** Reading relationships off the graph *)

Lemma get_concept_details_sctid (G : DiGraph) (n : Z) (c : SnomedConceptDetails) :
  get_concept_details G n = Ok c → sctid c = n.
Proof.
  unfold get_concept_details, SnomedConceptDetails_init. intros H. inv_res.
  destruct (nd_fsn _); by inv_res.
Qed.

Lemma get_out_relationships_Ok (G : DiGraph) (u : Z) (rs : list SnomedRelationship) :
  get_out_relationships G u = Ok rs →
  ∃ cu d, get_concept_details G u = Ok cu ∧ od_get u (_succ G) = Some d ∧
    Forall2 (λ v r, ∃ cv ed, get_concept_details G v = Ok cv ∧
                       od_get v d = Some ed ∧ r = SnomedRelationship_init cu cv ed)
            (od_keys d) rs.
Proof.
  unfold get_out_relationships. intros H. inv_res. rename x into cu, x0 into es.
  unfold nx.out_edges in *. destruct (od_get u (_succ G)) as [d|] eqn:Hd; [|done].
  inv_res. exists cu, d. do 2 (split; [done|]).
  apply res_mapM_Ok in H. rewrite Forall2_fmap_l in H.
  eapply Forall2_impl; [exact H|]. simpl. intros v r Hr. inv_res.
  unfold nx.edges, nx.edge_data in *. simpl in *. rewrite Hd in *.
  destruct (od_get v d) as [ed|] eqn:Hed; [|done]. inv_res. eauto.
Qed.

Lemma get_parents_sound (G : DiGraph) (u : Z) (ps : list SnomedConceptDetails)
    (c : SnomedConceptDetails) :
  get_parents G u = Ok ps → c ∈ ps →
  get_concept_details G (sctid c) = Ok c ∧ isa_edge G u (sctid c).
Proof.
  unfold get_parents. intros H Hc. inv_res. rename x into rs.
  apply get_out_relationships_Ok in H0 as (cu & d & _ & Hd & Hrs).
  apply list_elem_of_fmap in Hc as (r & -> & [Hisa Hr]%list_elem_of_filter).
  destruct (Forall2_elem_of_r _ _ _ _ Hrs Hr) as (v & Hv & cv & ed & Hcv & Hed & Hreq).
  subst r. simpl. rewrite (get_concept_details_sctid _ _ _ Hcv). split; [done|].
  exists ed. unfold nx.edge_data. rewrite Hd. split; [done | exact Hisa].
Qed.

Lemma get_parents_complete (G : DiGraph) (u v : Z) (ps : list SnomedConceptDetails) :
  get_parents G u = Ok ps → isa_edge G u v → ∃ c, c ∈ ps ∧ sctid c = v.
Proof.
  unfold get_parents. intros H (ed & Hed & Hty). inv_res. rename x into rs.
  apply get_out_relationships_Ok in H0 as (cu & d & _ & Hd & Hrs).
  unfold nx.edge_data in Hed. rewrite Hd in Hed.
  assert (v ∈ od_keys d) as Hv by (apply od_get_keys; eauto).
  destruct (Forall2_elem_of_l _ _ _ _ Hrs Hv) as (r & Hr & cv & ed' & Hcv & Hed' & Hreq).
  subst r. exists cv. split; [|by eapply get_concept_details_sctid].
  apply list_elem_of_fmap. eexists. split; [|apply list_elem_of_filter; split; [|done]].
  - done.
  - unfold is_a. simpl. congruence.
Qed.

(** ** Sets of concepts *)

Lemma set_lookup (l : list SnomedConceptDetails) (x : Z) (c : SnomedConceptDetails) :
  set_ l !! x = Some c → c ∈ l ∧ sctid c = x.
Proof.
  unfold set_. intros H%elem_of_list_to_map_2.
  apply list_elem_of_fmap in H as (c' & [= -> ->] & ?). done.
Qed.

Lemma set_dom (l : list SnomedConceptDetails) (x : Z) :
  x ∈ dom (set_ l) ↔ ∃ c, c ∈ l ∧ sctid c = x.
Proof.
  unfold set_. rewrite dom_list_to_map_L, elem_of_list_to_set, <- list_fmap_compose.
  rewrite list_elem_of_fmap. split; intros (c & ? & ?); exists c; done.
Qed.

Lemma details_of_union (G : DiGraph) (s1 s2 : cset) :
  details_of G s1 → details_of G s2 → details_of G (s1 ∪ s2).
Proof. intros H1 H2 x c [?|[_ ?]]%lookup_union_Some_raw; eauto. Qed.

Lemma details_of_foldl_union (G : DiGraph) (acc : cset) (rs : list cset) :
  details_of G acc → Forall (details_of G) rs → details_of G (foldl (∪) acc rs).
Proof.
  intros Hacc Hrs. revert acc Hacc.
  induction Hrs as [|r rs Hr _ IH]; intros acc Hacc; simpl; [done|].
  apply IH. by apply details_of_union.
Qed.

Lemma details_of_filter (G : DiGraph) (P : Z * SnomedConceptDetails → Prop)
    `{!∀ kv, Decision (P kv)} (s : cset) :
  details_of G s → details_of G (filter P s).
Proof. intros Hs x c [? _]%map_lookup_filter_Some. eauto. Qed.

Lemma details_of_subseteq (G : DiGraph) (s1 s2 : cset) :
  details_of G s1 → details_of G s2 → dom s1 ⊆ dom s2 → s1 ⊆ s2.
Proof.
  intros H1 H2 Hdom. apply map_subseteq_spec. intros x c Hx.
  assert (x ∈ dom s2) as [c' Hc']%elem_of_dom by (apply Hdom, elem_of_dom; eauto).
  apply H1 in Hx. pose proof (H2 _ _ Hc'). congruence.
Qed.

(** ** Ancestors *)

Lemma isa_within_mono (G : DiGraph) (k k' u x : Z) :
  k ≤ k' → isa_within G k u x → isa_within G k' u x.
Proof. intros Hk (n & ? & ? & ?). exists n. repeat split; [done | lia | done]. Qed.

Lemma isa_within_one (G : DiGraph) (u x : Z) :
  isa_within G 1 u x ↔ isa_edge G u x.
Proof.
  split.
  - intros (n & ? & ? & Hn). assert (n = 1%nat) as -> by lia.
    by apply nsteps_once_inv.
  - intros ?. exists 1%nat. repeat split; [lia | lia | by apply nsteps_once].
Qed.

Lemma isa_within_step (G : DiGraph) (k u x : Z) :
  1 < k →
  isa_within G k u x ↔
  isa_edge G u x ∨ ∃ v, isa_edge G u v ∧ isa_within G (k - 1) v x.
Proof.
  intros Hk. split.
  - intros (n & Hn & Hnk & Hsteps). inversion Hsteps as [|n' ? v ? Huv Hrest]; subst; [lia|].
    destruct n' as [|n'].
    + inversion Hrest; subst. by left.
    + right. exists v. split; [done|]. exists (S n'). repeat split; [lia | lia | done].
  - intros [?|(v & Huv & n & ? & ? & ?)].
    + exists 1%nat. repeat split; [lia | lia | by apply nsteps_once].
    + exists (S n). repeat split; [lia | lia | by eapply nsteps_l].
Qed.

Lemma check_steps_removed_Ok (steps_removed : option Z) (k : Z) :
  check_steps_removed steps_removed = Ok k ↔
  k = steps_or_default steps_removed ∧ 0 < k.
Proof.
  unfold check_steps_removed, steps_or_default, unbounded_steps.
  destruct steps_removed as [s|]; simpl.
  - case_bool_decide; split; try done; try lia.
    + intros [= ->]. lia.
    + intros [-> _]. done.
  - split; [intros [= <-]; lia | by intros [-> _]].
Qed.

Lemma get_ancestors_fuel_spec (fuel : nat) (G : DiGraph) (id : Z)
    (steps_removed : option Z) (s : cset) :
  get_ancestors_fuel fuel G id steps_removed = Ok s →
  details_of G s ∧
  ∀ x, x ∈ dom s ↔
       x ≠ root_concept_id ∧ isa_within G (steps_or_default steps_removed) id x.
Proof.
  revert id steps_removed s. induction fuel as [|fuel IH]; intros id steps s H; [done|].
  simpl in H.
  apply res_bind_Ok in H as (k & Hk & H). apply check_steps_removed_Ok in Hk as [Hk Hpos].
  rewrite <- Hk. clear Hk steps.
  apply res_bind_Ok in H as (ps & Hps & H).
  apply res_bind_Ok in H as (anc & Hanc & [= <-]).
  assert (details_of G (set_ ps)) as Hset.
  { intros x c [Hc <-]%set_lookup. by eapply get_parents_sound. }
  assert (∀ x, x ∈ dom (set_ ps) ↔ isa_edge G id x) as Hdomset.
  { intros x. rewrite set_dom. split.
    - intros (c & Hc & <-). by eapply get_parents_sound.
    - intros Hx. by eapply get_parents_complete. }
  assert (details_of G anc ∧
          ∀ x, x ≠ root_concept_id → x ∈ dom anc ↔ isa_within G k id x) as [Hdet Hdom].
  { case_bool_decide as Hk1.
    - apply (foldM_union_Ok (λ p, get_ancestors_fuel fuel G (sctid p) (Some (k - 1))))
        in Hanc as (rs & Hrs & ->).
      split.
      + apply details_of_foldl_union; [done|]. apply Forall_forall. intros r Hr.
        destruct (Forall2_elem_of_r _ _ _ _ Hrs Hr) as (p & _ & Hp). by apply IH in Hp as [? _].
      + intros x Hx. rewrite dom_foldl_union, Hdomset, isa_within_step by lia.
        split; (intros [?|Hr]; [by left | right]).
        * destruct Hr as (r & Hr & Hxr).
          destruct (Forall2_elem_of_r _ _ _ _ Hrs Hr) as (p & Hp & Hgp).
          apply IH in Hgp as [_ Hgp]. destruct (proj1 (Hgp x) Hxr) as [_ Hvx].
          exists (sctid p). split; [by eapply get_parents_sound | done].
        * destruct Hr as (v & Huv & Hvx).
          destruct (get_parents_complete _ _ _ _ Hps Huv) as (p & Hp & <-).
          destruct (Forall2_elem_of_l _ _ _ _ Hrs Hp) as (r & Hr & Hgp).
          exists r. split; [done|]. apply IH in Hgp as [_ Hgp]. by apply Hgp.
    - injection Hanc as <-. split; [done|]. intros x _.
      assert (k = 1) as -> by lia. by rewrite isa_within_one. }
  split; [by apply details_of_filter|].
  intros x. rewrite elem_of_dom. unfold is_Some.
  setoid_rewrite map_lookup_filter_Some. simpl. split.
  - intros (c & Hc & Hroot). pose proof (Hdet _ _ Hc) as <-%get_concept_details_sctid.
    split; [done|]. apply Hdom; [done|]. apply elem_of_dom. eauto.
  - intros [Hroot Hx]. apply Hdom in Hx as [c Hc]%elem_of_dom; [|done].
    exists c. split; [done|]. by pose proof (Hdet _ _ Hc) as ->%get_concept_details_sctid.
Qed.

(** ** Call depth *)

Lemma res_mapM_not_OutOfFuel {A B : Type} (f : A → res B) (l : list A) :
  (∀ x, f x ≠ OutOfFuel) → res_mapM f l ≠ OutOfFuel.
Proof.
  intros Hf. induction l as [|x l IH]; simpl; [done|].
  apply res_bind_not_OutOfFuel; [done|]. intros y _.
  apply res_bind_not_OutOfFuel; [done|]. done.
Qed.

Lemma get_concept_details_not_OutOfFuel (G : DiGraph) (n : Z) :
  get_concept_details G n ≠ OutOfFuel.
Proof.
  unfold get_concept_details, nx.nodes, SnomedConceptDetails_init.
  destruct (od_get n (_node G)) as [nd|]; simpl; [|done]. by destruct (nd_fsn nd).
Qed.

Lemma edges_not_OutOfFuel (G : DiGraph) (uv : Z * Z) : nx.edges G uv ≠ OutOfFuel.
Proof. unfold nx.edges. by destruct (nx.edge_data _ _ _). Qed.

Lemma get_out_relationships_not_OutOfFuel (G : DiGraph) (u : Z) :
  get_out_relationships G u ≠ OutOfFuel.
Proof.
  unfold get_out_relationships.
  apply res_bind_not_OutOfFuel; [apply get_concept_details_not_OutOfFuel|]. intros cu _.
  apply res_bind_not_OutOfFuel.
  { unfold nx.out_edges. by destruct (od_get _ _). }
  intros es _. apply res_mapM_not_OutOfFuel. intros e.
  apply res_bind_not_OutOfFuel; [apply get_concept_details_not_OutOfFuel|]. intros cv _.
  apply res_bind_not_OutOfFuel; [apply edges_not_OutOfFuel | done].
Qed.

Lemma get_in_relationships_not_OutOfFuel (G : DiGraph) (v : Z) :
  get_in_relationships G v ≠ OutOfFuel.
Proof.
  unfold get_in_relationships.
  apply res_bind_not_OutOfFuel; [apply get_concept_details_not_OutOfFuel|]. intros cv _.
  apply res_bind_not_OutOfFuel.
  { unfold nx.in_edges. by destruct (od_get _ _). }
  intros es _. apply res_mapM_not_OutOfFuel. intros e.
  apply res_bind_not_OutOfFuel; [apply get_concept_details_not_OutOfFuel|]. intros cu _.
  apply res_bind_not_OutOfFuel; [apply edges_not_OutOfFuel | done].
Qed.

Lemma get_parents_not_OutOfFuel (G : DiGraph) (u : Z) : get_parents G u ≠ OutOfFuel.
Proof.
  unfold get_parents.
  apply res_bind_not_OutOfFuel; [apply get_out_relationships_not_OutOfFuel | done].
Qed.

Lemma get_children_not_OutOfFuel (G : DiGraph) (u : Z) : get_children G u ≠ OutOfFuel.
Proof.
  unfold get_children.
  apply res_bind_not_OutOfFuel; [apply get_in_relationships_not_OutOfFuel | done].
Qed.

Lemma check_steps_removed_not_OutOfFuel (steps_removed : option Z) :
  check_steps_removed steps_removed ≠ OutOfFuel.
Proof.
  unfold check_steps_removed. destruct steps_removed; [|done]. by case_bool_decide.
Qed.

Lemma call_depth_pos (k : Z) : (0 < call_depth k)%nat.
Proof. unfold call_depth. lia. Qed.

Lemma call_depth_pred (k : Z) : k > 1 → call_depth k = S (call_depth (k - 1)).
Proof. unfold call_depth. lia. Qed.

Lemma call_depth_nonpos (k : Z) : k ≤ 1 → call_depth k = 1%nat.
Proof. unfold call_depth. lia. Qed.

Lemma res_bind_stable {A B : Type} (m : res A) (f g : A → res B) :
  res_bind m f ≠ OutOfFuel →
  (∀ a, m = Ok a → f a ≠ OutOfFuel → g a = f a) →
  res_bind m g = res_bind m f.
Proof. destruct m; simpl; eauto. Qed.

Lemma foldM_stable {A B : Type} (f g : B → A → res B) (l : list A) (b : B) :
  (∀ b x, x ∈ l → f b x ≠ OutOfFuel → g b x = f b x) →
  foldM f l b ≠ OutOfFuel → foldM g l b = foldM f l b.
Proof.
  revert b. induction l as [|x l IH]; intros b Hfg Hf; simpl in *; [done|].
  assert (f b x ≠ OutOfFuel) as Hx by (by destruct (f b x)).
  rewrite (Hfg b x) by (done || left). destruct (f b x) as [b'| |]; simpl in *; try done.
  apply IH; [|done]. intros. apply Hfg; [by right | done].
Qed.

(** More call depth never changes the outcome of a run that finished. *)
Lemma get_ancestors_fuel_stable (fuel fuel' : nat) (G : DiGraph) (id : Z)
    (steps_removed : option Z) :
  (fuel ≤ fuel')%nat →
  get_ancestors_fuel fuel G id steps_removed ≠ OutOfFuel →
  get_ancestors_fuel fuel' G id steps_removed = get_ancestors_fuel fuel G id steps_removed.
Proof.
  revert fuel' id steps_removed.
  induction fuel as [|fuel IH]; intros fuel' id steps Hle H; [done|].
  destruct fuel' as [|fuel']; [lia|]. simpl in *.
  apply res_bind_stable; [done|]. intros k _ Hk.
  apply res_bind_stable; [done|]. intros ps _ Hps.
  f_equal. case_bool_decide; [|done].
  apply foldM_stable.
  - intros acc p _ Hp. rewrite (IH fuel'); [done | lia |].
    intros Hoof. by rewrite Hoof in Hp.
  - intros Hoof. by rewrite Hoof in Hps.
Qed.

Lemma get_descendants_fuel_stable (fuel fuel' : nat) (G : DiGraph) (id : Z)
    (steps_removed : option Z) :
  (fuel ≤ fuel')%nat →
  get_descendants_fuel fuel G id steps_removed ≠ OutOfFuel →
  get_descendants_fuel fuel' G id steps_removed = get_descendants_fuel fuel G id steps_removed.
Proof.
  revert fuel' id steps_removed.
  induction fuel as [|fuel IH]; intros fuel' id steps Hle H; [done|].
  destruct fuel' as [|fuel']; [lia|]. simpl in *.
  apply res_bind_stable; [done|]. intros k _ Hk.
  apply res_bind_stable; [done|]. intros cs _ Hcs.
  case_bool_decide; [|done].
  apply foldM_stable; [|done].
  intros acc c _ Hc. rewrite (IH fuel'); [done | lia |].
  intros Hoof. by rewrite Hoof in Hc.
Qed.

Lemma get_neighbourhood_fuel_stable (fuel fuel' : nat) (G : DiGraph) (id : Z)
    (steps_removed : Z) :
  (fuel ≤ fuel')%nat →
  get_neighbourhood_fuel fuel G id steps_removed ≠ OutOfFuel →
  get_neighbourhood_fuel fuel' G id steps_removed
  = get_neighbourhood_fuel fuel G id steps_removed.
Proof.
  revert fuel' id steps_removed.
  induction fuel as [|fuel IH]; intros fuel' id steps Hle H; [done|].
  destruct fuel' as [|fuel']; [lia|]. simpl in *.
  case_bool_decide; [|done].
  apply res_bind_stable; [done|]. intros ps _ Hps.
  apply res_bind_stable; [done|]. intros cs _ Hcs.
  f_equal. case_bool_decide; [|done].
  apply foldM_stable.
  - intros acc n _ Hn. rewrite (IH fuel'); [done | lia |].
    intros Hoof. by rewrite Hoof in Hn.
  - intros Hoof. by rewrite Hoof in Hcs.
Qed.

(** A budget of [call_depth steps] calls is enough, whatever the graph. *)
Lemma get_ancestors_fuel_terminates (fuel : nat) (G : DiGraph) (id : Z)
    (steps_removed : option Z) :
  (call_depth (steps_or_default steps_removed) ≤ fuel)%nat →
  get_ancestors_fuel fuel G id steps_removed ≠ OutOfFuel.
Proof.
  revert id steps_removed. induction fuel as [|fuel IH]; intros id steps Hfuel.
  { pose proof (call_depth_pos (steps_or_default steps)). lia. }
  simpl. apply res_bind_not_OutOfFuel; [apply check_steps_removed_not_OutOfFuel|].
  intros k [-> Hk]%check_steps_removed_Ok.
  apply res_bind_not_OutOfFuel; [apply get_parents_not_OutOfFuel|]. intros ps _.
  apply res_bind_not_OutOfFuel; [|done].
  case_bool_decide as Hk1; [|done].
  apply foldM_not_OutOfFuel. intros acc p _.
  apply res_bind_not_OutOfFuel; [|done].
  apply IH. simpl. rewrite call_depth_pred in Hfuel by done. lia.
Qed.

Lemma get_descendants_fuel_terminates (fuel : nat) (G : DiGraph) (id : Z)
    (steps_removed : option Z) :
  (call_depth (steps_or_default steps_removed) ≤ fuel)%nat →
  get_descendants_fuel fuel G id steps_removed ≠ OutOfFuel.
Proof.
  revert id steps_removed. induction fuel as [|fuel IH]; intros id steps Hfuel.
  { pose proof (call_depth_pos (steps_or_default steps)). lia. }
  simpl. apply res_bind_not_OutOfFuel; [apply check_steps_removed_not_OutOfFuel|].
  intros k [-> Hk]%check_steps_removed_Ok.
  apply res_bind_not_OutOfFuel; [apply get_children_not_OutOfFuel|]. intros cs _.
  case_bool_decide as Hk1; [|done].
  apply foldM_not_OutOfFuel. intros acc c _.
  apply res_bind_not_OutOfFuel; [|done].
  apply IH. simpl. rewrite call_depth_pred in Hfuel by done. lia.
Qed.

Lemma get_neighbourhood_fuel_terminates (fuel : nat) (G : DiGraph) (id : Z)
    (steps_removed : Z) :
  (call_depth steps_removed ≤ fuel)%nat →
  get_neighbourhood_fuel fuel G id steps_removed ≠ OutOfFuel.
Proof.
  revert id steps_removed. induction fuel as [|fuel IH]; intros id steps Hfuel.
  { pose proof (call_depth_pos steps). lia. }
  simpl. case_bool_decide as Hk; [|done].
  apply res_bind_not_OutOfFuel; [apply get_parents_not_OutOfFuel|]. intros ps _.
  apply res_bind_not_OutOfFuel; [apply get_children_not_OutOfFuel|]. intros cs _.
  apply res_bind_not_OutOfFuel; [|done].
  case_bool_decide as Hk1; [|done].
  apply foldM_not_OutOfFuel. intros acc n _.
  apply res_bind_not_OutOfFuel; [|done].
  apply IH. rewrite call_depth_pred in Hfuel by done. lia.
Qed.

(** ** Graph invariants *)

Lemma wf_source (G : DiGraph) (u v : Z) (ed : EdgeData) :
  wf_graph G → nx.edge_data G u v = Some ed → is_Some (od_get u (_node G)).
Proof.
  intros Hwf Hed. apply (wf_succ G Hwf). unfold nx.edge_data in Hed.
  destruct (od_get u (_succ G)); [eauto | done].
Qed.

Lemma contains_spec (G : DiGraph) (n : Z) :
  nx.contains G n = true ↔ is_Some (od_get n (_node G)).
Proof. unfold nx.contains. by rewrite bool_decide_eq_true. Qed.

Lemma get_concept_details_total (G : DiGraph) (n : Z) :
  described G → is_Some (od_get n (_node G)) → ∃ c, get_concept_details G n = Ok c.
Proof.
  intros Hdesc [nd Hnd]. unfold get_concept_details, nx.nodes. rewrite Hnd. simpl.
  unfold SnomedConceptDetails_init. destruct (Hdesc _ _ Hnd) as [f ->]. eauto.
Qed.

Lemma get_concept_details_node (G : DiGraph) (n : Z) (c : SnomedConceptDetails) :
  get_concept_details G n = Ok c → is_Some (od_get n (_node G)).
Proof.
  unfold get_concept_details, nx.nodes. destruct (od_get n (_node G)); [eauto | done].
Qed.

Lemma get_out_relationships_total (G : DiGraph) (u : Z) :
  wf_graph G → described G → is_Some (od_get u (_node G)) →
  ∃ rs, get_out_relationships G u = Ok rs.
Proof.
  intros Hwf Hdesc Hu. unfold get_out_relationships.
  destruct (get_concept_details_total G u Hdesc Hu) as [cu ->]. simpl.
  apply (wf_succ G Hwf) in Hu as [d Hd]. unfold nx.out_edges. rewrite Hd. simpl.
  apply res_mapM_total. apply Forall_forall. intros e [v [-> Hv]]%list_elem_of_fmap. simpl.
  apply od_get_keys in Hv as [ed Hed].
  assert (nx.edge_data G u v = Some ed) as Hedge by (unfold nx.edge_data; by rewrite Hd).
  destruct (get_concept_details_total G v Hdesc (wf_target G Hwf _ _ _ Hedge)) as [cv ->].
  simpl. unfold nx.edges. simpl. rewrite Hedge. simpl. eauto.
Qed.

Lemma get_in_relationships_total (G : DiGraph) (v : Z) :
  wf_graph G → described G → is_Some (od_get v (_node G)) →
  ∃ rs, get_in_relationships G v = Ok rs.
Proof.
  intros Hwf Hdesc Hv. unfold get_in_relationships.
  destruct (get_concept_details_total G v Hdesc Hv) as [cv ->]. simpl.
  apply (wf_pred G Hwf) in Hv as [d Hd]. unfold nx.in_edges. rewrite Hd. simpl.
  apply res_mapM_total. apply Forall_forall. intros e [u [-> Hu]]%list_elem_of_fmap. simpl.
  apply od_get_keys in Hu as [ed Hed].
  assert (nx.edge_data G u v = Some ed) as Hedge.
  { apply (wf_adj G Hwf). unfold pred_data. by rewrite Hd. }
  destruct (get_concept_details_total G u Hdesc (wf_source G _ _ _ Hwf Hedge)) as [cu ->].
  simpl. unfold nx.edges. simpl. rewrite Hedge. simpl. eauto.
Qed.

Lemma get_parents_total (G : DiGraph) (u : Z) :
  wf_graph G → described G → is_Some (od_get u (_node G)) →
  ∃ ps, get_parents G u = Ok ps.
Proof.
  intros Hwf Hdesc Hu. unfold get_parents.
  destruct (get_out_relationships_total G u Hwf Hdesc Hu) as [rs ->]. simpl. eauto.
Qed.

Lemma get_children_total (G : DiGraph) (v : Z) :
  wf_graph G → described G → is_Some (od_get v (_node G)) →
  ∃ cs, get_children G v = Ok cs.
Proof.
  intros Hwf Hdesc Hv. unfold get_children.
  destruct (get_in_relationships_total G v Hwf Hdesc Hv) as [rs ->]. simpl. eauto.
Qed.

Lemma foldM_union_total {A : Type} (F : A → res cset) (l : list A) (acc : cset) :
  (∀ x, x ∈ l → ∃ r, F x = Ok r) → ∃ s, foldM (union_loop F) l acc = Ok s.
Proof.
  revert acc. induction l as [|x l IH]; intros acc HF; simpl; [eauto|].
  unfold union_loop at 1. destruct (HF x) as [r ->]; [left|]. simpl.
  apply IH. intros. apply HF. by right.
Qed.

Lemma get_ancestors_fuel_total (fuel : nat) (G : DiGraph) (id : Z)
    (steps_removed : option Z) :
  wf_graph G → described G → is_Some (od_get id (_node G)) →
  valid_steps steps_removed →
  (call_depth (steps_or_default steps_removed) ≤ fuel)%nat →
  ∃ s, get_ancestors_fuel fuel G id steps_removed = Ok s.
Proof.
  intros Hwf Hdesc. revert id steps_removed.
  induction fuel as [|fuel IH]; intros id steps Hid Hvalid Hfuel.
  { pose proof (call_depth_pos (steps_or_default steps)). lia. }
  simpl.
  assert (check_steps_removed steps = Ok (steps_or_default steps)) as ->.
  { apply check_steps_removed_Ok. split; [done|].
    destruct steps; simpl in *; [done | unfold unbounded_steps; lia]. }
  simpl. set (k := steps_or_default steps) in *.
  destruct (get_parents_total G id Hwf Hdesc Hid) as [ps Hps]. rewrite Hps. simpl.
  case_bool_decide as Hk; simpl; [|eauto].
  destruct (foldM_union_total
    (λ p, get_ancestors_fuel fuel G (sctid p) (Some (k - 1))) ps (set_ ps)) as [s Hs].
  { intros p Hp. apply IH.
    - eapply get_concept_details_node, get_parents_sound; done.
    - simpl. lia.
    - simpl. rewrite call_depth_pred in Hfuel by done. lia. }
  unfold union_loop in Hs. rewrite Hs. simpl. eauto.
Qed.

(** ** Building the graph *)

Lemma edge_data_ensure_node (n : Z) (G : DiGraph) (u v : Z) :
  nx.edge_data (nx.ensure_node n G) u v = nx.edge_data G u v.
Proof.
  unfold nx.ensure_node, nx.edge_data.
  destruct (od_get n (_succ G)) eqn:Hn; [done|]. simpl.
  rewrite od_get_set. case_decide; [subst; by rewrite Hn | done].
Qed.

Lemma pred_data_ensure_node (n : Z) (G : DiGraph) (v u : Z) :
  is_Some (od_get n (_pred G)) → is_Some (od_get n (_succ G)) →
  pred_data (nx.ensure_node n G) v u = pred_data G v u.
Proof. unfold nx.ensure_node. by intros _ [? ->]. Qed.

Lemma wf_ensure_node (n : Z) (G : DiGraph) : wf_graph G → wf_graph (nx.ensure_node n G).
Proof.
  intros Hwf. unfold nx.ensure_node.
  destruct (od_get n (_succ G)) as [d|] eqn:Hn; [done|].
  assert (od_get n (_pred G) = None) as Hp.
  { apply eq_None_not_Some. intros ?%(wf_pred G Hwf)%(wf_succ G Hwf).
    rewrite Hn in *. by eapply is_Some_None. }
  split; simpl.
  - intros k. rewrite !od_get_set. case_decide; [split; eauto | apply (wf_succ G Hwf)].
  - intros k. rewrite !od_get_set. case_decide; [split; eauto | apply (wf_pred G Hwf)].
  - intros u v ed. unfold nx.edge_data, pred_data. simpl. rewrite !od_get_set.
    destruct (decide (u = n)) as [->|], (decide (v = n)) as [->|]; simpl.
    + done.
    + split; [done|]. intros H. apply (wf_adj G Hwf) in H.
      unfold nx.edge_data in H. by rewrite Hn in H.
    + split; [|done]. intros H. apply (wf_adj G Hwf) in H.
      unfold pred_data in H. by rewrite Hp in H.
    + apply (wf_adj G Hwf).
  - intros u v ed. unfold nx.edge_data. simpl. rewrite !od_get_set.
    destruct (decide (u = n)) as [->|]; [done|]. intros H.
    case_decide; [eauto|]. by eapply (wf_target G Hwf u v ed).
Qed.

Lemma ensure_node_succ (n : Z) (G : DiGraph) :
  is_Some (od_get n (_succ (nx.ensure_node n G))).
Proof.
  unfold nx.ensure_node. destruct (od_get n (_succ G)) eqn:Hn; simpl.
  - rewrite Hn. eauto.
  - rewrite od_get_set. case_decide; [eauto | done].
Qed.

Lemma ensure_node_mono (n k : Z) (G : DiGraph) :
  is_Some (od_get k (_succ G)) → is_Some (od_get k (_succ (nx.ensure_node n G))).
Proof.
  unfold nx.ensure_node. destruct (od_get n (_succ G)) eqn:Hn; simpl; [done|].
  rewrite od_get_set. case_decide; eauto.
Qed.

(** The edge written last is the one read back. *)
Lemma edge_data_add_edge (u v : Z) (ed : EdgeData) (G : DiGraph) (a b : Z) :
  nx.edge_data (nx.add_edge u v ed G) a b =
  if decide (a = u ∧ b = v) then Some ed else nx.edge_data G a b.
Proof.
  unfold nx.add_edge.
  rewrite <- (edge_data_ensure_node u G a b),
          <- (edge_data_ensure_node v (nx.ensure_node u G) a b).
  set (G1 := nx.ensure_node v (nx.ensure_node u G)).
  unfold nx.edge_data. simpl. rewrite od_get_set.
  destruct (decide (a = u)) as [->|]; [|by rewrite decide_False by tauto].
  rewrite od_get_set.
  destruct (decide (b = v)) as [->|].
  - by rewrite decide_True.
  - rewrite decide_False by tauto. by destruct (od_get u (_succ G1)).
Qed.

Lemma pred_data_add_edge (u v : Z) (ed : EdgeData) (G : DiGraph) (b a : Z) :
  pred_data (nx.add_edge u v ed G) b a =
  if decide (a = u ∧ b = v) then Some ed
  else pred_data (nx.ensure_node v (nx.ensure_node u G)) b a.
Proof.
  unfold nx.add_edge. set (G1 := nx.ensure_node v (nx.ensure_node u G)).
  unfold pred_data. simpl. rewrite od_get_set.
  destruct (decide (b = v)) as [->|]; [|by rewrite decide_False by tauto].
  rewrite od_get_set.
  destruct (decide (a = u)) as [->|].
  - by rewrite decide_True.
  - rewrite decide_False by tauto. by destruct (od_get v (_pred G1)).
Qed.

Lemma wf_add_edge (u v : Z) (ed : EdgeData) (G : DiGraph) :
  wf_graph G → wf_graph (nx.add_edge u v ed G).
Proof.
  intros Hwf.
  pose proof (wf_ensure_node v _ (wf_ensure_node u G Hwf)) as Hwf1.
  assert (is_Some (od_get u (_succ (nx.ensure_node v (nx.ensure_node u G))))) as Hu
    by apply ensure_node_mono, ensure_node_succ.
  assert (is_Some (od_get v (_succ (nx.ensure_node v (nx.ensure_node u G))))) as Hv
    by apply ensure_node_succ.
  split.
  - intros k. rewrite <- (wf_succ _ Hwf1 k). unfold nx.add_edge. simpl.
    rewrite od_get_set. case_decide; [subst; split; eauto | done].
  - intros k. rewrite <- (wf_pred _ Hwf1 k). unfold nx.add_edge. simpl.
    rewrite od_get_set. case_decide; [subst|done].
    split; [intros _ | eauto]. by apply (wf_pred _ Hwf1), (wf_succ _ Hwf1).
  - intros a b ed'. rewrite edge_data_add_edge, pred_data_add_edge.
    case_decide; [done|].
    rewrite <- (wf_adj _ Hwf1), !edge_data_ensure_node. done.
  - intros a b ed'. rewrite edge_data_add_edge.
    change (_node (nx.add_edge u v ed G))
      with (_node (nx.ensure_node v (nx.ensure_node u G))).
    case_decide as Hab.
    + destruct Hab as [-> ->]. intros _. by apply (wf_succ _ Hwf1).
    + rewrite <- (edge_data_ensure_node u G), <- (edge_data_ensure_node v _).
      apply (wf_target _ Hwf1).
Qed.

Lemma wf_add_node (n : Z) (f : string) (syn : list string) (G : DiGraph) :
  wf_graph G → wf_graph (nx.add_node n f syn G).
Proof.
  intros Hwf. pose proof (wf_ensure_node n G Hwf) as Hwf1.
  pose proof (ensure_node_succ n G) as Hn.
  assert (∀ k, is_Some (od_get k (_node (nx.add_node n f syn G)))
             ↔ is_Some (od_get k (_node (nx.ensure_node n G)))) as Hnode.
  { intros k. unfold nx.add_node. simpl. rewrite od_get_set.
    case_decide; [subst|done]. split; [intros _ | eauto]. by apply (wf_succ _ Hwf1). }
  split.
  - intros k. rewrite Hnode. apply (wf_succ _ Hwf1).
  - intros k. rewrite Hnode. apply (wf_pred _ Hwf1).
  - apply (wf_adj _ Hwf1).
  - intros u v ed Hed. apply Hnode. by apply (wf_target _ Hwf1 u v ed).
Qed.

Lemma wf_DiGraph_init : wf_graph nx.DiGraph_init.
Proof.
  split; simpl; done.
Qed.

(** *** Removing isolates *)

Lemma od_keys_nil {V : Type} (d : odict V) : length (od_keys d) = 0%nat → d = [].
Proof. by destruct d. Qed.

Lemma remove_node_isolated (G : DiGraph) (n : Z) :
  nx.degree G n = 0%nat →
  nx.remove_node G n =
  match od_get n (_succ G) with
  | None => G
  | Some _ => {| _node := od_del n (_node G);
                 _succ := od_del n (_succ G);
                 _pred := od_del n (_pred G) |}
  end.
Proof.
  unfold nx.degree, nx.successors, nx.predecessors, nx.remove_node. intros Hdeg.
  destruct (od_get n (_succ G)) as [nbrs|]; [|done].
  assert (nbrs = []) as -> by (apply od_keys_nil; lia). simpl.
  destruct (od_get n (_pred G)) as [ps|]; [|done].
  assert (ps = []) as -> by (apply od_keys_nil; lia). done.
Qed.

Lemma edge_data_isolated (G : DiGraph) (n v : Z) :
  nx.degree G n = 0%nat → nx.edge_data G n v = None.
Proof.
  unfold nx.degree, nx.successors, nx.edge_data. intros Hdeg.
  destruct (od_get n (_succ G)) as [nbrs|]; [|done].
  assert (nbrs = []) as -> by (apply od_keys_nil; lia). done.
Qed.

Lemma pred_data_isolated (G : DiGraph) (n u : Z) :
  nx.degree G n = 0%nat → pred_data G n u = None.
Proof.
  unfold nx.degree, nx.predecessors, pred_data. intros Hdeg.
  destruct (od_get n (_pred G)) as [ps|]; [|done].
  assert (ps = []) as -> by (apply od_keys_nil; lia). done.
Qed.

Lemma edge_data_remove_node (G : DiGraph) (n u v : Z) :
  nx.degree G n = 0%nat →
  nx.edge_data (nx.remove_node G n) u v = nx.edge_data G u v.
Proof.
  intros Hdeg. rewrite remove_node_isolated by done.
  destruct (od_get n (_succ G)) as [nbrs|] eqn:Hn; [|done].
  unfold nx.edge_data at 1. simpl. rewrite od_get_del.
  case_decide; [subst; by rewrite edge_data_isolated | done].
Qed.

Lemma pred_data_remove_node (G : DiGraph) (n v u : Z) :
  nx.degree G n = 0%nat →
  pred_data (nx.remove_node G n) v u = pred_data G v u.
Proof.
  intros Hdeg. rewrite remove_node_isolated by done.
  destruct (od_get n (_succ G)) as [nbrs|] eqn:Hn; [|done].
  unfold pred_data at 1. simpl. rewrite od_get_del.
  case_decide; [subst; by rewrite pred_data_isolated | done].
Qed.

Lemma node_remove_node (G : DiGraph) (n k : Z) :
  wf_graph G → nx.degree G n = 0%nat →
  od_get k (_node (nx.remove_node G n)) =
  if decide (k = n) then None else od_get k (_node G).
Proof.
  intros Hwf Hdeg. rewrite remove_node_isolated by done.
  destruct (od_get n (_succ G)) as [nbrs|] eqn:Hn; simpl; [apply od_get_del|].
  case_decide; [subst|done]. apply eq_None_not_Some.
  intros ?%(wf_succ G Hwf). rewrite Hn in *. by eapply is_Some_None.
Qed.

Lemma degree_remove_node (G : DiGraph) (n k : Z) :
  nx.degree G n = 0%nat → k ≠ n →
  nx.degree (nx.remove_node G n) k = nx.degree G k.
Proof.
  intros Hdeg Hk. rewrite remove_node_isolated by done.
  destruct (od_get n (_succ G)) as [nbrs|] eqn:Hn; [|done].
  unfold nx.degree, nx.successors, nx.predecessors. simpl.
  rewrite !od_get_del, !decide_False by done. done.
Qed.

Lemma degree_pos_pred (G : DiGraph) (v u : Z) (ed : EdgeData) :
  pred_data G v u = Some ed → nx.degree G v ≠ 0%nat.
Proof. intros H Hdeg. by rewrite pred_data_isolated in H. Qed.

Lemma wf_remove_node (G : DiGraph) (n : Z) :
  wf_graph G → nx.degree G n = 0%nat → wf_graph (nx.remove_node G n).
Proof.
  intros Hwf Hdeg. split.
  - intros k. rewrite node_remove_node by done. rewrite remove_node_isolated by done.
    destruct (od_get n (_succ G)) as [nbrs|] eqn:Hn; simpl.
    + rewrite od_get_del. case_decide; [done | apply (wf_succ G Hwf)].
    + case_decide; [subst; rewrite Hn; split; by intros ?%is_Some_None
                   | apply (wf_succ G Hwf)].
  - intros k. rewrite node_remove_node by done. rewrite remove_node_isolated by done.
    destruct (od_get n (_succ G)) as [nbrs|] eqn:Hn; simpl.
    + rewrite od_get_del. case_decide; [done | apply (wf_pred G Hwf)].
    + case_decide; [subst|apply (wf_pred G Hwf)].
      split; [|by intros ?%is_Some_None].
      intros ?%(wf_pred G Hwf)%(wf_succ G Hwf). by rewrite Hn in *.
  - intros u v ed. rewrite edge_data_remove_node, pred_data_remove_node by done.
    apply (wf_adj G Hwf).
  - intros u v ed. rewrite edge_data_remove_node, node_remove_node by done.
    intros Hed. case_decide; [subst|by eapply (wf_target G Hwf)].
    apply (wf_adj G Hwf) in Hed. by rewrite pred_data_isolated in Hed.
Qed.

Lemma remove_isolated_nodes (G : DiGraph) (ns : list Z) :
  wf_graph G → Forall (λ n, nx.degree G n = 0%nat) ns →
  wf_graph (nx.remove_nodes_from G ns) ∧
  (∀ u v, nx.edge_data (nx.remove_nodes_from G ns) u v = nx.edge_data G u v) ∧
  (∀ k, od_get k (_node (nx.remove_nodes_from G ns)) =
        if decide (k ∈ ns) then None else od_get k (_node G)) ∧
  (∀ k, nx.degree (nx.remove_nodes_from G ns) k = nx.degree G k).
Proof.
  unfold nx.remove_nodes_from. revert G.
  induction ns as [|n ns IH]; intros G Hwf Hiso; cbn [foldl].
  { split; [done|]. split; [done|]. split; [|done]. intros k. case_decide as Hk; [|done].
    by apply elem_of_nil in Hk. }
  apply Forall_cons in Hiso as [Hn Hns].
  assert (∀ k, nx.degree (nx.remove_node G n) k = nx.degree G k) as Hdeg1.
  { intros k. destruct (decide (k = n)) as [->|Hkn]; [|by apply degree_remove_node].
    rewrite remove_node_isolated by done.
    destruct (od_get n (_succ G)) as [nbrs|] eqn:Hsn; [|done].
    unfold nx.degree at 1. unfold nx.successors, nx.predecessors. simpl.
    by rewrite !od_get_del, !decide_True. }
  destruct (IH (nx.remove_node G n)) as (Hwf' & Hedge & Hnode & Hdeg).
  - by apply wf_remove_node.
  - apply Forall_forall. intros k Hk. rewrite Forall_forall in Hns.
    rewrite Hdeg1. auto.
  - split; [done|]. split; [|split].
    + intros u v. by rewrite Hedge, edge_data_remove_node.
    + intros k. rewrite Hnode, node_remove_node by done.
      destruct (decide (k ∈ n :: ns)) as [Hin|Hnin],
               (decide (k ∈ ns)) as [Hin'|Hnin']; try done.
      * apply elem_of_cons in Hin as [->|?]; [|done]. by rewrite decide_True.
      * exfalso. apply Hnin. by right.
      * rewrite decide_False; [done|]. intros ->. apply Hnin. left.
    + intros k. by rewrite Hdeg, Hdeg1.
Qed.

Lemma isolates_isolated (G : DiGraph) :
  Forall (λ n, nx.degree G n = 0%nat) (nx.isolates G).
Proof. apply Forall_forall. by intros n [? _]%list_elem_of_filter. Qed.

(** *** One edge per ordered pair *)

Lemma od_keys_set {V : Type} (k : Z) (v : V) (d : odict V) :
  od_keys (od_set k v d) = if decide (k ∈ od_keys d) then od_keys d else od_keys d ++ [k].
Proof.
  unfold od_keys. induction d as [|[k' v'] d IH].
  - destruct (decide (k ∈ ([] : odict V).*1)) as [Hin|_]; [|done].
    by apply elem_of_nil in Hin.
  - destruct (decide (k ∈ ((k', v') :: d).*1)) as [Hin|Hnin];
      cbn [od_set]; destruct (decide (k = k')) as [->|Hne]; cbn [fmap list_fmap fst].
    + done.
    + rewrite IH, decide_True; [done|].
      by apply elem_of_cons in Hin as [?|?].
    + exfalso. apply Hnin. left.
    + rewrite IH, decide_False; [done|]. intros ?. apply Hnin. by right.
Qed.

Lemma od_keys_del {V : Type} (k : Z) (d : odict V) :
  od_keys (od_del k d) = filter (λ k', k' ≠ k) (od_keys d).
Proof.
  unfold od_keys. induction d as [|[k' v'] d IH]; [done|].
  cbn [od_del fmap list_fmap fst]. destruct (decide (k = k')) as [->|Hne].
  - rewrite filter_cons_False by tauto. done.
  - rewrite filter_cons_True by congruence. cbn [fmap list_fmap fst]. by f_equal.
Qed.

Lemma NoDup_od_set {V : Type} (k : Z) (v : V) (d : odict V) :
  NoDup (od_keys d) → NoDup (od_keys (od_set k v d)).
Proof.
  intros Hd. rewrite od_keys_set. case_decide; [done|].
  apply NoDup_app. split; [done|]. split; [|apply NoDup_singleton].
  intros x Hx ->%list_elem_of_singleton. done.
Qed.

Lemma NoDup_od_del {V : Type} (k : Z) (d : odict V) :
  NoDup (od_keys d) → NoDup (od_keys (od_del k d)).
Proof. intros Hd. rewrite od_keys_del. by apply NoDup_filter. Qed.

Lemma Forall_od_set {V : Type} (P : Z * V → Prop) (k : Z) (v : V) (d : odict V) :
  Forall P d → P (k, v) → Forall P (od_set k v d).
Proof.
  intros Hd Hkv. induction Hd as [|[k' v'] d Hx Hd IH]; simpl.
  - by repeat constructor.
  - case_decide; by constructor.
Qed.

Lemma Forall_od_del {V : Type} (P : Z * V → Prop) (k : Z) (d : odict V) :
  Forall P d → Forall P (od_del k d).
Proof.
  induction 1 as [|[k' v'] d Hx Hd IH]; simpl; [constructor|].
  case_decide; [done | by constructor].
Qed.

Lemma unique_keys_init : unique_keys nx.DiGraph_init.
Proof. split; simpl; constructor. Qed.

Lemma unique_keys_ensure_node (n : Z) (G : DiGraph) :
  unique_keys G → unique_keys (nx.ensure_node n G).
Proof.
  intros [Hn Hs Hi]. unfold nx.ensure_node. destruct (od_get n (_succ G)); [done|].
  split; simpl; [by apply NoDup_od_set | by apply NoDup_od_set |].
  apply Forall_od_set; [done|]. simpl. constructor.
Qed.

Lemma unique_keys_add_edge (u v : Z) (ed : EdgeData) (G : DiGraph) :
  unique_keys G → unique_keys (nx.add_edge u v ed G).
Proof.
  intros HG.
  destruct (unique_keys_ensure_node v _ (unique_keys_ensure_node u G HG)) as [Hn Hs Hi].
  unfold nx.add_edge. split; simpl; [done | by apply NoDup_od_set |].
  apply Forall_od_set; [done|]. simpl. apply NoDup_od_set.
  destruct (od_get u _) as [d|] eqn:Hd; simpl; [|constructor].
  apply od_get_elem_of in Hd. rewrite Forall_forall in Hi. by apply (Hi (u, d)).
Qed.

Lemma unique_keys_add_node (n : Z) (f : string) (syn : list string) (G : DiGraph) :
  unique_keys G → unique_keys (nx.add_node n f syn G).
Proof.
  intros HG. destruct (unique_keys_ensure_node n G HG) as [Hn Hs Hi].
  unfold nx.add_node. split; simpl; [by apply NoDup_od_set | done | done].
Qed.

Lemma unique_keys_remove_node (G : DiGraph) (n : Z) :
  nx.degree G n = 0%nat → unique_keys G → unique_keys (nx.remove_node G n).
Proof.
  intros Hdeg [Hn Hs Hi]. rewrite remove_node_isolated by done.
  destruct (od_get n (_succ G)); [|done].
  split; simpl; [by apply NoDup_od_del | by apply NoDup_od_del | by apply Forall_od_del].
Qed.

Lemma od_get_elem_of_NoDup {V : Type} (k : Z) (v : V) (d : odict V) :
  NoDup (od_keys d) → (k, v) ∈ d → od_get k d = Some v.
Proof.
  unfold od_keys. induction d as [|[k' v'] d IH]; simpl; [by intros _ ?%elem_of_nil|].
  intros [Hk' Hd]%NoDup_cons [[= -> ->]|Hin]%elem_of_cons.
  - by rewrite decide_True.
  - rewrite decide_False; [by apply IH|]. intros ->. apply Hk'.
    apply list_elem_of_fmap. by exists (k', v).
Qed.

Lemma elem_of_edge_list (G : DiGraph) (u v : Z) (ed : EdgeData) :
  unique_keys G → (u, v, ed) ∈ edge_list G ↔ nx.edge_data G u v = Some ed.
Proof.
  intros [_ Hs Hi]. unfold edge_list, nx.edge_data. rewrite list_elem_of_join. split.
  - intros (l & Hl & [[u' d] [-> Hud]]%list_elem_of_fmap). simpl in *.
    apply list_elem_of_fmap in Hl as [[v' ed'] [[= -> -> ->] Hve]].
    rewrite (od_get_elem_of_NoDup _ _ _ Hs Hud). apply od_get_elem_of_NoDup; [|done].
    rewrite Forall_forall in Hi. by apply (Hi (u', d)).
  - destruct (od_get u (_succ G)) as [d|] eqn:Hd; [|done]. intros Hv.
    exists ((λ ve : Z * EdgeData, (u, ve.1, ve.2)) <$> d). split.
    + apply list_elem_of_fmap. exists (v, ed). split; [done | by apply od_get_elem_of].
    + apply list_elem_of_fmap. exists (u, d). split; [done | by apply od_get_elem_of].
Qed.

Lemma NoDup_edge_pairs (G : DiGraph) : unique_keys G → NoDup (edge_pairs G).
Proof.
  intros [_ Hs Hi]. unfold edge_pairs, edge_list, od_keys in *.
  induction (_succ G) as [|[u d] l IH]; simpl; [constructor|].
  apply NoDup_cons in Hs as [Hu Hs]. apply Forall_cons in Hi as [Hd Hi]. simpl in *.
  rewrite fmap_app. apply NoDup_app. split; [|split; [|by apply IH]].
  - rewrite <- list_fmap_compose. apply NoDup_fmap_2_strong; [|by apply NoDup_fmap_1 in Hd].
    intros [v1 e1] [v2 e2] H1 H2 [= Hv]. simpl in *. subst v2. f_equal.
    apply od_get_elem_of_NoDup in H1, H2; try done. congruence.
  - intros [a b]. rewrite <- list_fmap_compose.
    intros [[v e] [[= -> ->] _]]%list_elem_of_fmap
           [[[a' b'] e'] [[= <- <-] Hin]]%list_elem_of_fmap.
    apply list_elem_of_join in Hin as (l' & Hl' & [[u' d'] [-> Hud]]%list_elem_of_fmap).
    apply list_elem_of_fmap in Hl' as [[v' e''] [[= -> _ _] _]]. simpl in *.
    apply Hu. apply list_elem_of_fmap. by exists (u', d').
Qed.

(** *** The relationship loop *)

Lemma last_cons_match {A : Type} (x : A) (l : list A) :
  last (x :: l) = match last l with Some y => Some y | None => Some x end.
Proof.
  destruct l as [|y l]; [done|]. rewrite last_cons_cons.
  destruct (last (y :: l)) eqn:E; [done|]. by apply last_None in E.
Qed.

Lemma last_app_match {A : Type} (l1 l2 : list A) :
  last (l1 ++ l2) = match last l2 with Some y => Some y | None => last l1 end.
Proof.
  induction l1 as [|x l1 IH]; simpl.
  - by destruct (last l2).
  - rewrite !last_cons_match, IH. by destruct (last l2), (last l1).
Qed.

Lemma create_relationships_spec (types : gmap Z string) (rels : list Rel.row)
    (G G' : DiGraph) :
  create_relationships types rels G = Ok G' →
  (wf_graph G → wf_graph G') ∧ (unique_keys G → unique_keys G') ∧
  ∀ s t, nx.edge_data G' s t =
         match last (rows_between rels s t) with
         | Some r => edge_of_row types r
         | None => nx.edge_data G s t
         end.
Proof.
  unfold create_relationships. revert G.
  induction rels as [|r rels IH]; intros G H; simpl in H.
  { injection H as <-. done. }
  apply res_bind_Ok in H as (G1 & HG1 & H).
  destruct (types !! Rel.typeId r) as [name|] eqn:Hname; [|done]. injection HG1 as <-.
  apply IH in H as (Hwf & Huk & Hedge). split; [|split].
  - intros ?. by apply Hwf, wf_add_edge.
  - intros ?. by apply Huk, unique_keys_add_edge.
  - intros s t. rewrite Hedge, edge_data_add_edge. unfold rows_between.
    destruct (decide (Rel.sourceId r = s ∧ Rel.destinationId r = t)) as [Hst|Hst].
    + rewrite filter_cons_True by done. rewrite last_cons_match.
      destruct (last (filter _ rels)); [done|].
      rewrite decide_True by (by destruct Hst). unfold edge_of_row. by rewrite Hname.
    + rewrite filter_cons_False by done.
      destruct (last (filter _ rels)); [done|].
      rewrite decide_False; [done|]. intros [-> ->]. by apply Hst.
Qed.

Lemma create_relationships_total (types : gmap Z string) (rels : list Rel.row)
    (G : DiGraph) :
  Forall (λ r, is_Some (types !! Rel.typeId r)) rels →
  ∃ G', create_relationships types rels G = Ok G'.
Proof.
  unfold create_relationships. intros Hrels. revert G.
  induction Hrels as [|r rels [name Hr] _ IH]; intros G; simpl; [eauto|].
  rewrite Hr. simpl. apply IH.
Qed.

(** *** The concept loop *)

Lemma resolve_names_nonempty (rows : list Desc.row) :
  rows ≠ [] → is_Some (resolve_names rows).
Proof.
  unfold resolve_names, fsn_terms, synonym_terms. destruct rows as [|d rows]; [done|]. intros _.
  destruct (decide (Desc.typeId d = fsn_typeId)) as [Hd|Hd].
  - rewrite filter_cons_True by done. simpl. eauto.
  - rewrite (filter_cons_True (λ d, Desc.typeId d ≠ fsn_typeId)) by done. simpl.
    destruct (Desc.term <$> filter _ (d :: rows)); eauto.
Qed.

Lemma add_concept_eq (st : DiGraph * list NoFsnWarning) (g : Z * list Desc.row) :
  add_concept st g =
  match resolve_names g.2 with
  | Some (f, syn, _) =>
      Ok (nx.add_node g.1 f syn st.1, st.2 ++ option_list (warning_of g))
  | None => Raise IndexError
  end.
Proof.
  destruct g as [c rows]. unfold add_concept, warning_of, resolve_names. simpl.
  fold (fsn_terms rows). fold (synonym_terms rows).
  destruct (fsn_terms rows); [|by rewrite app_nil_r].
  by destruct (synonym_terms rows).
Qed.

Lemma node_ensure_node (n k : Z) (G : DiGraph) :
  k ≠ n → od_get k (_node (nx.ensure_node n G)) = od_get k (_node G).
Proof.
  intros Hk. unfold nx.ensure_node. destruct (od_get n (_succ G)); [done|]. simpl.
  by rewrite od_get_set, decide_False.
Qed.

Lemma node_add_node (n : Z) (f : string) (syn : list string) (G : DiGraph) (k : Z) :
  od_get k (_node (nx.add_node n f syn G)) =
  if decide (k = n) then Some {| nd_fsn := Some f; nd_synonyms := Some syn |}
  else od_get k (_node G).
Proof.
  unfold nx.add_node. simpl. rewrite od_get_set. case_decide; [done|].
  by apply node_ensure_node.
Qed.

Lemma edge_data_add_node (n : Z) (f : string) (syn : list string) (G : DiGraph) (u v : Z) :
  nx.edge_data (nx.add_node n f syn G) u v = nx.edge_data G u v.
Proof. apply (edge_data_ensure_node n G u v). Qed.

Lemma degree_add_node (n : Z) (f : string) (syn : list string) (G : DiGraph) (k : Z) :
  wf_graph G → nx.degree (nx.add_node n f syn G) k = nx.degree G k.
Proof.
  intros Hwf. unfold nx.degree, nx.successors, nx.predecessors, nx.add_node, nx.ensure_node.
  destruct (od_get n (_succ G)) eqn:Hn; [done|]. simpl.
  assert (od_get n (_pred G) = None) as Hp.
  { apply eq_None_not_Some. intros ?%(wf_pred G Hwf)%(wf_succ G Hwf).
    rewrite Hn in *. by eapply is_Some_None. }
  rewrite !od_get_set. case_decide; [subst; by rewrite Hn, Hp | done].
Qed.

Lemma add_concepts_loop (groups : list (Z * list Desc.row))
    (st : DiGraph * list NoFsnWarning) :
  Forall (λ g, g.2 ≠ []) groups →
  ∃ st', foldM add_concept groups st = Ok st' ∧
    (wf_graph st.1 → wf_graph st'.1) ∧
    (unique_keys st.1 → unique_keys st'.1) ∧
    (∀ u v, nx.edge_data st'.1 u v = nx.edge_data st.1 u v) ∧
    (wf_graph st.1 → ∀ k, nx.degree st'.1 k = nx.degree st.1 k) ∧
    (∀ k, od_get k (_node st'.1) =
          match group_rows k groups with
          | Some rows => node_of rows
          | None => od_get k (_node st.1)
          end) ∧
    st'.2 = st.2 ++ omap warning_of groups.
Proof.
  intros Hgroups. revert st.
  induction Hgroups as [|g groups Hg _ IH]; intros st; simpl.
  { exists st. split; [done|]. do 5 (split; [done|]). by rewrite app_nil_r. }
  rewrite add_concept_eq. unfold group_rows, node_of.
  destruct (resolve_names_nonempty _ Hg) as [[[f syn] w] Hres]. rewrite Hres. simpl.
  destruct (IH (nx.add_node g.1 f syn st.1, st.2 ++ option_list (warning_of g)))
    as (st' & -> & Hwf & Huk & Hedge & Hdeg & Hnode & Hlog). cbn [fst snd] in *.
  exists st'. split; [done|]. split; [|split; [|split; [|split; [|split]]]].
  - intros ?. by apply Hwf, wf_add_node.
  - intros ?. by apply Huk, unique_keys_add_node.
  - intros u v. by rewrite Hedge, edge_data_add_node.
  - intros Hwf0 k. rewrite Hdeg by by apply wf_add_node. by apply degree_add_node.
  - intros k. rewrite Hnode, node_add_node. unfold group_rows, node_of.
    destruct (decide (g.1 = k)) as [Hk|Hk].
    + rewrite filter_cons_True by done. rewrite last_cons_match.
      destruct (last (filter _ groups)); simpl; [done|].
      by rewrite decide_True, Hres.
    + rewrite filter_cons_False by done.
      destruct (last (filter _ groups)); simpl; [done|].
      by rewrite decide_False.
  - rewrite Hlog, <- app_assoc. f_equal. by destruct (warning_of g).
Qed.

(** *** Sorting and grouping *)

Lemma insert_by_Permutation {A : Type} (key : A → Z) (x : A) (l : list A) :
  insert_by key x l ≡ₚ x :: l.
Proof.
  induction l as [|y l IH]; simpl; [done|].
  case_bool_decide; [done|]. rewrite IH. apply Permutation_swap.
Qed.

Lemma sorted_Permutation {A : Type} (l : list A) (key : A → Z) : sorted l key ≡ₚ l.
Proof.
  unfold sorted. induction l as [|x l IH]; simpl; [done|].
  by rewrite insert_by_Permutation, IH.
Qed.

Lemma elem_of_sorted {A : Type} (l : list A) (key : A → Z) (x : A) :
  x ∈ sorted l key ↔ x ∈ l.
Proof. by rewrite sorted_Permutation. Qed.

Lemma elem_of_unique_from (seen l : list Z) (x : Z) :
  x ∈ pd.unique_from seen l ↔ x ∈ l ∧ x ∉ seen.
Proof.
  revert seen. induction l as [|y l IH]; intros seen; simpl.
  - split; [by intros ?%elem_of_nil | by intros [?%elem_of_nil _]].
  - case_decide as Hy.
    + rewrite IH, elem_of_cons. split; [intros [? ?]; auto|].
      intros [[->|?] ?]; [done | auto].
    + rewrite !elem_of_cons, IH, elem_of_cons. split.
      * intros [->|[? ?]]; [auto|]. split; [by right | tauto].
      * intros [[->|?] ?]; [by left|]. destruct (decide (x = y)); [by left|].
        right. split; [done|]. tauto.
Qed.

Lemma elem_of_unique (l : list Z) (x : Z) : x ∈ pd.unique l ↔ x ∈ l.
Proof.
  unfold pd.unique. rewrite elem_of_unique_from. split; [by intros [? _]|].
  intros ?. split; [done | apply not_elem_of_nil].
Qed.

Lemma rows_of_nonempty (concepts : list Desc.row) (k : Z) :
  pd.rows_of concepts k ≠ [] ↔ k ∈ Desc.conceptId <$> concepts.
Proof.
  unfold pd.rows_of. rewrite list_elem_of_fmap. split.
  - intros H. destruct (filter _ concepts) as [|d l] eqn:E; [done|].
    assert (d ∈ filter (λ d, Desc.conceptId d = k) concepts) as [? ?]%list_elem_of_filter
      by (rewrite E; left).
    by exists d.
  - intros (d & -> & Hd) E.
    assert (d ∈ filter (λ d', Desc.conceptId d' = Desc.conceptId d) concepts) as Hin
      by (by apply list_elem_of_filter).
    rewrite E in Hin. by apply elem_of_nil in Hin.
Qed.

Lemma group_rows_fmap (f : Z → list Desc.row) (ks : list Z) (k : Z) :
  group_rows k ((λ k, (k, f k)) <$> ks) = if decide (k ∈ ks) then Some (f k) else None.
Proof.
  unfold group_rows. induction ks as [|k' ks IH].
  - destruct (decide (k ∈ [])) as [Hin|_]; [by apply elem_of_nil in Hin | done].
  - rewrite fmap_cons. destruct (decide (k' = k)) as [->|Hne].
    + rewrite filter_cons_True by done. rewrite last_cons_match.
      rewrite (decide_True (P := k ∈ k :: ks)) by left.
      destruct (last (filter _ _)) as [g|] eqn:E; [|done].
      destruct (decide (k ∈ ks)); simpl in *; congruence.
    + rewrite filter_cons_False by done.
      destruct (decide (k ∈ ks)) as [Hin|Hnin].
      * rewrite (decide_True (P := k ∈ k' :: ks)) by by right. done.
      * rewrite (decide_False (P := k ∈ k' :: ks)); [done|].
        by intros [?|?]%elem_of_cons.
Qed.

Lemma group_rows_groupby_index (concepts : list Desc.row) (k : Z) :
  group_rows k (pd.groupby_index concepts) =
  match pd.rows_of concepts k with
  | [] => None
  | rows => Some rows
  end.
Proof.
  unfold pd.groupby_index. rewrite group_rows_fmap.
  pose proof (rows_of_nonempty concepts k) as Hk.
  case_decide as Hin.
  - apply elem_of_sorted, elem_of_unique, Hk in Hin. by destruct (pd.rows_of concepts k).
  - destruct (pd.rows_of concepts k) as [|d rows]; [done|]. exfalso. apply Hin.
    apply elem_of_sorted, elem_of_unique, Hk. done.
Qed.

Lemma groupby_index_nonempty (concepts : list Desc.row) :
  Forall (λ g, g.2 ≠ []) (pd.groupby_index concepts).
Proof.
  unfold pd.groupby_index. apply Forall_forall.
  intros g [k [-> Hk]]%list_elem_of_fmap. simpl.
  apply rows_of_nonempty. by rewrite elem_of_sorted, elem_of_unique in Hk.
Qed.

(** *** The relationship type lookup *)

Lemma to_dict_lookup (rows : list Desc.row) (t : Z) :
  pd.to_dict rows !! t = Desc.term <$> last (filter (λ d, Desc.conceptId d = t) rows).
Proof.
  unfold pd.to_dict.
  enough (∀ m : gmap Z string,
    foldl (λ m d, <[Desc.conceptId d := Desc.term d]> m) m rows !! t =
    match last (filter (λ d, Desc.conceptId d = t) rows) with
    | Some d => Some (Desc.term d)
    | None => m !! t
    end) as H.
  { rewrite H. by destruct (last _). }
  induction rows as [|d rows IH]; intros m; simpl; [done|]. rewrite IH.
  destruct (decide (Desc.conceptId d = t)) as [Hd|Hd].
  - rewrite filter_cons_True by done. rewrite last_cons_match.
    destruct (last (filter _ rows)); [done|]. by rewrite Hd, lookup_insert_eq.
  - rewrite filter_cons_False by done.
    destruct (last (filter _ rows)); [done|]. by rewrite lookup_insert_ne.
Qed.

Lemma loc_Ok (concepts : list Desc.row) (labels : list Z) (rows : list Desc.row) :
  pd.loc concepts labels = Ok rows ↔
  Forall (λ k, pd.rows_of concepts k ≠ []) labels ∧
  rows = mjoin (pd.rows_of concepts <$> labels).
Proof.
  unfold pd.loc. rewrite res_bind_Ok. split.
  - intros (groups & Hgroups & [= <-]). apply res_mapM_Ok in Hgroups.
    induction Hgroups as [|k g labels groups Hk _ [IH1 IH2]]; [done|].
    destruct (pd.rows_of concepts k) as [|d l] eqn:E; [done|]. injection Hk as <-.
    split; [constructor; [by rewrite E | done]|]. simpl. by rewrite E, IH2.
  - intros [Hlabels ->]. exists (pd.rows_of concepts <$> labels). split; [|done].
    apply res_mapM_Ok. induction Hlabels as [|k labels Hk _ IH]; [constructor|].
    simpl. constructor; [|done]. by destruct (pd.rows_of concepts k).
Qed.

Lemma res_mapM_cases {A B : Type} (f : A → res B) (l : list A) (e : exn) :
  (∀ x, (∃ y, f x = Ok y) ∨ f x = Raise e) →
  (∃ l', res_mapM f l = Ok l') ∨ res_mapM f l = Raise e.
Proof.
  intros Hf. induction l as [|x l IH]; simpl; [left; eauto|].
  destruct (Hf x) as [[y ->]| ->]; simpl; [|by right].
  destruct IH as [[l' ->]| ->]; simpl; [left; eauto | by right].
Qed.

Lemma loc_raises (concepts : list Desc.row) (labels : list Z) :
  ¬ Forall (λ k, pd.rows_of concepts k ≠ []) labels →
  pd.loc concepts labels = Raise KeyError.
Proof.
  intros H. destruct (pd.loc concepts labels) as [rows|e|] eqn:Hloc.
  - by apply loc_Ok in Hloc as [? _].
  - unfold pd.loc in Hloc.
    edestruct (res_mapM_cases
      (λ k, match pd.rows_of concepts k with
            | [] => Raise KeyError
            | rows => Ok rows
            end) labels KeyError) as [[l' Hl']|Hl'].
    + intros k. destruct (pd.rows_of concepts k); eauto.
    + by rewrite Hl' in Hloc.
    + rewrite Hl' in Hloc. simpl in Hloc. congruence.
  - unfold pd.loc in Hloc. exfalso. revert Hloc.
    apply res_bind_not_OutOfFuel; [|done].
    apply res_mapM_not_OutOfFuel. intros k. by destruct (pd.rows_of _ _).
Qed.

Lemma filter_rows_of (concepts : list Desc.row) (k t : Z) :
  filter (λ d, Desc.conceptId d = t) (pd.rows_of concepts k) =
  if decide (k = t) then pd.rows_of concepts k else [].
Proof.
  unfold pd.rows_of. induction concepts as [|d l IH]; [by case_decide|].
  destruct (decide (Desc.conceptId d = k)) as [Hd|Hd].
  - rewrite (filter_cons_True (λ d, Desc.conceptId d = k)) by done.
    destruct (decide (k = t)) as [->|Hkt].
    + rewrite filter_cons_True by done. by rewrite IH.
    + rewrite filter_cons_False by congruence. by rewrite IH.
  - rewrite (filter_cons_False (λ d, Desc.conceptId d = k)) by done. done.
Qed.

Lemma filter_comm {A : Type} (P Q : A → Prop) `{!∀ x, Decision (P x)} `{!∀ x, Decision (Q x)}
    (l : list A) :
  filter P (filter Q l) = filter Q (filter P l).
Proof.
  induction l as [|x l IH]; [done|].
  destruct (decide (P x)), (decide (Q x));
    repeat (rewrite ?filter_cons_True, ?filter_cons_False by done); by rewrite ?IH.
Qed.

Lemma create_relationship_types_lookup (rels : list Rel.row) (concepts : list Desc.row)
    (types : gmap Z string) (t : Z) :
  create_relationship_types rels concepts = Ok types →
  t ∈ Rel.typeId <$> rels →
  types !! t = type_name concepts t.
Proof.
  unfold create_relationship_types. intros H Ht.
  apply res_bind_Ok in H as (rows & [_ ->]%loc_Ok & [= <-]).
  rewrite to_dict_lookup. unfold type_name. f_equal.
  apply elem_of_unique in Ht. revert Ht.
  induction (pd.unique (Rel.typeId <$> rels)) as [|k labels IH]; [by intros ?%elem_of_nil|].
  intros Ht. rewrite fmap_cons.
  replace (mjoin (pd.rows_of concepts k :: (pd.rows_of concepts <$> labels)))
    with (pd.rows_of concepts k ++ mjoin (pd.rows_of concepts <$> labels)) by done.
  rewrite !filter_app, last_app_match.
  rewrite (filter_comm _ _ (pd.rows_of concepts k)), filter_rows_of.
  destruct (decide (t ∈ labels)) as [Hin|Hnin].
  - rewrite IH by done.
    destruct (last (filter _ (pd.rows_of concepts t))) eqn:E; [done|].
    case_decide; [by subst | done].
  - apply elem_of_cons in Ht as [->|?]; [|done]. rewrite decide_True by done.
    destruct (last (filter _ (filter _ (mjoin _)))) as [d|] eqn:E; [|done].
    apply last_Some_elem_of in E.
    apply list_elem_of_filter in E as [Hd [_ E]%list_elem_of_filter].
    apply list_elem_of_join in E as (l & Hdl & [k' [-> Hk']]%list_elem_of_fmap).
    apply list_elem_of_filter in Hdl as [Hdk _]. congruence.
Qed.

Lemma create_relationship_types_Ok (rels : list Rel.row) (concepts : list Desc.row) :
  Forall (λ r, pd.rows_of concepts (Rel.typeId r) ≠ []) rels ↔
  ∃ types, create_relationship_types rels concepts = Ok types.
Proof.
  unfold create_relationship_types. split.
  - intros H.
    assert (Forall (λ k, pd.rows_of concepts k ≠ []) (pd.unique (Rel.typeId <$> rels))) as Hl.
    { apply Forall_forall. intros k Hk. rewrite elem_of_unique in Hk.
      apply list_elem_of_fmap in Hk as (r & -> & Hr). rewrite Forall_forall in H. auto. }
    eexists. apply res_bind_Ok. eexists. split; [apply loc_Ok; split; [done|done]|done].
  - intros [types H]. apply res_bind_Ok in H as (rows & [Hl _]%loc_Ok & _).
    apply Forall_forall. intros r Hr. rewrite Forall_forall in Hl. apply Hl.
    rewrite elem_of_unique. apply list_elem_of_fmap. eauto.
Qed.

(** *** The whole of [from_rf2] *)

Lemma create_relationships_nodes (types : gmap Z string) (rels : list Rel.row)
    (G G' : DiGraph) :
  create_relationships types rels G = Ok G' →
  (∀ k nd, od_get k (_node G) = Some nd → nd = empty_node) →
  ∀ k nd, od_get k (_node G') = Some nd → nd = empty_node.
Proof.
  unfold create_relationships. revert G.
  induction rels as [|r rels IH]; intros G H HG; simpl in H.
  { by injection H as <-. }
  apply res_bind_Ok in H as (G1 & HG1 & H).
  destruct (types !! Rel.typeId r) as [name|]; [|done]. injection HG1 as <-.
  apply (IH _ H). intros k nd.
  change (_node (nx.add_edge ?u ?v ?ed G)) with (_node (nx.ensure_node v (nx.ensure_node u G))).
  assert (∀ n G0, (∀ k nd, od_get k (_node G0) = Some nd → nd = empty_node) →
                  ∀ k nd, od_get k (_node (nx.ensure_node n G0)) = Some nd → nd = empty_node)
    as Hens.
  { intros n G0 HG0 k' nd'. unfold nx.ensure_node.
    destruct (od_get n (_succ G0)); [apply HG0|]. simpl. rewrite od_get_set.
    case_decide; [by intros [= <-] | apply HG0]. }
  by apply Hens, Hens.
Qed.

Lemma degree_remove_isolated (G : DiGraph) (n k : Z) :
  nx.degree G n = 0%nat → nx.degree (nx.remove_node G n) k = nx.degree G k.
Proof.
  intros Hn. destruct (decide (k = n)) as [->|Hkn]; [|by apply degree_remove_node].
  rewrite remove_node_isolated by done.
  destruct (od_get n (_succ G)) as [nbrs|] eqn:Hsn; [|done].
  unfold nx.degree at 1. unfold nx.successors, nx.predecessors. simpl.
  by rewrite !od_get_del, !decide_True.
Qed.

Lemma unique_keys_remove_isolated (G : DiGraph) (ns : list Z) :
  Forall (λ n, nx.degree G n = 0%nat) ns → unique_keys G →
  unique_keys (nx.remove_nodes_from G ns).
Proof.
  unfold nx.remove_nodes_from. revert G.
  induction ns as [|n ns IH]; intros G Hns HG; [done|]. cbn [foldl].
  apply Forall_cons in Hns as [Hn Hns]. apply IH.
  - eapply Forall_impl; [exact Hns|]. simpl. intros k Hk.
    by rewrite degree_remove_isolated.
  - by apply unique_keys_remove_node.
Qed.

Lemma from_rf2_Ok (relationships_df : list Rel.row) (concepts_df : list Desc.row) :
  let rels := active_relationships relationships_df in
  let concepts := active_descriptions concepts_df in
  Forall (λ r, is_Some (type_name concepts (Rel.typeId r))) rels →
  ∃ G log, from_rf2 relationships_df concepts_df = Ok (G, log) ∧
    wf_graph G ∧ unique_keys G ∧
    (∀ s t, nx.edge_data G s t =
            match last (rows_between rels s t) with
            | Some r => row_edge concepts r
            | None => None
            end) ∧
    (∀ k, od_get k (_node G) =
          if decide (nx.degree G k = 0%nat) then None else concept_node concepts k) ∧
    log = omap warning_of (pd.groupby_index concepts).
Proof.
  intros rels concepts Hrels. unfold from_rf2. fold rels. fold concepts.
  destruct (proj1 (create_relationship_types_Ok rels concepts)) as [types Htypes].
  { eapply Forall_impl; [exact Hrels|]. simpl. intros r [name Hr] E.
    unfold type_name in Hr. rewrite E in Hr. done. }
  rewrite Htypes. simpl.
  assert (∀ r, r ∈ rels → types !! Rel.typeId r = type_name concepts (Rel.typeId r)) as Hty.
  { intros r Hr. apply (create_relationship_types_lookup rels); [done|].
    apply list_elem_of_fmap. eauto. }
  destruct (create_relationships_total types rels nx.DiGraph_init) as [G1 HG1].
  { rewrite Forall_forall in Hrels. apply Forall_forall. intros r Hr. rewrite Hty by done. auto. }
  rewrite HG1. simpl.
  assert (∀ k nd, od_get k (_node G1) = Some nd → nd = empty_node) as Hempty
    by (by apply (create_relationships_nodes _ _ _ _ HG1)).
  apply create_relationships_spec in HG1 as (Hwf1 & Huk1 & Hedge1).
  specialize (Hwf1 wf_DiGraph_init). specialize (Huk1 unique_keys_init).
  destruct (add_concepts_loop (pd.groupby_index concepts) (G1, [])
              (groupby_index_nonempty concepts))
    as ([G2 log] & HG2 & Hwf2 & Huk2 & Hedge2 & Hdeg2 & Hnode2 & Hlog). cbn [fst snd] in *.
  unfold add_concepts. rewrite HG2. simpl.
  specialize (Hwf2 Hwf1). specialize (Huk2 Huk1). specialize (Hdeg2 Hwf1).
  destruct (remove_isolated_nodes G2 (nx.isolates G2) Hwf2 (isolates_isolated G2))
    as (Hwf & Hedge & Hnode & Hdeg).
  eexists _, _. split; [done|]. split; [done|]. split; [|split; [|split; [|done]]].
  - apply unique_keys_remove_isolated; [apply isolates_isolated | done].
  - intros s t. rewrite Hedge, Hedge2, Hedge1. unfold rows_between.
    destruct (last (filter _ rels)) as [r|] eqn:E; [|done].
    apply last_Some_elem_of, list_elem_of_filter in E as [_ Hr].
    unfold edge_of_row, row_edge. by rewrite Hty.
  - intros k. rewrite Hnode, Hdeg, Hdeg2, Hnode2, group_rows_groupby_index.
    unfold concept_node, nx.isolates.
    destruct (decide (nx.degree G1 k = 0%nat)) as [Hk|Hk].
    + case_decide as Hiso; [done|]. rewrite list_elem_of_filter, Hdeg2 in Hiso.
      apply eq_None_not_Some. intros Hsome. apply Hiso. split; [done|].
      apply od_get_keys. by rewrite Hnode2, group_rows_groupby_index.
    + rewrite decide_False.
      2:{ rewrite list_elem_of_filter, Hdeg2. tauto. }
      destruct (pd.rows_of concepts k) as [|d rows] eqn:E; [|done].
      assert (is_Some (od_get k (_node G1))) as [nd Hnd].
      { unfold nx.degree, nx.successors, nx.predecessors in Hk.
        destruct (od_get k (_succ G1)) eqn:Hs; [apply (wf_succ G1 Hwf1); by rewrite Hs|].
        simpl in Hk. destruct (od_get k (_pred G1)) eqn:Hp; [|done].
        apply (wf_pred G1 Hwf1). by rewrite Hp. }
      rewrite Hnd. f_equal. by eapply Hempty.
Qed.

Lemma create_relationships_resolved (types : gmap Z string) (rels : list Rel.row)
    (G G' : DiGraph) :
  create_relationships types rels G = Ok G' →
  Forall (λ r, is_Some (types !! Rel.typeId r)) rels.
Proof.
  unfold create_relationships. revert G.
  induction rels as [|r rels IH]; intros G H; simpl in H; [constructor|].
  apply res_bind_Ok in H as (G1 & HG1 & H).
  destruct (types !! Rel.typeId r) as [name|] eqn:Hr; [|done].
  constructor; [eauto | by eapply IH].
Qed.

Lemma from_rf2_resolved (relationships_df : list Rel.row) (concepts_df : list Desc.row)
    (G : DiGraph) (log : list NoFsnWarning) :
  from_rf2 relationships_df concepts_df = Ok (G, log) →
  Forall (λ r, is_Some (type_name (active_descriptions concepts_df) (Rel.typeId r)))
         (active_relationships relationships_df).
Proof.
  unfold from_rf2. intros H.
  apply res_bind_Ok in H as (types & Htypes & H).
  apply res_bind_Ok in H as (G1 & HG1 & _).
  apply create_relationships_resolved in HG1.
  apply Forall_forall. intros r Hr. rewrite Forall_forall in HG1.
  rewrite <- (create_relationship_types_lookup _ _ _ _ Htypes); [by apply HG1|].
  apply list_elem_of_fmap. eauto.
Qed.

(** ** Walks and the pigeonhole bound *)

Section walks.

Context {A : Type} `{!EqDecision A} (R : relation A).

Lemma endpoint_cons (u v : A) (l : list A) : endpoint u (v :: l) = endpoint v l.
Proof.
  unfold endpoint. destruct l as [|w l]; [done|]. rewrite last_cons_cons.
  destruct (last (w :: l)) eqn:E; [done|]. by apply last_None in E.
Qed.

Lemma endpoint_app (u a : A) (l1 l2 : list A) :
  endpoint u (l1 ++ a :: l2) = endpoint a l2.
Proof.
  revert u. induction l1 as [|v l1 IH]; intros u; simpl.
  - apply endpoint_cons.
  - by rewrite endpoint_cons.
Qed.

Lemma chain_app (u a : A) (l1 l2 : list A) :
  chain R u (l1 ++ a :: l2) ↔ chain R u (l1 ++ [a]) ∧ chain R a l2.
Proof.
  revert u. induction l1 as [|v l1 IH]; intros u; simpl.
  - tauto.
  - rewrite IH. tauto.
Qed.

Lemma nsteps_chain (n : nat) (u x : A) :
  nsteps R n u x ↔ ∃ l, length l = n ∧ chain R u l ∧ endpoint u l = x.
Proof.
  split.
  - induction 1 as [u|n u v x Huv _ (l & Hl & Hc & He)].
    + by exists [].
    + exists (v :: l). simpl. rewrite endpoint_cons. by rewrite Hl.
  - intros (l & <- & Hc & <-). revert u Hc.
    induction l as [|v l IH]; intros u Hc; simpl.
    + apply nsteps_O.
    + destruct Hc as [Huv Hc]. rewrite endpoint_cons. eapply nsteps_l; eauto.
Qed.

Lemma chain_targets (u : A) (l : list A) (V : list A) :
  (∀ a b, R a b → b ∈ V) → chain R u l → Forall (λ v, v ∈ V) l.
Proof.
  intros HV. revert u. induction l as [|v l IH]; intros u; simpl; [constructor|].
  intros [Huv Hc]. constructor; eauto.
Qed.

Lemma not_NoDup_split (l : list A) :
  ¬ NoDup l → ∃ l1 a l2 l3, l = l1 ++ a :: l2 ++ a :: l3.
Proof.
  induction l as [|x l IH]; intros Hl.
  - destruct Hl. constructor.
  - destruct (decide (x ∈ l)) as [Hx|Hx].
    + apply list_elem_of_split in Hx as (l2 & l3 & ->). by exists [], x, l2, l3.
    + destruct IH as (l1 & a & l2 & l3 & ->).
      { intros Hnd. apply Hl. by constructor. }
      by exists (x :: l1), a, l2, l3.
Qed.

(** A walk between two nodes can be cut down to at most as many steps
    as there are nodes to step on. *)
Lemma nsteps_shorten (V : list A) (n : nat) (u x : A) :
  (∀ a b, R a b → b ∈ V) →
  (0 < n)%nat → nsteps R n u x →
  ∃ m, (0 < m ≤ length V)%nat ∧ (m ≤ n)%nat ∧ nsteps R m u x.
Proof.
  intros HV. induction (lt_wf n) as [n _ IH]. intros Hn Hsteps.
  destruct (decide (n ≤ length V)%nat) as [Hle|Hgt]; [exists n; auto with lia|].
  apply nsteps_chain in Hsteps as (l & Hlen & Hc & He).
  destruct (not_NoDup_split l) as (l1 & a & l2 & l3 & ->).
  { intros Hnd. apply Hgt. rewrite <- Hlen. apply submseteq_length, NoDup_submseteq; [done|].
    apply Forall_forall. by eapply chain_targets. }
  apply chain_app in Hc as [Hc1 Hc2]. apply chain_app in Hc2 as [_ Hc3].
  rewrite endpoint_app in He. replace (l2 ++ a :: l3) with ((l2 ++ [a]) ++ l3) in He
    by (by rewrite <- app_assoc).
  assert (endpoint a l3 = x) as He'.
  { destruct l3 as [|b l3]; [|rewrite endpoint_app in He; by rewrite endpoint_cons].
    rewrite app_nil_r in He. unfold endpoint in *. by rewrite last_snoc in He. }
  destruct (IH (length (l1 ++ a :: l3))) as (m & Hm & Hmn & Hsteps).
  - rewrite <- Hlen, !length_app. simpl. rewrite length_app. simpl. lia.
  - rewrite length_app. simpl. lia.
  - apply nsteps_chain. exists (l1 ++ a :: l3). split; [done|]. split.
    + by apply chain_app.
    + by rewrite endpoint_app.
  - exists m. split; [done|]. split; [|done].
    rewrite <- Hlen, !length_app in *. simpl in *. rewrite length_app. simpl. lia.
Qed.

End walks.

Lemma filter_all {A : Type} (P : A → Prop) `{!∀ x, Decision (P x)} (l : list A) :
  Forall P l → filter P l = l.
Proof.
  induction 1 as [|x l Hx _ IH]; [done|]. rewrite filter_cons_True by done. by f_equal.
Qed.

Lemma filter_none {A : Type} (P : A → Prop) `{!∀ x, Decision (P x)} (l : list A) :
  Forall (λ x, ¬ P x) l → filter P l = [].
Proof.
  induction 1 as [|x l Hx _ IH]; [done|]. by rewrite filter_cons_False.
Qed.

(** ** Stable sorting and grouping *)

Section sorting.

Context {A : Type} (key : A → Z).

Lemma insert_by_sorted (x : A) (l : list A) :
  StronglySorted (key_le key) l → StronglySorted (key_le key) (insert_by key x l).
Proof.
  induction 1 as [|y l Hl IH Hy]; simpl; [repeat constructor|].
  case_bool_decide as Hxy.
  - constructor; [by constructor|]. constructor; [done|].
    eapply Forall_impl; [exact Hy|]. unfold key_le. simpl. lia.
  - constructor; [done|]. rewrite insert_by_Permutation. constructor; [|done].
    unfold key_le. lia.
Qed.

Lemma sorted_sorted (l : list A) : StronglySorted (key_le key) (sorted l key).
Proof.
  unfold sorted. induction l as [|x l IH]; simpl; [constructor|].
  by apply insert_by_sorted.
Qed.




(** On a list sorted by key, [groupby] yields one group per key, in
    strictly ascending order of the keys, each made of all the elements
    with that key in their order in the list. *)
Lemma groupby_sorted (l : list A) :
  StronglySorted (key_le key) l →
  StronglySorted Z.lt (groupby l key).*1 ∧
  Forall (λ gx : Z * list A, gx.2 ≠ [] ∧ gx.2 = filter (λ x, key x = gx.1) l)
         (groupby l key) ∧
  head (groupby l key).*1 = key <$> head l.
Proof.
  induction 1 as [|x l Hl (IHs & IHg & IHh) Hx]; simpl; [repeat constructor|].
  destruct (groupby l key) as [|[g xs] rest] eqn:Hgr; simpl in *.
  - destruct l as [|y l]; [|by simpl in IHh].
    repeat constructor; try done. simpl. by rewrite filter_cons_True.
  - destruct l as [|y l]; [done|]. simpl in IHh. injection IHh as ->.
    apply Forall_cons in Hx as [Hxy Hx]. unfold key_le in Hxy.
    apply Forall_cons in IHg as [[Hne Hxs] IHg]. simpl in *.
    apply StronglySorted_inv in IHs as [IHs Hlt].
    assert (∀ gx, gx ∈ rest → key y < gx.1) as Hrest.
    { intros gx Hgx. rewrite Forall_forall in Hlt. apply Hlt.
      apply list_elem_of_fmap. by exists gx. }
    case_decide as Hg; simpl.
    + split; [|split; [|by rewrite Hg]].
      * by constructor.
      * constructor; simpl.
        -- split; [done|]. rewrite filter_cons_True by done. by rewrite Hxs.
        -- apply Forall_forall. intros gx Hgx. rewrite Forall_forall in IHg.
           destruct (IHg gx Hgx) as [? ?]. split; [done|].
           rewrite filter_cons_False; [done|]. specialize (Hrest gx Hgx). lia.
    + split; [|split; [|done]].
      * constructor; [by constructor|]. constructor; [lia|].
        eapply Forall_impl; [exact Hlt|]. simpl. lia.
      * assert (Forall (λ z, key x < key z) (y :: l)) as Hall.
        { apply StronglySorted_inv in Hl as [_ Hy]. constructor; [lia|].
          rewrite Forall_forall in Hy |- *. intros z Hz. specialize (Hy z Hz).
          unfold key_le in Hy. lia. }
        constructor; simpl; [|constructor; simpl].
        -- split; [done|]. rewrite filter_cons_True by done. f_equal. symmetry.
           apply filter_none. eapply Forall_impl; [exact Hall|]. simpl. lia.
        -- split; [done|]. rewrite (filter_cons_False _ x) by lia. done.
        -- apply Forall_forall. intros gx Hgx. rewrite Forall_forall in IHg.
           destruct (IHg gx Hgx) as [? ?]. split; [done|].
           rewrite (filter_cons_False _ x); [done|]. specialize (Hrest gx Hgx). lia.
Qed.

End sorting.

(** * The claims *)

Lemma demo_build_eq : from_rf2 demo.relationships demo.descriptions = Ok (demo.graph, demo.log).
Proof. vm_compute. reflexivity. Qed.

(** ** C6: one edge per ordered pair, the last record wins *)

(** C6. After [from_rf2], the edge view holds each ordered pair of
    concepts at most once (so at most once per type as well), and the
    attributes of the edge from [s] to [t] are those of the last active
    relationship row with that source and destination: group, type name
    and type id of an earlier row for the same pair are overwritten. *)
Theorem from_rf2_last_write_wins (relationships_df : list Rel.row)
    (concepts_df : list Desc.row) (G : DiGraph) (log : list NoFsnWarning) :
  from_rf2 relationships_df concepts_df = Ok (G, log) →
  NoDup (edge_pairs G) ∧
  ∀ s t ed,
    (s, t, ed) ∈ edge_list G ↔
    ∃ r, last (rows_between (active_relationships relationships_df) s t) = Some r ∧
         row_edge (active_descriptions concepts_df) r = Some ed.
Proof.
  intros H. pose proof (from_rf2_resolved _ _ _ _ H) as Hres.
  destruct (from_rf2_Ok _ _ Hres) as (G' & log' & H' & _ & Huk & Hedge & _).
  rewrite H in H'. injection H' as <- <-.
  split; [by apply NoDup_edge_pairs|].
  intros s t ed. rewrite elem_of_edge_list, Hedge by done.
  destruct (last _) as [r|]; split.
  - intros ?. by exists r.
  - by intros (r' & [= <-] & ?).
  - done.
  - by intros (? & [=] & _).
Qed.

Lemma from_rf2_last_write_wins_witness :
  NoDup (edge_pairs demo.graph) ∧
  ∀ s t ed,
    (s, t, ed) ∈ edge_list demo.graph ↔
    ∃ r, last (rows_between (active_relationships demo.relationships) s t) = Some r ∧
         row_edge (active_descriptions demo.descriptions) r = Some ed.
Proof.
  apply (from_rf2_last_write_wins demo.relationships demo.descriptions demo.graph demo.log).
  vm_compute. reflexivity.
Defined.

(** ** C7: a synonym stands in for a missing fully specified name *)

Lemma no_fsn_row_resolve (d : Desc.row) (ds : list Desc.row) :
  no_fsn_row (d :: ds) →
  resolve_names (d :: ds) = Some (Desc.term d, Desc.term <$> ds, true).
Proof.
  intros H. unfold resolve_names, fsn_terms, synonym_terms.
  rewrite (filter_none (λ d, Desc.typeId d = fsn_typeId)) by done.
  rewrite (filter_all (λ d, Desc.typeId d ≠ fsn_typeId)) by done.
  done.
Qed.

(** C7, as the code has it. Provided every relationship type used by an
    active relationship row has an active fully-specified-name row (a
    type without one aborts construction with [KeyError]), [from_rf2]
    returns without raising, and every concept whose active description
    rows [d :: ds] contain no fully-specified-name row gets the term of
    [d], its first synonym, as [fsn], keeps the terms of [ds] as
    [synonyms], and is reported by a warning; warnings are issued for no
    other concept. *)
Theorem from_rf2_promotes_first_synonym (relationships_df : list Rel.row)
    (concepts_df : list Desc.row) :
  Forall (λ r, is_Some (type_name (active_descriptions concepts_df) (Rel.typeId r)))
         (active_relationships relationships_df) →
  (∃ G log, from_rf2 relationships_df concepts_df = Ok (G, log) ∧
     ∀ w, w ∈ log →
          pd.rows_of (active_descriptions concepts_df) (w_sctid w) ≠ [] ∧
          no_fsn_row (pd.rows_of (active_descriptions concepts_df) (w_sctid w))) ∧
  ∀ c d ds,
    pd.rows_of (active_descriptions concepts_df) c = d :: ds →
    no_fsn_row (d :: ds) →
    promoted_in relationships_df concepts_df c d ds.
Proof.
  intros Hres. set (concepts := active_descriptions concepts_df) in *.
  destruct (from_rf2_Ok _ _ Hres) as (G & log & HG & Hwf & _ & _ & Hnode & Hlog).
  fold concepts in Hnode, Hlog. split.
  - exists G, log. split; [done|]. intros w Hw. rewrite Hlog in Hw.
    apply list_elem_of_omap in Hw as ([k rows] & Hg & Hw).
    unfold pd.groupby_index in Hg. apply list_elem_of_fmap in Hg as (k' & [= -> ->] & Hk').
    rewrite elem_of_sorted, elem_of_unique in Hk'. apply rows_of_nonempty in Hk'.
    unfold warning_of in Hw. simpl in Hw.
    destruct (resolve_names (pd.rows_of concepts k')) as [[[f syn] [|]]|] eqn:Hr; [|done|done].
    injection Hw as <-. simpl. split; [done|].
    unfold resolve_names, fsn_terms in Hr.
    destruct (filter (λ d, Desc.typeId d = fsn_typeId) (pd.rows_of concepts k')) eqn:Hf;
      [|done].
    apply Forall_forall. intros d Hd Hfsn.
    assert (d ∈ filter (λ d, Desc.typeId d = fsn_typeId) (pd.rows_of concepts k')) as Hin
      by (by apply list_elem_of_filter).
    rewrite Hf in Hin. by apply elem_of_nil in Hin.
  - intros c d ds Hrows Hno. exists G, log. split; [done|]. split.
    + rewrite Hlog. apply list_elem_of_omap. exists (c, d :: ds). split.
      * unfold pd.groupby_index. apply list_elem_of_fmap. exists c. rewrite Hrows.
        split; [done|]. rewrite elem_of_sorted, elem_of_unique.
        apply rows_of_nonempty. by rewrite Hrows.
      * unfold warning_of. simpl. by rewrite no_fsn_row_resolve.
    + intros [nd Hnd]%contains_spec. unfold nx.nodes. rewrite Hnd. f_equal.
      rewrite Hnode in Hnd. case_decide; [done|].
      unfold concept_node, node_of in Hnd. rewrite Hrows in Hnd.
      rewrite no_fsn_row_resolve in Hnd by done. congruence.
Qed.

Lemma from_rf2_promotes_first_synonym_witness :
  promoted_in demo.relationships demo.descriptions 2
    (demo.D 2 demo.synonym_typeId "Two") [demo.D 2 demo.synonym_typeId "Dos"].
Proof.
  refine (proj2 (from_rf2_promotes_first_synonym demo.relationships demo.descriptions _)
            2 _ _ _ _).
  - apply (bool_decide_unpack _). vm_compute. reflexivity.
  - vm_compute. reflexivity.
  - apply (bool_decide_unpack _). vm_compute. reflexivity.
Defined.

Lemma demo_untyped_build_raises : from_rf2 demo_untyped.relationships demo_untyped.descriptions = Raise KeyError.
Proof. vm_compute. reflexivity. Qed.

Lemma from_rf2_promotion_can_abort : ¬ always_promoted.
Proof.
  intros H.
  destruct (H demo_untyped.relationships demo_untyped.descriptions
              is_a_relationship_typeId
              (demo.D is_a_relationship_typeId demo.synonym_typeId "Is a") [])
    as (G & log & HG & _).
  - vm_compute. reflexivity.
  - apply (bool_decide_unpack _). vm_compute. reflexivity.
  - rewrite demo_untyped_build_raises in HG. discriminate HG.
Qed.

(** ** C8: a depth that is not positive is refused *)

(** C8. Called with an explicit depth [k ≤ 0], [get_ancestors],
    [get_descendants] and [get_neighbourhood] raise [AssertionError]
    whatever the graph and the concept: the check comes before the
    graph is read, so nothing is computed. *)
Theorem nonpositive_steps_rejected (G : DiGraph) (id k : Z) :
  k ≤ 0 →
  get_ancestors G id (Some k) = Raise AssertionError ∧
  get_descendants G id (Some k) = Raise AssertionError ∧
  get_neighbourhood G id k = Raise AssertionError.
Proof.
  intros Hk. unfold get_ancestors, get_descendants, get_neighbourhood. simpl.
  rewrite call_depth_nonpos by lia. simpl.
  rewrite bool_decide_eq_true_2 by done.
  rewrite bool_decide_eq_false_2 by lia. done.
Qed.

Lemma nonpositive_steps_rejected_witness :
  get_ancestors demo.graph 1 (Some 0) = Raise AssertionError ∧
  get_descendants demo.graph 1 (Some 0) = Raise AssertionError ∧
  get_neighbourhood demo.graph 1 0 = Raise AssertionError.
Proof. apply (nonpositive_steps_rejected demo.graph 1 0). lia. Defined.

(** ** C10: the traversals terminate *)

(** C10. On any graph, cyclic or not, a call of [get_ancestors],
    [get_descendants] or [get_neighbourhood] returns or raises within a
    call depth of [call_depth steps], where an unset depth counts as
    99999: the remaining depth goes down by one at each recursive call.
    A larger budget gives the same outcome. *)
Theorem traversals_terminate (G : DiGraph) (id : Z) (fuel : nat) :
  (∀ steps_removed,
     (call_depth (steps_or_default steps_removed) ≤ fuel)%nat →
     get_ancestors G id steps_removed ≠ OutOfFuel ∧
     get_ancestors_fuel fuel G id steps_removed = get_ancestors G id steps_removed ∧
     get_descendants G id steps_removed ≠ OutOfFuel ∧
     get_descendants_fuel fuel G id steps_removed = get_descendants G id steps_removed) ∧
  (∀ steps_removed,
     (call_depth steps_removed ≤ fuel)%nat →
     get_neighbourhood G id steps_removed ≠ OutOfFuel ∧
     get_neighbourhood_fuel fuel G id steps_removed = get_neighbourhood G id steps_removed).
Proof.
  split.
  - intros steps Hfuel. unfold get_ancestors, get_descendants.
    pose proof (get_ancestors_fuel_terminates _ G id steps (le_n _)).
    pose proof (get_descendants_fuel_terminates _ G id steps (le_n _)).
    repeat split; try done.
    + by apply get_ancestors_fuel_stable.
    + by apply get_descendants_fuel_stable.
  - intros steps Hfuel. unfold get_neighbourhood.
    pose proof (get_neighbourhood_fuel_terminates _ G id steps (le_n _)).
    split; [done|]. by apply get_neighbourhood_fuel_stable.
Qed.

Lemma unbounded_steps_eq : steps_or_default None = 99999.
Proof. reflexivity. Qed.

(** ** C4: the root and the concept itself are left out *)

Lemma elem_of_set_elements (s : cset) (c : SnomedConceptDetails) :
  c ∈ set_elements s ↔ ∃ x, s !! x = Some c.
Proof.
  unfold set_elements. rewrite list_elem_of_fmap. split.
  - intros ([x c'] & -> & H%elem_of_map_to_list). eauto.
  - intros [x H]. exists (x, c). split; [done | by apply elem_of_map_to_list].
Qed.

(** C4. No result of [get_ancestors] or [get_neighbourhood] contains
    the root concept, and no result of [get_neighbourhood] contains the
    concept asked about. *)
Theorem root_and_self_excluded (G : DiGraph) (id : Z) :
  (∀ steps_removed s c,
     get_ancestors G id steps_removed = Ok s →
     c ∈ set_elements s → sctid c ≠ root_concept_id) ∧
  (∀ steps_removed l c,
     get_neighbourhood G id steps_removed = Ok l →
     c ∈ l → sctid c ≠ root_concept_id ∧ sctid c ≠ id).
Proof.
  split.
  - intros steps s c Hs [x Hc]%elem_of_set_elements.
    apply get_ancestors_fuel_spec in Hs as [Hdet Hdom].
    rewrite (get_concept_details_sctid _ _ _ (Hdet _ _ Hc)).
    apply Hdom, elem_of_dom. eauto.
  - intros steps l c. unfold get_neighbourhood.
    destruct (call_depth steps) as [|fuel]; [done|]. simpl.
    case_bool_decide; [|done]. intros Hl Hc.
    apply res_bind_Ok in Hl as (ps & _ & Hl). apply res_bind_Ok in Hl as (cs & _ & Hl).
    apply res_bind_Ok in Hl as (nb & _ & [= <-]).
    apply list_elem_of_filter in Hc as [Hc _].
    split; intros Heq; apply Hc; rewrite Heq; [by right; left | left].
Qed.

(** ** C1: ancestors with the depth left unset *)

Lemma isa_edge_target (G : DiGraph) (u v : Z) :
  wf_graph G → isa_edge G u v → v ∈ od_keys (_node G).
Proof. intros Hwf (ed & Hed & _). apply od_get_keys. by eapply (wf_target G Hwf). Qed.

(** Beyond as many steps as the graph has nodes nothing new is reached. *)
Lemma isa_within_saturates (G : DiGraph) (k id x : Z) :
  wf_graph G → isa_within G k id x →
  isa_within G (Z.of_nat (nx.number_of_nodes G)) id x.
Proof.
  intros Hwf (n & Hn & _ & Hsteps).
  destruct (nsteps_shorten (isa_edge G) (od_keys (_node G)) n id x)
    as (m & Hm & _ & Hsteps'); [by intros; eapply isa_edge_target | done | done |].
  exists m. unfold nx.number_of_nodes. unfold od_keys in Hm. rewrite length_fmap in Hm.
  repeat split; [lia | lia | done].
Qed.

Lemma described_Forall (G : DiGraph) :
  Forall (λ kv : Z * NodeData, is_Some (nd_fsn kv.2)) (_node G) → described G.
Proof.
  intros H n nd Hn%od_get_elem_of. rewrite Forall_forall in H. by apply (H (n, nd)).
Qed.

Lemma od_get_fmap {V : Type} (f : Z → V) (ks : list Z) (k : Z) :
  od_get k ((λ i, (i, f i)) <$> ks) = if decide (k ∈ ks) then Some (f k) else None.
Proof.
  induction ks as [|k' ks IH].
  - destruct (decide (k ∈ [])) as [Hin|_]; [by apply elem_of_nil in Hin | done].
  - rewrite fmap_cons. cbn [od_get]. destruct (decide (k = k')) as [->|Hne].
    + rewrite (decide_True (P := k' ∈ k' :: ks)) by left. done.
    + rewrite IH. destruct (decide (k ∈ ks)) as [Hin|Hnin].
      * rewrite (decide_True (P := k ∈ k' :: ks)) by by right. done.
      * rewrite (decide_False (P := k ∈ k' :: ks)); [done|].
        by intros [?|?]%elem_of_cons.
Qed.

Lemma deep_node_lookup (n k : Z) :
  od_get k (_node (deep.graph n)) = if decide (0 ≤ k ≤ n) then Some deep.concept else None.
Proof.
  unfold deep.graph. simpl. rewrite (od_get_fmap (λ _, deep.concept)).
  destruct (decide (k ∈ seqZ 0 (n + 1))) as [Hk|Hk]; rewrite elem_of_seqZ in Hk.
  - rewrite decide_True by lia. done.
  - rewrite decide_False by lia. done.
Qed.

Lemma deep_edge_lookup (n u v : Z) :
  nx.edge_data (deep.graph n) u v =
  if decide (0 ≤ u < n ∧ v = u + 1) then Some deep.is_a_edge else None.
Proof.
  unfold nx.edge_data, deep.graph. simpl.
  rewrite (od_get_fmap (λ i, if decide (i < n) then [(i + 1, deep.is_a_edge)] else [])).
  destruct (decide (u ∈ seqZ 0 (n + 1))) as [Hu|Hu]; rewrite elem_of_seqZ in Hu.
  - destruct (decide (u < n)); simpl.
    + destruct (decide (v = u + 1)) as [->|].
      * rewrite decide_True by lia. done.
      * rewrite decide_False by lia. done.
    + rewrite decide_False by lia. done.
  - rewrite decide_False by lia. done.
Qed.

Lemma deep_pred_lookup (n v u : Z) :
  pred_data (deep.graph n) v u =
  if decide (0 ≤ u < n ∧ v = u + 1) then Some deep.is_a_edge else None.
Proof.
  unfold pred_data, deep.graph. simpl.
  rewrite (od_get_fmap (λ i, if decide (0 < i) then [(i - 1, deep.is_a_edge)] else [])).
  destruct (decide (v ∈ seqZ 0 (n + 1))) as [Hv|Hv]; rewrite elem_of_seqZ in Hv.
  - destruct (decide (0 < v)); simpl.
    + destruct (decide (u = v - 1)) as [->|].
      * rewrite decide_True by lia. done.
      * rewrite decide_False by lia. done.
    + rewrite decide_False by lia. done.
  - rewrite decide_False by lia. done.
Qed.

Lemma deep_graph_wf (n : Z) : wf_graph (deep.graph n).
Proof.
  split.
  - intros k. unfold deep.graph. simpl.
    rewrite (od_get_fmap (λ _, deep.concept)),
      (od_get_fmap (λ i, if decide (i < n) then [(i + 1, deep.is_a_edge)] else [])).
    destruct (decide (k ∈ seqZ 0 (n + 1))); split; eauto; by intros ?%is_Some_None.
  - intros k. unfold deep.graph. simpl.
    rewrite (od_get_fmap (λ _, deep.concept)),
      (od_get_fmap (λ i, if decide (0 < i) then [(i - 1, deep.is_a_edge)] else [])).
    destruct (decide (k ∈ seqZ 0 (n + 1))); split; eauto; by intros ?%is_Some_None.
  - intros u v ed. by rewrite deep_edge_lookup, deep_pred_lookup.
  - intros u v ed. rewrite deep_edge_lookup, deep_node_lookup. case_decide; [|done].
    intros _. rewrite decide_True by lia. eauto.
Qed.

Lemma deep_graph_described (n : Z) : described (deep.graph n).
Proof.
  intros k nd. rewrite deep_node_lookup. case_decide; [|done]. intros [= <-]. simpl. eauto.
Qed.

Lemma deep_isa_edge_iff (n u v : Z) :
  isa_edge (deep.graph n) u v ↔ 0 ≤ u < n ∧ v = u + 1.
Proof.
  unfold isa_edge. rewrite deep_edge_lookup. case_decide; split; try done.
  - intros _. by exists deep.is_a_edge.
  - by intros (? & [=] & _).
Qed.

(** A walk of [m] steps moves from [u] to [u + m]. *)
Lemma deep_walk_end (n : Z) (m : nat) (u x : Z) :
  nsteps (isa_edge (deep.graph n)) m u x → x = u + Z.of_nat m.
Proof.
  induction 1 as [u|m u v x Huv%deep_isa_edge_iff _ IH]; lia.
Qed.

Lemma deep_walk_up (n : Z) (m : nat) (u : Z) :
  0 ≤ u → u + Z.of_nat m ≤ n → nsteps (isa_edge (deep.graph n)) m u (u + Z.of_nat m).
Proof.
  revert u. induction m as [|m IH]; intros u Hu Hm.
  - replace (u + Z.of_nat 0) with u by lia. apply nsteps_O.
  - apply (nsteps_l _ _ _ (u + 1)); [apply deep_isa_edge_iff; lia|].
    replace (u + Z.of_nat (S m)) with (u + 1 + Z.of_nat m) by lia.
    apply IH; lia.
Qed.

Lemma deep_ancestors (limit limit' : nat) (n : Z) (s s_all : cset) :
  99999 < n < root_concept_id →
  get_ancestors_fuel limit (deep.graph n) 0 (Some n) = Ok s →
  get_ancestors_fuel limit' (deep.graph n) 0 None = Ok s_all →
  n ∈ dom s ∧ n ∉ dom s_all.
Proof.
  intros Hn Hs Hall.
  apply get_ancestors_fuel_spec in Hs as [_ Hdom].
  apply get_ancestors_fuel_spec in Hall as [_ Hdom'].
  change (steps_or_default (Some n)) with n in Hdom.
  change (steps_or_default None) with 99999 in Hdom'.
  split.
  - apply Hdom. split; [lia|].
    exists (Z.to_nat n). split; [lia|]. split; [lia|].
    replace n with (0 + Z.of_nat (Z.to_nat n)) at 3 by lia.
    apply deep_walk_up; lia.
  - intros [_ (m & _ & Hm & Hsteps)]%Hdom'.
    apply deep_walk_end in Hsteps. lia.
Qed.

Lemma deep_contains (n : Z) : 0 ≤ n → nx.contains (deep.graph n) 0 = true.
Proof.
  intros Hn. apply contains_spec. rewrite deep_node_lookup.
  rewrite decide_True by lia. eauto.
Qed.

Lemma demo_graph_wf : wf_graph demo.graph.
Proof.
  destruct (from_rf2_Ok demo.relationships demo.descriptions)
    as (G & log & HG & Hwf & _).
  - apply (bool_decide_unpack _). vm_compute. reflexivity.
  - rewrite demo_build_eq in HG. by injection HG as <- <-.
Qed.

Lemma demo_graph_described : described demo.graph.
Proof. apply described_Forall, (bool_decide_unpack _). vm_compute. reflexivity. Qed.

Lemma traversals_terminate_witness :
  (∀ steps_removed,
     (call_depth (steps_or_default steps_removed) ≤ Z.to_nat 100000)%nat →
     get_ancestors demo.graph 1 steps_removed ≠ OutOfFuel ∧
     get_ancestors_fuel (Z.to_nat 100000) demo.graph 1 steps_removed
     = get_ancestors demo.graph 1 steps_removed ∧
     get_descendants demo.graph 1 steps_removed ≠ OutOfFuel ∧
     get_descendants_fuel (Z.to_nat 100000) demo.graph 1 steps_removed
     = get_descendants demo.graph 1 steps_removed) ∧
  (call_depth (steps_or_default None) ≤ Z.to_nat 100000)%nat ∧
  get_neighbourhood demo.graph 1 2 ≠ OutOfFuel ∧
  get_neighbourhood_fuel (Z.to_nat 100000) demo.graph 1 2 = get_neighbourhood demo.graph 1 2.
Proof.
  split; [apply (traversals_terminate demo.graph 1 (Z.to_nat 100000))|].
  split; [change (steps_or_default None) with 99999; unfold call_depth; lia|].
  apply (traversals_terminate demo.graph 1 (Z.to_nat 100000)).
  unfold call_depth. lia.
Defined.

Lemma demo_results_ancestors_of_1_eq : get_ancestors demo.graph 1 None = Ok demo_results.ancestors_of_1.
Proof. vm_compute. reflexivity. Qed.

Lemma demo_results_neighbourhood_of_2_eq : get_neighbourhood demo.graph 2 2 = Ok demo_results.neighbourhood_of_2.
Proof. vm_compute. reflexivity. Qed.

Lemma root_and_self_excluded_witness :
  (∀ c, c ∈ set_elements demo_results.ancestors_of_1 → sctid c ≠ root_concept_id) ∧
  (∀ c, c ∈ demo_results.neighbourhood_of_2 → sctid c ≠ root_concept_id ∧ sctid c ≠ 2).
Proof.
  split; intros c.
  - apply (proj1 (root_and_self_excluded demo.graph 1) None).
    exact demo_results_ancestors_of_1_eq.
  - apply (proj2 (root_and_self_excluded demo.graph 2) 2).
    exact demo_results_neighbourhood_of_2_eq.
Defined.

Lemma valid_steps_default (steps_removed : option Z) :
  valid_steps steps_removed → 0 < steps_or_default steps_removed.
Proof. destruct steps_removed; simpl; [done | unfold unbounded_steps; lia]. Qed.

(** The outcome of the loop over the parents when each recursive call
    either returns or overflows: the loop overflows at the first call
    that does. *)
Lemma foldM_union_outcome {A : Type} (F : A → res cset) (l : list A) (acc : cset) :
  (∀ x, x ∈ l → F x = OutOfFuel ∨ ∃ r, F x = Ok r) →
  (foldM (union_loop F) l acc = OutOfFuel ∧ ∃ x, x ∈ l ∧ F x = OutOfFuel) ∨
  ((∃ s, foldM (union_loop F) l acc = Ok s) ∧ ∀ x, x ∈ l → ∃ r, F x = Ok r).
Proof.
  revert acc. induction l as [|x l IH]; intros acc HF; simpl.
  - right. split; [eauto|]. by intros x ?%elem_of_nil.
  - unfold union_loop at 1 3.
    destruct (HF x) as [Hx|[r Hx]]; [left | | ]; rewrite Hx; simpl.
    + left. split; [done|]. exists x. split; [left | done].
    + destruct (IH (acc ∪ r)) as [[H (y & Hy & HFy)]|[H Hall]].
      * intros. apply HF. by right.
      * left. split; [done|]. exists y. split; [by right | done].
      * right. split; [done|]. intros y [->|Hy]%elem_of_cons; eauto.
Qed.

(** With room for [limit] nested calls, [get_ancestors] overflows the
    stack exactly when the depth asked for exceeds [limit] and an
    "is a" walk of [limit] edges starts at the concept. *)
Lemma get_ancestors_fuel_overflow (G : DiGraph) (limit : nat) (id : Z)
    (steps_removed : option Z) :
  wf_graph G → described G → is_Some (od_get id (_node G)) →
  valid_steps steps_removed →
  (get_ancestors_fuel limit G id steps_removed = OutOfFuel ∧
   Z.of_nat limit < steps_or_default steps_removed ∧
   ∃ x, nsteps (isa_edge G) limit id x) ∨
  ((∃ s, get_ancestors_fuel limit G id steps_removed = Ok s) ∧
   ¬ (Z.of_nat limit < steps_or_default steps_removed ∧
      ∃ x, nsteps (isa_edge G) limit id x)).
Proof.
  intros Hwf Hdesc. revert id steps_removed.
  induction limit as [|limit IH]; intros id steps Hid Hvalid.
  { left. split; [done|]. split; [by apply valid_steps_default|].
    exists id. constructor. }
  pose proof (valid_steps_default steps Hvalid) as Hpos.
  cbn [get_ancestors_fuel].
  assert (check_steps_removed steps = Ok (steps_or_default steps)) as ->
    by (by apply check_steps_removed_Ok).
  cbn [res_bind]. set (k := steps_or_default steps) in *.
  destruct (get_parents_total G id Hwf Hdesc Hid) as [ps Hps]. rewrite Hps. cbn [res_bind].
  assert (∀ p, p ∈ ps → is_Some (od_get (sctid p) (_node G))) as Hnode.
  { intros p Hp. eapply get_concept_details_node, get_parents_sound; done. }
  case_bool_decide as Hk.
  - destruct (foldM_union_outcome
               (λ p, get_ancestors_fuel limit G (sctid p) (Some (k - 1))) ps (set_ ps))
      as [[Hf (p & Hp & HFp)]|[[s Hf] Hall]].
    + intros p Hp.
      destruct (IH (sctid p) (Some (k - 1)) (Hnode p Hp)) as [(H & _)|([s H] & _)];
        [simpl; lia | by left | right; eauto].
    + left. unfold union_loop in Hf. rewrite Hf. split; [done|].
      destruct (IH (sctid p) (Some (k - 1)) (Hnode p Hp)) as [(_ & Hlt & x & Hx)|([s H] & _)];
        [simpl; lia | | congruence].
      simpl in Hlt. split; [lia|]. exists x.
      eapply nsteps_l; [|exact Hx]. by eapply get_parents_sound.
    + right. unfold union_loop in Hf. rewrite Hf. simpl. split; [eauto|].
      intros [Hlt (x & Hx)]. inversion Hx as [|n ? v ? Hidv Hrest]; subst.
      destruct (get_parents_complete _ _ _ _ Hps Hidv) as (p & Hp & <-).
      destruct (Hall p Hp) as [r Hr].
      destruct (IH (sctid p) (Some (k - 1)) (Hnode p Hp)) as [(H & _)|(_ & Hno)];
        [simpl; lia | congruence |].
      apply Hno. split; [simpl; lia | eauto].
  - right. simpl. split; [eauto|]. intros [Hlt _]. lia.
Qed.

(** An unset depth runs as depth 99999, whatever the recursion limit. *)
Lemma get_ancestors_fuel_None (limit : nat) (G : DiGraph) (id : Z) :
  get_ancestors_fuel limit G id None = get_ancestors_fuel limit G id (Some 99999).
Proof. destruct limit as [|limit]; [done|]. cbn [get_ancestors_fuel]. done. Qed.

Lemma isa_cycle_wf : wf_graph isa_cycle.graph.
Proof.
  destruct (from_rf2_Ok isa_cycle.relationships isa_cycle.descriptions)
    as (G & log & HG & Hwf & _).
  - apply (bool_decide_unpack _). vm_compute. reflexivity.
  - assert (from_rf2 isa_cycle.relationships isa_cycle.descriptions
            = Ok (isa_cycle.graph, [])) as Heq by (vm_compute; reflexivity).
    rewrite Heq in HG. by injection HG as <- _.
Qed.

Lemma isa_cycle_described : described isa_cycle.graph.
Proof. apply described_Forall, (bool_decide_unpack _). vm_compute. reflexivity. Qed.

(** On the ring an "is a" walk of any length starts at each concept. *)
Lemma isa_cycle_walks (n : nat) (u : Z) :
  u ∈ [1; 2; 3] → ∃ x, nsteps (isa_edge isa_cycle.graph) n u x.
Proof.
  revert u. induction n as [|n IH]; intros u Hu; [exists u; constructor|].
  assert (∃ v, v ∈ [1; 2; 3] ∧ isa_edge isa_cycle.graph u v) as (v & Hv & Huv).
  { repeat (apply elem_of_cons in Hu as [->|Hu]); [| | |by apply elem_of_nil in Hu].
    - exists 2. split; [set_solver|]. apply (bool_decide_unpack _). vm_compute. reflexivity.
    - exists 3. split; [set_solver|]. apply (bool_decide_unpack _). vm_compute. reflexivity.
    - exists 1. split; [set_solver|]. apply (bool_decide_unpack _). vm_compute. reflexivity. }
  destruct (IH v Hv) as [x Hx]. exists x. by eapply nsteps_l.
Qed.

(** C1, at the failing inputs.  On the ring where 1 is a 2, 2 is a 3 and
    3 is a 1, [get_ancestors(1, 3)] returns the three concepts, which is
    the whole "is a" closure, while [get_ancestors(1)] with the depth
    left unset nests 99999 calls: it overflows the stack under every
    recursion limit that leaves room for fewer.  On the chain of 100001
    concepts and with room for 100000 nested calls or more, both calls
    return, and concept 100000 is among the ancestors of concept 0 at
    depth 100000 but not at the unset depth. *)
Theorem ancestors_unset_depth_falls_short :
  (∃ s, get_ancestors_fuel 3 isa_cycle.graph 1 (Some 3) = Ok s ∧
        dom s = {[1; 2; 3]}) ∧
  (∀ limit : nat, Z.of_nat limit < 99999 →
     get_ancestors_fuel limit isa_cycle.graph 1 None = OutOfFuel) ∧
  (∀ limit : nat, 100000 ≤ Z.of_nat limit →
     ∃ s s_all,
       get_ancestors_fuel limit (deep.graph 100000) 0 (Some 100000) = Ok s ∧
       get_ancestors_fuel limit (deep.graph 100000) 0 None = Ok s_all ∧
       100000 ∈ dom s ∧ 100000 ∉ dom s_all).
Proof.
  split; [|split].
  - eexists. split; [vm_compute; reflexivity|]. vm_compute. reflexivity.
  - intros limit Hlimit.
    destruct (get_ancestors_fuel_overflow isa_cycle.graph limit 1 None
                isa_cycle_wf isa_cycle_described) as [(H & _)|(_ & Hno)]; [| exact I | done |].
    { apply contains_spec. vm_compute. reflexivity. }
    destruct Hno. split; [exact Hlimit|]. apply isa_cycle_walks. set_solver.
  - intros limit Hlimit.
    destruct (get_ancestors_fuel_total limit (deep.graph 100000) 0 (Some 100000)) as [s Hs];
      [apply deep_graph_wf | apply deep_graph_described
      | apply contains_spec, deep_contains; lia | unfold valid_steps; lia
      | change (steps_or_default (Some 100000)) with 100000; unfold call_depth; lia |].
    destruct (get_ancestors_fuel_total limit (deep.graph 100000) 0 None) as [s_all Hall];
      [apply deep_graph_wf | apply deep_graph_described
      | apply contains_spec, deep_contains; lia | exact I
      | change (steps_or_default None) with 99999; unfold call_depth; lia |].
    exists s, s_all. do 2 (split; [done|]).
    apply (deep_ancestors limit limit 100000 s s_all); [unfold root_concept_id; lia | done | done].
Qed.

(** ** C5: inferred relationships by group *)

Lemma get_out_relationships_edges (G : DiGraph) (u : Z) (rs : list SnomedRelationship) :
  get_out_relationships G u = Ok rs →
  Forall2 (relationship_of_edge G u) (nx.successors G u) rs.
Proof.
  intros (cu & d & Hcu & Hd & Hrs)%get_out_relationships_Ok.
  unfold nx.successors. rewrite Hd.
  eapply Forall2_impl; [exact Hrs|]. simpl.
  intros v r (cv & ed & Hcv & Hed & ->). exists cu, cv, ed.
  unfold nx.edge_data. by rewrite Hd.
Qed.



(** ** Paths *)

Lemma has_edge_data (G : DiGraph) (u v : Z) :
  has_edge G u v ↔ is_Some (nx.edge_data G u v).
Proof.
  unfold has_edge, nx.successors, nx.edge_data.
  destruct (od_get u (_succ G)) as [d|]; [apply od_get_keys|].
  split; [by intros ?%elem_of_nil | by intros ?%is_Some_None].
Qed.

Lemma has_edge_target (G : DiGraph) (u v : Z) :
  wf_graph G → has_edge G u v → v ∈ od_keys (_node G).
Proof.
  intros Hwf [ed Hed]%has_edge_data. apply od_get_keys. by eapply (wf_target G Hwf).
Qed.




(** ** C2: the shortest "is a" path to the root *)

Lemma step_relationship_Ok (G : DiGraph) (e : Z * Z) (r : SnomedRelationship) :
  step_relationship G e = Ok r →
  relationship_of_edge G e.1 e.2 r ∧ (is_a r ↔ isa_edge G e.1 e.2).
Proof.
  unfold step_relationship, nx.edges. intros H.
  apply res_bind_Ok in H as (ed & Hed & H).
  apply res_bind_Ok in H as (cu & Hcu & H).
  apply res_bind_Ok in H as (cv & Hcv & [= <-]).
  destruct (nx.edge_data G e.1 e.2) as [ed'|] eqn:Hedge; [|done]. injection Hed as ->.
  split; [by exists cu, cv, ed|]. unfold is_a, isa_edge. rewrite Hedge. simpl. split.
  - intros ?. by exists ed.
  - by intros (? & [= <-] & ?).
Qed.

Lemma step_relationship_total (G : DiGraph) (u v : Z) :
  wf_graph G → described G → has_edge G u v →
  ∃ r, step_relationship G (u, v) = Ok r.
Proof.
  intros Hwf Hdesc [ed Hed]%has_edge_data.
  unfold step_relationship, nx.edges. simpl. rewrite Hed. simpl.
  destruct (get_concept_details_total G u Hdesc (wf_source G u v ed Hwf Hed)) as [cu ->].
  destruct (get_concept_details_total G v Hdesc (wf_target G Hwf u v ed Hed)) as [cv ->].
  simpl. eauto.
Qed.


Lemma pairwise_cons (u v : Z) (l : list Z) :
  nx.pairwise (u :: v :: l) = (u, v) :: nx.pairwise (v :: l).
Proof. done. Qed.

Lemma pairwise_length (u : Z) (l : list Z) : length (nx.pairwise (u :: l)) = length l.
Proof.
  revert u. induction l as [|v l IH]; intros u; [done|].
  rewrite pairwise_cons. simpl. by rewrite IH.
Qed.

Lemma pairwise_chain (G : DiGraph) (u : Z) (l : list Z) :
  chain (has_edge G) u l → Forall (λ e, has_edge G e.1 e.2) (nx.pairwise (u :: l)).
Proof.
  revert u. induction l as [|v l IH]; intros u; [constructor|].
  intros [Huv Hc]. rewrite pairwise_cons. constructor; [done | by apply IH].
Qed.

(** *** The running minimum *)




Lemma path_relationships_length (G : DiGraph) (u : Z) (ext : list Z)
    (rels : list SnomedRelationship) :
  path_relationships G (u :: ext) rels → length rels = length ext.
Proof.
  unfold path_relationships. intros H%Forall2_length. by rewrite pairwise_length in H.
Qed.




(** ** Breadth-first search *)

Lemma last_endpoint {A : Type} (s : A) (ext : list A) :
  last (s :: ext) = Some (endpoint s ext).
Proof.
  unfold endpoint. rewrite last_cons_match. by destruct (last ext).
Qed.

Lemma chain_snoc {A : Type} (R : relation A) (u v : A) (l : list A) :
  chain R u (l ++ [v]) ↔ chain R u l ∧ R (endpoint u l) v.
Proof.
  revert u. induction l as [|w l IH]; intros u; simpl.
  - unfold endpoint. simpl. tauto.
  - rewrite IH, endpoint_cons. tauto.
Qed.

Lemma enqueue_fold (cands : list (list Z)) (seen : list Z) (acc : list (list Z)) :
  ∃ new,
    (foldl nx.enqueue (seen, acc) cands).2 = acc ++ new ∧
    (∀ q, q ∈ new → q ∈ cands ∧ ∃ x, last q = Some x ∧ x ∉ seen) ∧
    (∀ x, x ∈ (foldl nx.enqueue (seen, acc) cands).1 ↔
          x ∈ seen ∨ ∃ q, q ∈ new ∧ last q = Some x) ∧
    (∀ q x, q ∈ cands → last q = Some x → x ∈ (foldl nx.enqueue (seen, acc) cands).1).
Proof.
  revert seen acc. induction cands as [|c cands IH]; intros seen acc; simpl.
  { exists []. rewrite app_nil_r. split; [done|]. split; [by intros ? ?%elem_of_nil|].
    split; [|by intros ? ? ?%elem_of_nil].
    intros x. split; [by left | intros [?|(? & ?%elem_of_nil & _)]; done]. }
  unfold nx.enqueue at 2 4 6. simpl. destruct (last c) as [y|] eqn:Hc.
  - destruct (decide (y ∈ seen)) as [Hy|Hy].
    + destruct (IH seen acc) as (new & H2 & Hnew & Hseen & Hall).
      exists new. split; [done|]. split; [|split].
      * intros q Hq. destruct (Hnew q Hq) as [? ?]. split; [by right | done].
      * done.
      * intros q x [->|Hq]%elem_of_cons Hlast; [|by eapply Hall].
        rewrite Hc in Hlast. injection Hlast as <-. apply Hseen. by left.
    + destruct (IH (y :: seen) (acc ++ [c])) as (new & H2 & Hnew & Hseen & Hall).
      exists (c :: new). split; [by rewrite H2, <- app_assoc|]. split; [|split].
      * intros q [->|Hq]%elem_of_cons.
        -- split; [left | by exists y].
        -- destruct (Hnew q Hq) as [? (x & ? & Hx)]. split; [by right|].
           exists x. split; [done|]. intros ?. apply Hx. by right.
      * intros x. rewrite Hseen, elem_of_cons. split.
        -- intros [[->|?]|(q & Hq & ?)]; [right; exists c; split; [left | done] | by left |].
           right. exists q. split; [by right | done].
        -- intros [?|(q & [->|Hq]%elem_of_cons & Hlast)]; [by left; right | |].
           ++ rewrite Hc in Hlast. injection Hlast as <-. left. by left.
           ++ right. by exists q.
      * intros q x [->|Hq]%elem_of_cons Hlast; [|by eapply Hall].
        rewrite Hc in Hlast. injection Hlast as <-. apply Hseen. left. left.
  - destruct (IH seen acc) as (new & H2 & Hnew & Hseen & Hall).
    exists new. split; [done|]. split; [|split].
    + intros q Hq. destruct (Hnew q Hq) as [? ?]. split; [by right | done].
    + done.
    + intros q x [->|Hq]%elem_of_cons Hlast; [congruence | by eapply Hall].
Qed.

Section bfs.

Context (G : DiGraph) (s : Z).

Lemma level_inv_init : level_inv G s 0 [s] [[s]].
Proof.
  split.
  - intros p ->%list_elem_of_singleton. by exists [].
  - intros x. split.
    + intros (p & ->%list_elem_of_singleton & [= <-]). split; [apply nsteps_O | lia].
    + intros [Hx _]. inversion Hx; subst x. exists [s]. split; [by left | done].
  - intros x. rewrite list_elem_of_singleton. split.
    + intros ->. exists 0%nat. split; [done | apply nsteps_O].
    + intros (j & Hj & Hx). assert (j = 0%nat) as -> by lia. by inversion Hx.
Qed.

Lemma elem_of_extensions (frontier : list (list Z)) (q : list Z) :
  q ∈ frontier ≫= nx.extensions G ↔
  ∃ p u v, p ∈ frontier ∧ last p = Some u ∧ has_edge G u v ∧ q = p ++ [v].
Proof.
  rewrite list_elem_of_bind. unfold nx.extensions. split.
  - intros (p & Hq & Hp). destruct (last p) as [u|] eqn:Hu; [|by apply elem_of_nil in Hq].
    apply list_elem_of_fmap in Hq as (v & -> & Hv). by exists p, u, v.
  - intros (p & u & v & Hp & Hu & Hv & ->). exists p. split; [|done].
    rewrite Hu. apply list_elem_of_fmap. by exists v.
Qed.

Lemma level_inv_next (k : nat) (seen : list Z) (frontier : list (list Z)) :
  level_inv G s k seen frontier →
  level_inv G s (S k) (nx.next_level G seen frontier).1 (nx.next_level G seen frontier).2.
Proof.
  intros [Hwalks Hfront Hseen]. unfold nx.next_level.
  destruct (enqueue_fold (frontier ≫= nx.extensions G) seen [])
    as (new & Hnew2 & Hnew & Hseen' & Hall).
  rewrite Hnew2. simpl.
  assert (∀ q, q ∈ new →
            ∃ ext x, q = s :: ext ∧ chain (has_edge G) s ext ∧ length ext = S k ∧
                     last q = Some x ∧ (x ∉ seen) ∧ reach G s (S k) x) as Hq.
  { intros q [Hq (x & Hx & Hxs)]%Hnew.
    apply elem_of_extensions in Hq as (p & u & v & Hp & Hu & Hv & ->).
    destruct (Hwalks p Hp) as (ext & -> & Hc & Hlen).
    rewrite last_endpoint in Hu. injection Hu as <-.
    rewrite last_snoc in Hx. injection Hx as <-.
    exists (ext ++ [v]), v. split; [done|]. split; [by apply chain_snoc|].
    split; [rewrite length_app; simpl; lia|]. split; [by rewrite last_snoc|].
    split; [done|]. unfold reach. eapply nsteps_r; [|exact Hv].
    apply nsteps_chain. by exists ext. }
  assert (∀ x, (∃ p, p ∈ new ∧ last p = Some x) ↔
               reach G s (S k) x ∧ ∀ j, (j < S k)%nat → ¬ reach G s j x) as Hfront'.
  { intros x. split.
    - intros (q & Hqn & Hlast). destruct (Hq q Hqn) as (ext & x' & _ & _ & _ & Hx' & Hxs & Hr).
      rewrite Hlast in Hx'. injection Hx' as <-. split; [done|].
      intros j Hj Hrj. apply Hxs, Hseen. exists j. split; [lia | done].
    - intros [Hr Hmin]. apply nsteps_inv_r in Hr as (u & Hu & Hux).
      destruct (proj2 (Hfront u)) as (p & Hp & Hlast).
      { split; [done|]. intros j Hj Hrj. apply (Hmin (S j)); [lia|].
        by eapply nsteps_r. }
      assert (x ∈ (foldl nx.enqueue (seen, []) (frontier ≫= nx.extensions G)).1) as Hin.
      { apply (Hall (p ++ [x])); [|by rewrite last_snoc].
        apply elem_of_extensions. by exists p, u, x. }
      apply Hseen' in Hin as [Hin|?]; [|done].
      apply Hseen in Hin as (j & Hj & Hrj). destruct (Hmin j); [lia | done]. }
  split.
  - intros p Hp. destruct (Hq p Hp) as (ext & x & ? & ? & ? & _). by exists ext.
  - done.
  - intros x. rewrite Hseen'. split.
    + intros [Hx|Hx].
      * apply Hseen in Hx as (j & Hj & Hr). exists j. split; [lia | done].
      * apply Hfront' in Hx as [Hr _]. by exists (S k).
    + intros (j & Hj & Hr). destruct (decide (x ∈ seen)) as [?|Hx]; [by left|].
      right. apply Hfront'.
      assert (∀ j', (j' < S k)%nat → ¬ reach G s j' x) as Hmin.
      { intros j' Hj' Hr'. apply Hx, Hseen. exists j'. split; [lia | done]. }
      split; [|done]. destruct (decide (j = S k)) as [->|]; [done|].
      destruct (Hmin j); [lia | done].
Qed.

(** Past level [k] there is a node first reached at level [k + 1]. *)
Lemma level_inv_progress (k : nat) (seen : list Z) (frontier : list (list Z))
    (j : nat) (x : Z) :
  level_inv G s k seen frontier → reach G s j x → x ∉ seen →
  (nx.next_level G seen frontier).2 ≠ [].
Proof.
  intros Hinv Hr Hx.
  assert (∃ a b, a ∈ seen ∧ (b ∉ seen) ∧ has_edge G a b) as (a & b & Ha & Hb & Hab).
  { assert (s ∈ seen) as Hs.
    { apply (inv_seen G s _ _ _ Hinv). exists 0%nat. split; [lia | apply nsteps_O]. }
    clear Hinv. unfold reach in Hr. revert Hs.
    induction Hr as [u|n u v w Huv Hr IH]; intros Hu; [done|].
    destruct (decide (v ∈ seen)) as [Hv|Hv]; [by apply IH | by exists u, v]. }
  apply (inv_seen G s _ _ _ Hinv) in Ha as (i & Hi & Hri).
  pose proof (level_inv_next _ _ _ Hinv) as Hnext.
  destruct (proj2 (inv_frontier G s _ _ _ Hnext b)) as (p & Hp & _).
  { assert (∀ j', (j' < S k)%nat → ¬ reach G s j' b) as Hmin.
    { intros j' Hj' Hr'. apply Hb, (inv_seen G s _ _ _ Hinv). exists j'. split; [lia | done]. }
    split; [|done]. assert (reach G s (S i) b) as Hrb by (by eapply nsteps_r).
    destruct (decide (i = k)) as [->|]; [done|]. destruct (Hmin (S i)); [lia | done]. }
  intros Hnil. rewrite Hnil in Hp. by apply elem_of_nil in Hp.
Qed.

Lemma bfs_spec (t : Z) (fuel k : nat) (seen : list Z) (frontier : list (list Z)) :
  level_inv G s k seen frontier →
  (∀ j, (j < k)%nat → ¬ reach G s j t) →
  match nx.bfs fuel G t seen frontier with
  | Some p =>
      ∃ ext, p = s :: ext ∧ chain (has_edge G) s ext ∧ endpoint s ext = t ∧
             ∀ j, reach G s j t → (length ext ≤ j)%nat
  | None => ∀ j, (j ≤ k + fuel)%nat → ¬ reach G s j t
  end.
Proof.
  revert k seen frontier. induction fuel as [|fuel IH]; intros k seen frontier Hinv Hmin; simpl.
  - destruct (list_find (nx.reaches t) frontier) as [[i p]|] eqn:Hfind; simpl.
    + apply list_find_Some in Hfind as (Hp%list_elem_of_lookup_2 & Hlast & _).
      destruct (inv_walks G s _ _ _ Hinv p Hp) as (ext & -> & Hc & Hlen).
      exists ext. split; [done|]. split; [done|]. unfold nx.reaches in Hlast.
      rewrite last_endpoint in Hlast. injection Hlast as Hlast. split; [done|].
      intros j Hr. destruct (decide (j < k)%nat) as [Hj|]; [by destruct (Hmin j Hj) | lia].
    + apply list_find_None in Hfind. intros j Hj Hr.
      destruct (decide (j < k)%nat) as [Hjk|]; [by destruct (Hmin j Hjk)|].
      assert (j = k) as -> by lia.
      destruct (proj2 (inv_frontier G s _ _ _ Hinv t)) as (p & Hp & Hlast); [done|].
      rewrite Forall_forall in Hfind. by apply (Hfind p Hp).
  - destruct (list_find (nx.reaches t) frontier) as [[i p]|] eqn:Hfind; simpl.
    + apply list_find_Some in Hfind as (Hp%list_elem_of_lookup_2 & Hlast & _).
      destruct (inv_walks G s _ _ _ Hinv p Hp) as (ext & -> & Hc & Hlen).
      exists ext. split; [done|]. split; [done|]. unfold nx.reaches in Hlast.
      rewrite last_endpoint in Hlast. injection Hlast as Hlast. split; [done|].
      intros j Hr. destruct (decide (j < k)%nat) as [Hj|]; [by destruct (Hmin j Hj) | lia].
    + apply list_find_None in Hfind.
      assert (¬ reach G s k t) as Hk.
      { intros Hr. destruct (proj2 (inv_frontier G s _ _ _ Hinv t)) as (p & Hp & Hlast); [done|].
        rewrite Forall_forall in Hfind. by apply (Hfind p Hp). }
      assert (∀ j, (j < S k)%nat → ¬ reach G s j t) as Hmin'.
      { intros j Hj. destruct (decide (j = k)) as [->|]; [done | apply Hmin; lia]. }
      destruct ((nx.next_level G seen frontier).2) as [|q next] eqn:Hnext.
      * intros j _ Hr. eapply level_inv_progress; [exact Hinv | exact Hr | | exact Hnext].
        intros Hs. apply (inv_seen G s _ _ _ Hinv) in Hs as (j' & Hj' & Hr').
        apply (Hmin' j'); [lia | done].
      * rewrite <- Hnext. specialize (IH (S k) _ _ (level_inv_next _ _ _ Hinv) Hmin').
        destruct (nx.bfs fuel G t _ _); [done|].
        intros j Hj. apply IH. lia.
Qed.

End bfs.

(** [nx.shortest_path] between two nodes of the graph returns a path
    with the fewest edges, and raises [NetworkXNoPath] only when there
    is no path. *)
Lemma shortest_path_spec (G : DiGraph) (s t : Z) :
  wf_graph G → nx.contains G s = true → nx.contains G t = true →
  (∃ nodes, nx.shortest_path G s t = Ok nodes ∧ shortest_between G s t nodes) ∨
  (nx.shortest_path G s t = Raise NetworkXNoPath ∧ ∀ nodes, ¬ is_path G s t nodes).
Proof.
  intros Hwf Hs Ht. unfold nx.shortest_path. rewrite Hs, Ht. simpl.
  pose proof (bfs_spec G s t (nx.number_of_nodes G) 0 [s] [[s]] (level_inv_init G s)
                ltac:(lia)) as Hbfs.
  destruct (nx.bfs _ G t [s] [[s]]) as [p|].
  - left. destruct Hbfs as (ext & -> & Hc & He & Hmin). exists (s :: ext).
    split; [done|]. split; [by exists ext|].
    intros nodes' (ext' & -> & Hc' & He'). simpl.
    specialize (Hmin (length ext')). unfold reach in Hmin.
    rewrite nsteps_chain in Hmin. enough (length ext ≤ length ext')%nat by lia.
    apply Hmin. by exists ext'.
  - right. split; [done|]. intros nodes (ext & -> & Hc & He).
    assert (nsteps (has_edge G) (length ext) s t) as Hr by (apply nsteps_chain; by exists ext).
    destruct ext as [|v ext'].
    + apply (Hbfs 0%nat); [lia|]. unfold endpoint in He. simpl in He. subst.
      apply nsteps_O.
    + destruct (nsteps_shorten (has_edge G) (od_keys (_node G)) (length (v :: ext')) s t
                  (λ a b, has_edge_target G a b Hwf) ltac:(simpl; lia) Hr)
        as (m & Hm & _ & Hrm).
      apply (Hbfs m); [|done]. unfold nx.number_of_nodes.
      unfold od_keys in Hm. rewrite length_fmap in Hm. lia.
Qed.

(** ** C3: [find_path] *)

Lemma has_path_spec (G : DiGraph) (s t : Z) :
  wf_graph G → nx.contains G s = true → nx.contains G t = true →
  (nx.has_path G s t = Ok true ∧
   ∃ nodes, nx.shortest_path G s t = Ok nodes ∧ shortest_between G s t nodes) ∨
  (nx.has_path G s t = Ok false ∧ ∀ nodes, ¬ is_path G s t nodes).
Proof.
  intros Hwf Hs Ht. unfold nx.has_path.
  destruct (shortest_path_spec G s t Hwf Hs Ht) as [(nodes & Hn & Hsh)|[Hn Hno]]; rewrite Hn.
  - left. split; [done|]. by exists nodes.
  - by right.
Qed.

Lemma relationships_along (G : DiGraph) (s t : Z) (nodes : list Z) :
  wf_graph G → described G → is_path G s t nodes →
  ∃ rels, res_mapM (step_relationship G) (nx.pairwise nodes) = Ok rels ∧
          path_relationships G nodes rels.
Proof.
  intros Hwf Hdesc (ext & -> & Hc & _).
  destruct (res_mapM_total (step_relationship G) (nx.pairwise (s :: ext))) as [rels Hrels].
  { eapply Forall_impl; [by apply pairwise_chain|]. intros [u v] ?.
    by apply step_relationship_total. }
  exists rels. split; [done|]. apply res_mapM_Ok in Hrels.
  eapply Forall2_impl; [exact Hrels|]. simpl. by intros e r [? _]%step_relationship_Ok.
Qed.

(** The two orders of the arguments give the same result as soon as one
    direction has no path. *)
Lemma find_path_comm (G : DiGraph) (a b : Z) (print_ : bool) :
  (∃ h, nx.has_path G a b = Ok h) → (∃ h, nx.has_path G b a = Ok h) →
  nx.has_path G a b = Ok false ∨ nx.has_path G b a = Ok false →
  find_path G a b print_ = find_path G b a print_.
Proof.
  intros [h1 H1] [h2 H2] Hno. unfold find_path. rewrite H1, H2 in *. simpl.
  destruct h1, h2; simpl; try done. destruct Hno; discriminate.
Qed.

Lemma shortest_path_self (G : DiGraph) (a : Z) :
  nx.contains G a = true → nx.shortest_path G a a = Ok [a].
Proof.
  intros Ha. unfold nx.shortest_path. rewrite Ha. simpl.
  assert (list_find (nx.reaches a) [[a]] = Some (0%nat, [a])) as Hfind.
  { simpl. by rewrite decide_True. }
  destruct (nx.number_of_nodes G); cbn [nx.bfs]; by rewrite Hfind.
Qed.

Lemma res_bind_Ok_r {A : Type} (m : res A) : (let! x := m in Ok x) = m.
Proof. by destruct m. Qed.

Lemma get_concept_details_fsn (G : DiGraph) (n : Z) :
  has_fsn G n → ∃ c, get_concept_details G n = Ok c.
Proof.
  intros (nd & Hnd & f & Hf). unfold get_concept_details, nx.nodes. rewrite Hnd. simpl.
  unfold SnomedConceptDetails_init. rewrite Hf. eauto.
Qed.

Lemma step_relationship_fsn (G : DiGraph) (u v : Z) :
  has_edge G u v → has_fsn G u → has_fsn G v →
  ∃ r, step_relationship G (u, v) = Ok r.
Proof.
  intros [ed Hed]%has_edge_data [cu Hcu]%get_concept_details_fsn
    [cv Hcv]%get_concept_details_fsn.
  unfold step_relationship, nx.edges. simpl. rewrite Hed. simpl.
  rewrite Hcu. simpl. rewrite Hcv. simpl. eauto.
Qed.

(** Along an edge of the graph the only exception is the [TypeError] of
    a concept without a name. *)
Lemma step_relationship_outcome (G : DiGraph) (u v : Z) :
  wf_graph G → has_edge G u v →
  (∃ r, step_relationship G (u, v) = Ok r) ∨ step_relationship G (u, v) = Raise TypeError.
Proof.
  intros Hwf [ed Hed]%has_edge_data.
  unfold step_relationship, nx.edges. simpl. rewrite Hed. simpl.
  destruct (wf_source G u v ed Hwf Hed) as [ndu Hu].
  destruct (wf_target G Hwf u v ed Hed) as [ndv Hv].
  unfold get_concept_details, nx.nodes, SnomedConceptDetails_init.
  rewrite Hu, Hv. simpl.
  destruct (nd_fsn ndu); simpl; [|by right].
  destruct (nd_fsn ndv); simpl; [left; eauto | by right].
Qed.

Lemma res_mapM_outcome {A B : Type} (f : A → res B) (l : list A) (e : exn) :
  Forall (λ x, (∃ y, f x = Ok y) ∨ f x = Raise e) l →
  (∃ l', res_mapM f l = Ok l') ∨ res_mapM f l = Raise e.
Proof.
  induction 1 as [|x l [[y Hy]|Hx] _ [[l' IH]|IH]]; simpl.
  - left. eauto.
  - rewrite Hy, IH. simpl. left. eauto.
  - rewrite Hy, IH. simpl. by right.
  - rewrite Hx. by right.
  - rewrite Hx. by right.
Qed.

Lemma pairwise_elem_of (u v : Z) (l : list Z) :
  (u, v) ∈ nx.pairwise l → u ∈ l ∧ v ∈ l.
Proof.
  unfold nx.pairwise. intros H. split; [by eapply elem_of_zip_l|].
  apply elem_of_zip_r in H. destruct l; [done | by right].
Qed.

Lemma relationships_read (G : DiGraph) (nodes : list Z) (rels : list SnomedRelationship) :
  res_mapM (step_relationship G) (nx.pairwise nodes) = Ok rels →
  path_relationships G nodes rels.
Proof.
  intros Hrels%res_mapM_Ok.
  eapply Forall2_impl; [exact Hrels|]. simpl. by intros e r [? _]%step_relationship_Ok.
Qed.

Lemma relationships_along_fsn (G : DiGraph) (s t : Z) (nodes : list Z) :
  is_path G s t nodes → Forall (has_fsn G) nodes →
  ∃ rels, res_mapM (step_relationship G) (nx.pairwise nodes) = Ok rels.
Proof.
  intros (ext & -> & Hc & _) Hfsn. rewrite Forall_forall in Hfsn.
  apply res_mapM_total. apply Forall_forall. intros [u v] Huv.
  pose proof (pairwise_chain G s ext Hc) as Hedges. rewrite Forall_forall in Hedges.
  destruct (pairwise_elem_of u v _ Huv) as [Hu Hv].
  apply step_relationship_fsn; [exact (Hedges _ Huv) | auto | auto].
Qed.

Lemma relationships_outcome (G : DiGraph) (s t : Z) (nodes : list Z) :
  wf_graph G → is_path G s t nodes →
  (∃ rels, res_mapM (step_relationship G) (nx.pairwise nodes) = Ok rels) ∨
  res_mapM (step_relationship G) (nx.pairwise nodes) = Raise TypeError.
Proof.
  intros Hwf (ext & -> & Hc & _). apply res_mapM_outcome.
  eapply Forall_impl; [by apply pairwise_chain|]. intros [u v] Huv.
  by apply step_relationship_outcome.
Qed.

(** The nodes [find_path] walks along: a path with the fewest edges in
    the direction it takes, or none at all when neither direction has a
    path. *)
Lemma find_path_nodes (G : DiGraph) (a b : Z) :
  wf_graph G → nx.contains G a = true → nx.contains G b = true →
  ∃ nodes,
    find_path G a b false = res_mapM (step_relationship G) (nx.pairwise nodes) ∧
    (path_taken G a b nodes ∨
     ((∀ p, ¬ is_path G a b p) ∧ (∀ p, ¬ is_path G b a p) ∧ nodes = [])).
Proof.
  intros Hwf Ha Hb. unfold find_path.
  destruct (has_path_spec G a b Hwf Ha Hb) as [[-> (nodes & -> & Hsh)]|[-> Hno]]; simpl.
  - exists nodes. split; [apply res_bind_Ok_r|]. left. by left.
  - destruct (has_path_spec G b a Hwf Hb Ha) as [[-> (nodes & -> & Hsh)]|[-> Hno']]; simpl.
    + exists nodes. split; [apply res_bind_Ok_r|]. left. by right.
    + exists []. split; [done|]. by right.
Qed.

(** C3, as the code has it.  For two concepts [a] and [b] of the graph,
    [find_path(a, b)] walks along a directed path with the fewest edges
    from [a] to [b] when there is a path from [a] to [b], otherwise
    along one from [b] to [a] when there is one.  What it returns are
    the relationships along that path, or the empty list when neither
    direction has a path.  It returns whenever every concept on the
    paths it chooses from has a fully specified name; the only
    exception it raises is the [TypeError] of a concept without one.
    When one of the two directions has no path, or [a = b],
    [find_path(b, a)] ends as [find_path(a, b)] does: with the very same
    list. *)
Theorem find_path_shortest (G : DiGraph) (a b : Z) :
  wf_graph G → nx.contains G a = true → nx.contains G b = true →
  (∀ rels, find_path G a b false = Ok rels →
     (∃ nodes, shortest_between G a b nodes ∧ path_relationships G nodes rels) ∨
     ((∀ nodes, ¬ is_path G a b nodes) ∧
      ∃ nodes, shortest_between G b a nodes ∧ path_relationships G nodes rels) ∨
     ((∀ nodes, ¬ is_path G a b nodes) ∧ (∀ nodes, ¬ is_path G b a nodes) ∧ rels = [])) ∧
  ((∀ nodes n, path_taken G a b nodes → n ∈ nodes → has_fsn G n) →
   ∃ rels, find_path G a b false = Ok rels) ∧
  ((∃ rels, find_path G a b false = Ok rels) ∨ find_path G a b false = Raise TypeError) ∧
  (a = b → find_path G a b false = Ok []) ∧
  ((∀ nodes, ¬ is_path G a b nodes) ∨ (∀ nodes, ¬ is_path G b a nodes) ∨ a = b →
   find_path G b a false = find_path G a b false).
Proof.
  intros Hwf Ha Hb.
  destruct (find_path_nodes G a b Hwf Ha Hb) as (nodes & Heq & Hnodes).
  split; [|split; [|split; [|split]]].
  - intros rels Hrels. rewrite Heq in Hrels.
    destruct Hnodes as [[Hsh|[Hno Hsh]]|(Hno & Hno' & ->)].
    + left. exists nodes. split; [done | by apply relationships_read].
    + right. left. split; [done|]. exists nodes. split; [done | by apply relationships_read].
    + right. right. injection Hrels as <-. done.
  - intros Hfsn. rewrite Heq.
    destruct Hnodes as [Htaken|(_ & _ & ->)]; [|by exists []].
    assert (Forall (has_fsn G) nodes) as Hall.
    { apply Forall_forall. intros n Hn. by eapply Hfsn. }
    destruct Htaken as [[Hp _]|[_ [Hp _]]]; by eapply relationships_along_fsn.
  - rewrite Heq. destruct Hnodes as [[[Hp _]|[_ [Hp _]]]|(_ & _ & ->)].
    + by eapply relationships_outcome.
    + by eapply relationships_outcome.
    + left. by exists [].
  - intros <-. unfold find_path, nx.has_path. rewrite (shortest_path_self G a Ha).
    simpl. rewrite ?(shortest_path_self G a Ha). done.
  - intros Hsym. destruct (decide (a = b)) as [->|Hab]; [done|]. apply find_path_comm.
    + destruct (has_path_spec G b a Hwf Hb Ha) as [[-> _]|[-> _]]; eauto.
    + destruct (has_path_spec G a b Hwf Ha Hb) as [[-> _]|[-> _]]; eauto.
    + destruct Hsym as [Hno|[Hno|?]]; [| |done].
      * right. destruct (has_path_spec G a b Hwf Ha Hb) as [[_ (p & _ & [Hp _])]|[-> _]];
          [by destruct (Hno p) | done].
      * left. destruct (has_path_spec G b a Hwf Hb Ha) as [[_ (p & _ & [Hp _])]|[-> _]];
          [by destruct (Hno p) | done].
Qed.

Lemma demo_cycle_wf : wf_graph demo_cycle.graph.
Proof.
  destruct (from_rf2_Ok demo_cycle.relationships demo_cycle.descriptions)
    as (G & log & HG & Hwf & _).
  - apply (bool_decide_unpack _). vm_compute. reflexivity.
  - assert (from_rf2 demo_cycle.relationships demo_cycle.descriptions
            = Ok (demo_cycle.graph, [])) as Heq by (vm_compute; reflexivity).
    rewrite Heq in HG. by injection HG as <- _.
Qed.

Lemma demo_cycle_described : described demo_cycle.graph.
Proof. apply described_Forall, (bool_decide_unpack _). vm_compute. reflexivity. Qed.

Lemma demo_undescribed_wf : wf_graph demo_undescribed.graph.
Proof.
  destruct (from_rf2_Ok demo_undescribed.relationships demo_undescribed.descriptions)
    as (G & log & HG & Hwf & _).
  - apply (bool_decide_unpack _). vm_compute. reflexivity.
  - assert (from_rf2 demo_undescribed.relationships demo_undescribed.descriptions
            = Ok (demo_undescribed.graph, [])) as Heq by (vm_compute; reflexivity).
    rewrite Heq in HG. by injection HG as <- _.
Qed.

(** Where concept 6 is not described, the paths [find_path(2, 1)]
    chooses from are the one path from 1 to 2, and both concepts on it
    have their name. *)
Lemma demo_undescribed_paths (nodes : list Z) (n : Z) :
  path_taken demo_undescribed.graph 2 1 nodes → n ∈ nodes →
  has_fsn demo_undescribed.graph n.
Proof.
  assert (nx.successors demo_undescribed.graph 2 = []) as Hs2 by (vm_compute; reflexivity).
  assert (nx.successors demo_undescribed.graph 1 = [2; 6]) as Hs1 by (vm_compute; reflexivity).
  intros [[(ext & -> & Hc & He) _]|[_ [(ext & -> & Hc & He) Hmin]]] Hn.
  - destruct ext as [|v ext]; [cbv in He; discriminate He|].
    destruct Hc as [Hv _]. unfold has_edge in Hv. rewrite Hs2 in Hv.
    by apply elem_of_nil in Hv.
  - assert (is_path demo_undescribed.graph 1 2 [1; 2]) as Hp.
    { exists [2]. split; [done|]. split; [|done]. split; [|done].
      unfold has_edge. rewrite Hs1. left. }
    specialize (Hmin _ Hp). simpl in Hmin.
    destruct ext as [|v [|w ext]]; simpl in Hmin; [cbv in He; discriminate He | | lia].
    assert (v = 2) as -> by exact He.
    apply elem_of_cons in Hn as [->|Hn]; [|apply list_elem_of_singleton in Hn as ->].
    + eexists. split; [vm_compute; reflexivity|]. simpl. eauto.
    + eexists. split; [vm_compute; reflexivity|]. simpl. eauto.
Qed.

Lemma find_path_shortest_witness :
  (∀ nodes n, path_taken demo_undescribed.graph 2 1 nodes → n ∈ nodes →
              has_fsn demo_undescribed.graph n) ∧
  (∀ rels, find_path demo_undescribed.graph 2 1 false = Ok rels →
     (∃ nodes, shortest_between demo_undescribed.graph 2 1 nodes ∧
               path_relationships demo_undescribed.graph nodes rels) ∨
     ((∀ nodes, ¬ is_path demo_undescribed.graph 2 1 nodes) ∧
      ∃ nodes, shortest_between demo_undescribed.graph 1 2 nodes ∧
               path_relationships demo_undescribed.graph nodes rels) ∨
     ((∀ nodes, ¬ is_path demo_undescribed.graph 2 1 nodes) ∧
      (∀ nodes, ¬ is_path demo_undescribed.graph 1 2 nodes) ∧ rels = [])) ∧
  ((∀ nodes n, path_taken demo_undescribed.graph 2 1 nodes → n ∈ nodes →
               has_fsn demo_undescribed.graph n) →
   ∃ rels, find_path demo_undescribed.graph 2 1 false = Ok rels) ∧
  ((∃ rels, find_path demo_undescribed.graph 2 1 false = Ok rels) ∨
   find_path demo_undescribed.graph 2 1 false = Raise TypeError) ∧
  (2 = 1 → find_path demo_undescribed.graph 2 1 false = Ok []) ∧
  ((∀ nodes, ¬ is_path demo_undescribed.graph 2 1 nodes) ∨
   (∀ nodes, ¬ is_path demo_undescribed.graph 1 2 nodes) ∨ 2 = 1 →
   find_path demo_undescribed.graph 1 2 false = find_path demo_undescribed.graph 2 1 false).
Proof.
  split; [exact demo_undescribed_paths|].
  apply (find_path_shortest demo_undescribed.graph 2 1 demo_undescribed_wf).
  - vm_compute. reflexivity.
  - vm_compute. reflexivity.
Defined.

(** On the cycle, 1 reaches 2 in one step and 2 reaches 1 in two; and
    where concept 6 has no description row, [find_path(1, 6)] raises
    [TypeError]. *)
Lemma find_path_not_as_claimed : ¬ find_path_same_length ∧ ¬ find_path_always_returns.
Proof.
  split.
  - intros H.
    assert (∃ p q, find_path demo_cycle.graph 1 2 false = Ok p ∧
                   find_path demo_cycle.graph 2 1 false = Ok q ∧
                   length p = 1%nat ∧ length q = 2%nat) as (p & q & Hp & Hq & Hlp & Hlq).
    { eexists _, _. split; [vm_compute; reflexivity|]. split; [vm_compute; reflexivity|].
      split; reflexivity. }
    specialize (H demo_cycle.graph 1 2 p q demo_cycle_wf demo_cycle_described Hp Hq). lia.
  - intros H.
    assert (find_path demo_undescribed.graph 1 6 false = Raise TypeError) as Herr
      by (vm_compute; reflexivity).
    destruct (H demo_undescribed.graph 1 6 demo_undescribed_wf) as [rels Hrels];
      [vm_compute; reflexivity | vm_compute; reflexivity |].
    rewrite Herr in Hrels. discriminate Hrels.
Qed.

(** * Further properties *)

(** ** Children and descendants *)

Lemma get_in_relationships_Ok (G : DiGraph) (v : Z) (rs : list SnomedRelationship) :
  get_in_relationships G v = Ok rs →
  ∃ cv d, get_concept_details G v = Ok cv ∧ od_get v (_pred G) = Some d ∧
    Forall2 (λ u r, ∃ cu ed, get_concept_details G u = Ok cu ∧
                       nx.edge_data G u v = Some ed ∧
                       r = SnomedRelationship_init cu cv ed)
            (od_keys d) rs.
Proof.
  unfold get_in_relationships. intros H. inv_res. rename x into cv, x0 into es.
  unfold nx.in_edges in *. destruct (od_get v (_pred G)) as [d|] eqn:Hd; [|done].
  inv_res. exists cv, d. do 2 (split; [done|]).
  apply res_mapM_Ok in H. rewrite Forall2_fmap_l in H.
  eapply Forall2_impl; [exact H|]. simpl. intros u r Hr. inv_res.
  unfold nx.edges in *. simpl in *.
  destruct (nx.edge_data G u v) as [ed|] eqn:Hed; [|done]. inv_res. eauto.
Qed.

Lemma get_children_sound (G : DiGraph) (v : Z) (cs : list SnomedConceptDetails)
    (c : SnomedConceptDetails) :
  get_children G v = Ok cs → c ∈ cs →
  get_concept_details G (sctid c) = Ok c ∧ isa_edge G (sctid c) v.
Proof.
  unfold get_children. intros H Hc. inv_res. rename x into rs.
  apply get_in_relationships_Ok in H0 as (cv & d & _ & Hd & Hrs).
  apply list_elem_of_fmap in Hc as (r & -> & [Hisa Hr]%list_elem_of_filter).
  destruct (Forall2_elem_of_r _ _ _ _ Hrs Hr) as (u & Hu & cu & ed & Hcu & Hed & Hreq).
  subst r. simpl. rewrite (get_concept_details_sctid _ _ _ Hcu). split; [done|].
  exists ed. split; [done | exact Hisa].
Qed.

Lemma get_children_complete (G : DiGraph) (u v : Z) (cs : list SnomedConceptDetails) :
  wf_graph G → get_children G v = Ok cs → isa_edge G u v → ∃ c, c ∈ cs ∧ sctid c = u.
Proof.
  unfold get_children. intros Hwf H (ed & Hed & Hty). inv_res. rename x into rs.
  apply get_in_relationships_Ok in H0 as (cv & d & _ & Hd & Hrs).
  pose proof (proj1 (wf_adj G Hwf u v ed) Hed) as Hpred.
  unfold pred_data in Hpred. rewrite Hd in Hpred.
  assert (u ∈ od_keys d) as Hu by (apply od_get_keys; eauto).
  destruct (Forall2_elem_of_l _ _ _ _ Hrs Hu) as (r & Hr & cu & ed' & Hcu & Hed' & Hreq).
  subst r. exists cu. split; [|by eapply get_concept_details_sctid].
  apply list_elem_of_fmap. eexists. split; [|apply list_elem_of_filter; split; [|done]].
  - done.
  - unfold is_a. simpl. congruence.
Qed.

(** Walks of "is a" edges, read from their far end. *)
Lemma isa_within_step_r (G : DiGraph) (k x u : Z) :
  1 < k →
  isa_within G k x u ↔
  isa_edge G x u ∨ ∃ v, isa_edge G v u ∧ isa_within G (k - 1) x v.
Proof.
  intros Hk. split.
  - intros (n & Hn & Hnk & Hsteps). destruct n as [|n]; [lia|].
    apply nsteps_inv_r in Hsteps as (v & Hxv & Hvu).
    destruct n as [|n].
    + inversion Hxv; subst. by left.
    + right. exists v. split; [done|]. exists (S n). repeat split; [lia | lia | done].
  - intros [?|(v & Hvu & n & ? & ? & ?)].
    + exists 1%nat. repeat split; [lia | lia | by apply nsteps_once].
    + exists (S n). repeat split; [lia | lia | by eapply nsteps_r].
Qed.

Lemma get_descendants_fuel_spec (fuel : nat) (G : DiGraph) (id : Z)
    (steps_removed : option Z) (s : cset) :
  wf_graph G →
  get_descendants_fuel fuel G id steps_removed = Ok s →
  details_of G s ∧
  ∀ x, x ∈ dom s ↔ isa_within G (steps_or_default steps_removed) x id.
Proof.
  intros Hwf. revert id steps_removed s.
  induction fuel as [|fuel IH]; intros id steps s H; [done|].
  simpl in H.
  apply res_bind_Ok in H as (k & Hk & H). apply check_steps_removed_Ok in Hk as [Hk Hpos].
  rewrite <- Hk. clear Hk steps.
  apply res_bind_Ok in H as (cs & Hcs & H).
  assert (details_of G (set_ cs)) as Hset.
  { intros x c [Hc <-]%set_lookup. by eapply get_children_sound. }
  assert (∀ x, x ∈ dom (set_ cs) ↔ isa_edge G x id) as Hdomset.
  { intros x. rewrite set_dom. split.
    - intros (c & Hc & <-). by eapply get_children_sound.
    - intros Hx. by eapply get_children_complete. }
  case_bool_decide as Hk1.
  - apply (foldM_union_Ok (λ c, get_descendants_fuel fuel G (sctid c) (Some (k - 1))))
      in H as (rs & Hrs & ->).
    split.
    + apply details_of_foldl_union; [done|]. apply Forall_forall. intros r Hr.
      destruct (Forall2_elem_of_r _ _ _ _ Hrs Hr) as (c & _ & Hc). by apply IH in Hc as [? _].
    + intros x. rewrite dom_foldl_union, Hdomset, isa_within_step_r by lia.
      split; (intros [?|Hr]; [by left | right]).
      * destruct Hr as (r & Hr & Hxr).
        destruct (Forall2_elem_of_r _ _ _ _ Hrs Hr) as (c & Hc & Hgc).
        apply IH in Hgc as [_ Hgc]. apply Hgc in Hxr.
        exists (sctid c). split; [by eapply get_children_sound | done].
      * destruct Hr as (v & Hvu & Hxv).
        destruct (get_children_complete _ _ _ _ Hwf Hcs Hvu) as (c & Hc & <-).
        destruct (Forall2_elem_of_l _ _ _ _ Hrs Hc) as (r & Hr & Hgc).
        exists r. split; [done|]. apply IH in Hgc as [_ Hgc]. by apply Hgc.
  - injection H as <-. split; [done|]. intros x.
    assert (k = 1) as -> by lia. by rewrite isa_within_one.
Qed.

Lemma get_descendants_fuel_total (fuel : nat) (G : DiGraph) (id : Z)
    (steps_removed : option Z) :
  wf_graph G → described G → is_Some (od_get id (_node G)) →
  valid_steps steps_removed →
  (call_depth (steps_or_default steps_removed) ≤ fuel)%nat →
  ∃ s, get_descendants_fuel fuel G id steps_removed = Ok s.
Proof.
  intros Hwf Hdesc. revert id steps_removed.
  induction fuel as [|fuel IH]; intros id steps Hid Hvalid Hfuel.
  { pose proof (call_depth_pos (steps_or_default steps)). lia. }
  simpl.
  assert (check_steps_removed steps = Ok (steps_or_default steps)) as ->.
  { apply check_steps_removed_Ok. split; [done|].
    destruct steps; simpl in *; [done | unfold unbounded_steps; lia]. }
  simpl. set (k := steps_or_default steps) in *.
  destruct (get_children_total G id Hwf Hdesc Hid) as [cs Hcs]. rewrite Hcs. simpl.
  case_bool_decide as Hk; simpl; [|eauto].
  destruct (foldM_union_total
    (λ c, get_descendants_fuel fuel G (sctid c) (Some (k - 1))) cs (set_ cs)) as [s Hs].
  { intros c Hc. apply IH.
    - eapply get_concept_details_node, get_children_sound; done.
    - simpl. lia.
    - simpl. rewrite call_depth_pred in Hfuel by done. lia. }
  unfold union_loop in Hs. rewrite Hs. eauto.
Qed.
Lemma relationship_of_edge_is_a (G : DiGraph) (u v : Z) (r : SnomedRelationship) :
  relationship_of_edge G u v r →
  (is_a r ↔ isa_edge G u v) ∧ sctid (src r) = u ∧ sctid (tgt r) = v ∧
  get_concept_details G u = Ok (src r) ∧ get_concept_details G v = Ok (tgt r).
Proof.
  intros (cu & cv & ed & Hcu & Hcv & Hed & ->). simpl.
  rewrite (get_concept_details_sctid _ _ _ Hcu), (get_concept_details_sctid _ _ _ Hcv).
  repeat split; try done.
  - intros Hisa. by exists ed.
  - intros (ed' & Hed' & Hty). unfold is_a. simpl. congruence.
Qed.

Lemma parents_of_edges (G : DiGraph) (u : Z) (vs : list Z) (rs : list SnomedRelationship) :
  Forall2 (relationship_of_edge G u) vs rs →
  sctid <$> (tgt <$> filter is_a rs) = filter (isa_edge G u) vs.
Proof.
  induction 1 as [|v r vs rs Hr _ IH]; [done|].
  apply relationship_of_edge_is_a in Hr as (Hisa & _ & Htgt & _).
  destruct (decide (is_a r)) as [Hr|Hr].
  - rewrite filter_cons_True by done. rewrite (filter_cons_True _ v) by (by apply Hisa).
    rewrite !fmap_cons. by rewrite Htgt, IH.
  - rewrite filter_cons_False by done. rewrite (filter_cons_False _ v); [done|].
    by rewrite <- Hisa.
Qed.

Lemma children_of_edges (G : DiGraph) (v : Z) (us : list Z) (rs : list SnomedRelationship) :
  Forall2 (λ u r, relationship_of_edge G u v r) us rs →
  sctid <$> (src <$> filter is_a rs) = filter (λ u, isa_edge G u v) us.
Proof.
  induction 1 as [|u r us rs Hr _ IH]; [done|].
  apply relationship_of_edge_is_a in Hr as (Hisa & Hsrc & _).
  destruct (decide (is_a r)) as [Hr|Hr].
  - rewrite filter_cons_True by done. rewrite (filter_cons_True _ u) by (by apply Hisa).
    rewrite !fmap_cons. by rewrite Hsrc, IH.
  - rewrite filter_cons_False by done. rewrite (filter_cons_False _ u); [done|].
    by rewrite <- Hisa.
Qed.

Lemma get_in_relationships_edges (G : DiGraph) (v : Z) (rs : list SnomedRelationship) :
  get_in_relationships G v = Ok rs →
  Forall2 (λ u r, relationship_of_edge G u v r) (nx.predecessors G v) rs.
Proof.
  intros (cv & d & Hcv & Hd & Hrs)%get_in_relationships_Ok.
  unfold nx.predecessors. rewrite Hd.
  eapply Forall2_impl; [exact Hrs|]. simpl.
  intros u r (cu & ed & Hcu & Hed & ->). by exists cu, cv, ed.
Qed.

Lemma get_parents_keys (G : DiGraph) (u : Z) (ps : list SnomedConceptDetails) :
  get_parents G u = Ok ps →
  sctid <$> ps = filter (isa_edge G u) (nx.successors G u).
Proof.
  unfold get_parents. intros H. inv_res.
  by apply parents_of_edges, get_out_relationships_edges.
Qed.

Lemma get_children_keys (G : DiGraph) (v : Z) (cs : list SnomedConceptDetails) :
  get_children G v = Ok cs →
  sctid <$> cs = filter (λ u, isa_edge G u v) (nx.predecessors G v).
Proof.
  unfold get_children. intros H. inv_res.
  by apply children_of_edges, get_in_relationships_edges.
Qed.

(** X1. When [get_parents(u)] returns, it lists the concepts at the far
    end of the outgoing edges of [u] typed "is a", one per edge, in the
    order of the adjacency of [u], each with the details the graph
    stores for it; [get_children(v)] does the same with the incoming
    edges of [v]. *)
Theorem parents_and_children_listed (G : DiGraph) (id : Z) :
  (∀ ps, get_parents G id = Ok ps →
     sctid <$> ps = filter (isa_edge G id) (nx.successors G id) ∧
     Forall (λ p, get_concept_details G (sctid p) = Ok p) ps) ∧
  (∀ cs, get_children G id = Ok cs →
     sctid <$> cs = filter (λ u, isa_edge G u id) (nx.predecessors G id) ∧
     Forall (λ c, get_concept_details G (sctid c) = Ok c) cs).
Proof.
  split.
  - intros ps Hps. split; [by apply get_parents_keys|].
    apply Forall_forall. intros p Hp. by eapply get_parents_sound.
  - intros cs Hcs. split; [by apply get_children_keys|].
    apply Forall_forall. intros c Hc. by eapply get_children_sound.
Qed.

Lemma parents_and_children_listed_witness :
  (∃ ps, get_parents demo.graph 1 = Ok ps ∧
     sctid <$> ps = filter (isa_edge demo.graph 1) (nx.successors demo.graph 1) ∧
     Forall (λ p, get_concept_details demo.graph (sctid p) = Ok p) ps) ∧
  (∃ cs, get_children demo.graph 2 = Ok cs ∧
     sctid <$> cs = filter (λ u, isa_edge demo.graph u 2) (nx.predecessors demo.graph 2) ∧
     Forall (λ c, get_concept_details demo.graph (sctid c) = Ok c) cs).
Proof.
  split.
  - eexists. split; [reflexivity|].
    apply (proj1 (parents_and_children_listed demo.graph 1)). reflexivity.
  - eexists. split; [reflexivity|].
    apply (proj2 (parents_and_children_listed demo.graph 2)). reflexivity.
Defined.
(** X2. In a well-formed graph whose concepts are all described, the
    parent and child views agree: [v] is among [get_parents(u)] exactly
    when [u] is among [get_children(v)], which is when the edge from [u]
    to [v] is typed "is a". *)
Theorem parents_children_dual (G : DiGraph) (u v : Z) :
  wf_graph G → described G → nx.contains G u = true → nx.contains G v = true →
  ∃ ps cs,
    get_parents G u = Ok ps ∧ get_children G v = Ok cs ∧
    (v ∈ sctid <$> ps ↔ isa_edge G u v) ∧
    (u ∈ sctid <$> cs ↔ isa_edge G u v).
Proof.
  intros Hwf Hdesc Hu%contains_spec Hv%contains_spec.
  destruct (get_parents_total G u Hwf Hdesc Hu) as [ps Hps].
  destruct (get_children_total G v Hwf Hdesc Hv) as [cs Hcs].
  exists ps, cs. do 2 (split; [done|]). split.
  - rewrite list_elem_of_fmap. split.
    + intros (c & -> & Hc). by eapply get_parents_sound.
    + intros Huv. destruct (get_parents_complete _ _ _ _ Hps Huv) as (c & ? & <-). eauto.
  - rewrite list_elem_of_fmap. split.
    + intros (c & -> & Hc). by eapply get_children_sound.
    + intros Huv. destruct (get_children_complete _ _ _ _ Hwf Hcs Huv) as (c & ? & <-). eauto.
Qed.

Lemma parents_children_dual_witness :
  ∃ ps cs,
    get_parents demo.graph 1 = Ok ps ∧ get_children demo.graph 2 = Ok cs ∧
    (2 ∈ sctid <$> ps ↔ isa_edge demo.graph 1 2) ∧
    (1 ∈ sctid <$> cs ↔ isa_edge demo.graph 1 2).
Proof.
  apply (parents_children_dual demo.graph 1 2 demo_graph_wf demo_graph_described).
  - vm_compute. reflexivity.
  - vm_compute. reflexivity.
Defined.

(** X3. Under whatever recursion limit, when [get_ancestors] returns for
    a depth [k] (99999 when unset), its result holds exactly the
    concepts other than the root that are reached from the concept by
    following between 1 and [k] "is a" edges, each with the details the
    graph stores for it.  Walks through the root count: only the root
    itself is left out. *)
Theorem ancestors_exact (limit : nat) (G : DiGraph) (id : Z)
    (steps_removed : option Z) (s : cset) :
  get_ancestors_fuel limit G id steps_removed = Ok s →
  (∀ x, x ∈ dom s ↔
        x ≠ root_concept_id ∧ isa_within G (steps_or_default steps_removed) id x) ∧
  (∀ x c, s !! x = Some c → get_concept_details G x = Ok c).
Proof.
  intros Hs. apply get_ancestors_fuel_spec in Hs as [Hdet Hdom]. done.
Qed.

Lemma ancestors_exact_witness :
  ∃ s, get_ancestors_fuel 2 demo.graph 1 (Some 2) = Ok s ∧
    (∀ x, x ∈ dom s ↔ x ≠ root_concept_id ∧ isa_within demo.graph 2 1 x) ∧
    (∀ x c, s !! x = Some c → get_concept_details demo.graph x = Ok c).
Proof.
  eexists. split; [reflexivity|].
  apply (ancestors_exact 2 demo.graph 1 (Some 2)). reflexivity.
Defined.

(** X4. In a well-formed graph and under whatever recursion limit, when
    [get_descendants] returns for a depth [k] (99999 when unset), its
    result holds exactly the concepts from which the concept is reached
    by following between 1 and [k] "is a" edges, each with the details
    the graph stores for it.  Unlike [get_ancestors] it does not leave
    the root out. *)
Theorem descendants_exact (limit : nat) (G : DiGraph) (id : Z)
    (steps_removed : option Z) (s : cset) :
  wf_graph G →
  get_descendants_fuel limit G id steps_removed = Ok s →
  (∀ x, x ∈ dom s ↔ isa_within G (steps_or_default steps_removed) x id) ∧
  (∀ x c, s !! x = Some c → get_concept_details G x = Ok c).
Proof.
  intros Hwf Hs. apply get_descendants_fuel_spec in Hs as [Hdet Hdom]; done.
Qed.

Lemma descendants_exact_witness :
  ∃ s, get_descendants_fuel 3 demo.graph 3 None = Ok s ∧
    (∀ x, x ∈ dom s ↔ isa_within demo.graph 99999 x 3) ∧
    (∀ x c, s !! x = Some c → get_concept_details demo.graph x = Ok c).
Proof.
  eexists. split; [reflexivity|].
  apply (descendants_exact 3 demo.graph 3 None _ demo_graph_wf). reflexivity.
Defined.

(** X5. Ancestors and descendants are two views of one relation: in a
    well-formed graph, when [get_ancestors(y, k)] and
    [get_descendants(x, k)] both return for one depth [k] (set or
    unset), [x] other than the root is among the ancestors of [y]
    exactly when [y] is among the descendants of [x]. *)
Theorem ancestors_descendants_dual (limit limit' : nat) (G : DiGraph) (x y : Z)
    (steps_removed : option Z) (anc desc : cset) :
  wf_graph G → x ≠ root_concept_id →
  get_ancestors_fuel limit G y steps_removed = Ok anc →
  get_descendants_fuel limit' G x steps_removed = Ok desc →
  (x ∈ dom anc ↔ y ∈ dom desc).
Proof.
  intros Hwf Hroot Hanc Hdes.
  apply get_ancestors_fuel_spec in Hanc as [_ Hanc].
  apply get_descendants_fuel_spec in Hdes as [_ Hdes]; [|done].
  rewrite Hanc, Hdes. tauto.
Qed.

Lemma ancestors_descendants_dual_witness :
  ∃ anc desc,
    get_ancestors_fuel 5 demo.graph 1 (Some 5) = Ok anc ∧
    get_descendants_fuel 5 demo.graph 3 (Some 5) = Ok desc ∧
    (3 ∈ dom anc ↔ 1 ∈ dom desc).
Proof.
  eexists _, _. split; [reflexivity|]. split; [reflexivity|].
  apply (ancestors_descendants_dual 5 5 demo.graph 3 1 (Some 5) _ _ demo_graph_wf).
  - unfold root_concept_id. lia.
  - reflexivity.
  - reflexivity.
Defined.

Lemma get_descendants_None (G : DiGraph) (id : Z) :
  get_descendants G id None = get_descendants G id (Some unbounded_steps).
Proof.
  unfold get_descendants.
  change (steps_or_default None) with unbounded_steps.
  change (steps_or_default (Some unbounded_steps)) with unbounded_steps.
  generalize (call_depth unbounded_steps). intros [|n]; [done|].
  cbn [get_descendants_fuel]. done.
Qed.

(** X6. [get_descendants] grows with the depth: in a well-formed graph
    the result for depth [k] is included in the result for any larger
    depth, and an unset depth gives the result of depth 99999. *)
Theorem descendants_grow_with_depth (G : DiGraph) (id : Z) (k k' : Z)
    (s s' : cset) :
  wf_graph G → k ≤ k' →
  get_descendants G id (Some k) = Ok s → get_descendants G id (Some k') = Ok s' →
  s ⊆ s' ∧ get_descendants G id None = get_descendants G id (Some 99999).
Proof.
  intros Hwf Hk Hs Hs'. split; [|apply get_descendants_None].
  unfold get_descendants in *.
  apply get_descendants_fuel_spec in Hs as [Hdet Hdom]; [|done].
  apply get_descendants_fuel_spec in Hs' as [Hdet' Hdom']; [|done].
  apply (details_of_subseteq G); [done | done |].
  intros x. rewrite Hdom, Hdom'. simpl. by apply isa_within_mono.
Qed.

Lemma descendants_grow_with_depth_witness :
  ∃ s s', get_descendants demo.graph 3 (Some 1) = Ok s ∧
          get_descendants demo.graph 3 (Some 2) = Ok s' ∧
          s ⊆ s' ∧
          get_descendants demo.graph 3 None = get_descendants demo.graph 3 (Some 99999).
Proof.
  eexists _, _. split; [reflexivity|]. split; [reflexivity|].
  apply (descendants_grow_with_depth demo.graph 3 1 2 _ _ demo_graph_wf).
  - lia.
  - reflexivity.
  - reflexivity.
Defined.
(** ** The neighbourhood *)

Lemma kin_within_one (G : DiGraph) (u x : Z) : kin_within G 1 u x ↔ kin G u x.
Proof.
  split.
  - intros (n & ? & ? & Hn). assert (n = 1%nat) as -> by lia. by apply nsteps_once_inv.
  - intros ?. exists 1%nat. repeat split; [lia | lia | by apply nsteps_once].
Qed.

Lemma kin_within_step (G : DiGraph) (k u x : Z) :
  1 < k →
  kin_within G k u x ↔ kin G u x ∨ ∃ v, kin G u v ∧ kin_within G (k - 1) v x.
Proof.
  intros Hk. split.
  - intros (n & Hn & Hnk & Hsteps). inversion Hsteps as [|n' ? v ? Huv Hrest]; subst; [lia|].
    destruct n' as [|n'].
    + inversion Hrest; subst. by left.
    + right. exists v. split; [done|]. exists (S n'). repeat split; [lia | lia | done].
  - intros [?|(v & Huv & n & ? & ? & ?)].
    + exists 1%nat. repeat split; [lia | lia | by apply nsteps_once].
    + exists (S n). repeat split; [lia | lia | by eapply nsteps_l].
Qed.

(** The loop of [get_neighbourhood] is a loop of unions. *)
Lemma neighbourhood_loop (F : SnomedConceptDetails → res (list SnomedConceptDetails))
    (l : list SnomedConceptDetails) (acc : cset) :
  foldM (λ neighbourhood n, let! r := F n in Ok (neighbourhood ∪ set_ r)) l acc
  = foldM (union_loop (λ n, let! r := F n in Ok (set_ r))) l acc.
Proof.
  apply foldM_ext_in. intros b n _. unfold union_loop. by destruct (F n).
Qed.

Lemma details_of_keyed (G : DiGraph) (s : cset) : details_of G s → keyed s.
Proof. intros H x c Hc. by eapply get_concept_details_sctid, H. Qed.

Lemma keyed_elements (s : cset) : keyed s → sctid <$> set_elements s = (map_to_list s).*1.
Proof.
  intros Hs. unfold set_elements. rewrite <- list_fmap_compose.
  apply list_fmap_ext. intros i [x c] Hi. simpl.
  apply (Hs x c). apply elem_of_map_to_list. by eapply list_elem_of_lookup_2.
Qed.

Lemma keyed_elem_of (s : cset) (x : Z) :
  keyed s → x ∈ sctid <$> set_elements s ↔ x ∈ dom s.
Proof.
  intros Hs. rewrite keyed_elements by done.
  rewrite elem_of_dom, list_elem_of_fmap. split.
  - intros ([x' c] & -> & Hc%elem_of_map_to_list). eauto.
  - intros [c Hc]. exists (x, c). split; [done | by apply elem_of_map_to_list].
Qed.
Lemma get_neighbourhood_fuel_spec (fuel : nat) (G : DiGraph) (id k : Z)
    (l : list SnomedConceptDetails) :
  wf_graph G →
  get_neighbourhood_fuel fuel G id k = Ok l →
  Forall (λ c, get_concept_details G (sctid c) = Ok c) l ∧
  NoDup (sctid <$> l) ∧
  ∀ x, x ∈ sctid <$> l ↔
       x ≠ id ∧ x ≠ root_concept_id ∧ kin_within G k id x.
Proof.
  intros Hwf. revert id k l. induction fuel as [|fuel IH]; intros id k l H; [done|].
  simpl in H. case_bool_decide as Hpos; [|done].
  apply res_bind_Ok in H as (ps & Hps & H).
  apply res_bind_Ok in H as (cs & Hcs & H).
  apply res_bind_Ok in H as (nb & Hnb & [= <-]).
  set (nb0 := set_ ps ∪ set_ cs) in *.
  assert (details_of G nb0) as Hdet0.
  { apply details_of_union; intros x c [Hc <-]%set_lookup.
    - by eapply get_parents_sound.
    - by eapply get_children_sound. }
  assert (∀ x, x ∈ dom nb0 ↔ kin G id x) as Hdom0.
  { intros x. unfold nb0, kin. rewrite dom_union, elem_of_union, !set_dom. split.
    - intros [(c & Hc & <-)|(c & Hc & <-)].
      + left. by eapply get_parents_sound.
      + right. by eapply get_children_sound.
    - intros [Hx|Hx].
      + left. by eapply get_parents_complete.
      + right. by eapply get_children_complete. }
  assert (details_of G nb ∧ ∀ x, x ≠ id → x ≠ root_concept_id →
            x ∈ dom nb ↔ kin_within G k id x) as [Hdet Hdom].
  { case_bool_decide as Hk1.
    - rewrite neighbourhood_loop in Hnb.
      apply foldM_union_Ok in Hnb as (rs & Hrs & ->).
      assert (∀ n r, n ∈ set_elements nb0 →
                (let! ln := get_neighbourhood_fuel fuel G (sctid n) (k - 1) in Ok (set_ ln))
                = Ok r →
                kin G id (sctid n) ∧ details_of G r ∧
                ∀ x, x ∈ dom r ↔
                     x ≠ sctid n ∧ x ≠ root_concept_id ∧ kin_within G (k - 1) (sctid n) x)
        as Hstep.
      { intros n r Hn Hr. apply res_bind_Ok in Hr as (ln & Hln & [= <-]).
        apply IH in Hln as (Hall & _ & Hln). split; [|split].
        - apply Hdom0. apply keyed_elem_of; [by eapply details_of_keyed|].
          apply list_elem_of_fmap. eauto.
        - intros x c [Hc <-]%set_lookup. rewrite Forall_forall in Hall. by apply Hall.
        - intros x. rewrite <- Hln, set_dom, list_elem_of_fmap.
          split; intros (c & ? & ?); exists c; done. }
      split.
      + apply details_of_foldl_union; [done|]. apply Forall_forall. intros r Hr.
        destruct (Forall2_elem_of_r _ _ _ _ Hrs Hr) as (n & Hn & Hnr).
        by destruct (Hstep n r Hn Hnr) as (_ & ? & _).
      + intros x Hxid Hxroot. rewrite dom_foldl_union, Hdom0, kin_within_step by lia.
        split; (intros [?|Hr]; [by left|]).
        * destruct Hr as (r & Hr & Hxr).
          destruct (Forall2_elem_of_r _ _ _ _ Hrs Hr) as (n & Hn & Hnr).
          destruct (Hstep n r Hn Hnr) as (Hkin & _ & Hxn).
          destruct (proj1 (Hxn x) Hxr) as (_ & _ & Hxr'). right. eauto.
        * destruct Hr as (v & Hkin & Hvx).
          destruct (decide (x = v)) as [->|Hxv]; [by left|]. right.
          assert (v ∈ sctid <$> set_elements nb0) as (n & -> & Hn)%list_elem_of_fmap.
          { apply keyed_elem_of; [by eapply details_of_keyed | by apply Hdom0]. }
          destruct (Forall2_elem_of_l _ _ _ _ Hrs Hn) as (r & Hr & Hnr).
          destruct (Hstep n r Hn Hnr) as (_ & _ & Hxn).
          exists r. split; [done|]. by apply Hxn.
    - injection Hnb as <-. split; [done|]. intros x _ _.
      assert (k = 1) as -> by lia. by rewrite kin_within_one. }
  pose proof (details_of_keyed G nb Hdet) as Hkeyed.
  split; [|split].
  - apply Forall_forall. intros c [_ Hc]%list_elem_of_filter.
    apply elem_of_set_elements in Hc as [x Hc].
    pose proof (Hkeyed _ _ Hc) as ->. by apply Hdet.
  - eapply (sublist_NoDup _ (sctid <$> set_elements nb)).
    + rewrite keyed_elements by done. apply NoDup_fst_map_to_list.
    + apply fmap_sublist, sublist_filter.
  - intros x. rewrite list_elem_of_fmap. split.
    + intros (c & -> & [Hnot Hc]%list_elem_of_filter).
      rewrite !not_elem_of_cons in Hnot. destruct Hnot as (Hid & Hroot & _).
      do 2 (split; [done|]). apply Hdom; [done | done |].
      apply keyed_elem_of; [done|]. apply list_elem_of_fmap. eauto.
    + intros (Hid & Hroot & Hx). apply Hdom in Hx; [|done|done].
      apply keyed_elem_of in Hx as (c & -> & Hc)%list_elem_of_fmap; [|done].
      exists c. split; [done|]. apply list_elem_of_filter. split; [|done].
      rewrite !not_elem_of_cons. split; [done|]. split; [done | apply not_elem_of_nil].
Qed.
Lemma get_neighbourhood_fuel_total (fuel : nat) (G : DiGraph) (id k : Z) :
  wf_graph G → described G → is_Some (od_get id (_node G)) → 0 < k →
  (call_depth k ≤ fuel)%nat →
  ∃ l, get_neighbourhood_fuel fuel G id k = Ok l.
Proof.
  intros Hwf Hdesc. revert id k.
  induction fuel as [|fuel IH]; intros id k Hid Hk Hfuel.
  { pose proof (call_depth_pos k). lia. }
  simpl. rewrite bool_decide_true by lia.
  destruct (get_parents_total G id Hwf Hdesc Hid) as [ps Hps]. rewrite Hps. simpl.
  destruct (get_children_total G id Hwf Hdesc Hid) as [cs Hcs]. rewrite Hcs. simpl.
  case_bool_decide as Hk1; simpl; [|eauto].
  rewrite neighbourhood_loop.
  edestruct (foldM_union_total
    (λ n, let! r := get_neighbourhood_fuel fuel G (sctid n) (k - 1) in Ok (set_ r))
    (set_elements (set_ ps ∪ set_ cs)) (set_ ps ∪ set_ cs)) as [s Hs].
  { intros n [x Hn]%elem_of_set_elements.
    destruct (IH (sctid n) (k - 1)) as [l ->]; [| lia | | simpl; eauto].
    - apply lookup_union_Some_raw in Hn as [Hn|[_ Hn]];
        apply set_lookup in Hn as [Hn _].
      + eapply get_concept_details_node, get_parents_sound; done.
      + eapply get_concept_details_node, get_children_sound; done.
    - rewrite call_depth_pred in Hfuel by done. lia. }
  rewrite Hs. simpl. eauto.
Qed.

(** X7. In a well-formed graph and under whatever recursion limit, when
    [get_neighbourhood] returns for a depth [k], its result lists, each
    once and with the details the graph stores for it, exactly the
    concepts other than the concept itself and the root that are reached
    from it by between 1 and [k] steps along "is a" edges taken in
    either direction.  Steps through the root count. *)
Theorem neighbourhood_exact (limit : nat) (G : DiGraph) (id k : Z)
    (l : list SnomedConceptDetails) :
  wf_graph G →
  get_neighbourhood_fuel limit G id k = Ok l →
  NoDup (sctid <$> l) ∧
  (∀ x, x ∈ sctid <$> l ↔ x ≠ id ∧ x ≠ root_concept_id ∧ kin_within G k id x) ∧
  Forall (λ c, get_concept_details G (sctid c) = Ok c) l.
Proof.
  intros Hwf Hl. apply get_neighbourhood_fuel_spec in Hl as (? & ? & ?); done.
Qed.

Lemma neighbourhood_exact_witness :
  ∃ l, get_neighbourhood_fuel 2 demo.graph 2 2 = Ok l ∧
    NoDup (sctid <$> l) ∧
    (∀ x, x ∈ sctid <$> l ↔
          x ≠ 2 ∧ x ≠ root_concept_id ∧ kin_within demo.graph 2 2 x) ∧
    Forall (λ c, get_concept_details demo.graph (sctid c) = Ok c) l.
Proof.
  eexists. split; [reflexivity|].
  apply (neighbourhood_exact 2 demo.graph 2 2 _ demo_graph_wf). reflexivity.
Defined.

Lemma kin_sym (G : DiGraph) (u v : Z) : kin G u v → kin G v u.
Proof. unfold kin. tauto. Qed.

Lemma nsteps_kin_sym (G : DiGraph) (n : nat) (u v : Z) :
  nsteps (kin G) n u v → nsteps (kin G) n v u.
Proof.
  induction 1 as [|n u w v Huw _ IH]; [constructor|].
  eapply nsteps_r; [exact IH | by apply kin_sym].
Qed.

Lemma kin_within_sym (G : DiGraph) (k u v : Z) : kin_within G k u v → kin_within G k v u.
Proof. intros (n & ? & ? & ?). exists n. eauto using nsteps_kin_sym. Qed.

(** X8. Being in the neighbourhood is symmetric: in a well-formed graph,
    for two concepts [x] and [y], neither of them the root, and one
    depth [k], when [get_neighbourhood(x, k)] and
    [get_neighbourhood(y, k)] both return, [y] is in the first exactly
    when [x] is in the second. *)
Theorem neighbourhood_symmetric (limit limit' : nat) (G : DiGraph) (x y k : Z)
    (lx ly : list SnomedConceptDetails) :
  wf_graph G → x ≠ root_concept_id → y ≠ root_concept_id →
  get_neighbourhood_fuel limit G x k = Ok lx →
  get_neighbourhood_fuel limit' G y k = Ok ly →
  (y ∈ sctid <$> lx ↔ x ∈ sctid <$> ly).
Proof.
  intros Hwf Hxr Hyr Hlx Hly.
  apply get_neighbourhood_fuel_spec in Hlx as (_ & _ & Hlx); [|done].
  apply get_neighbourhood_fuel_spec in Hly as (_ & _ & Hly); [|done].
  rewrite Hlx, Hly.
  split; intros (? & ? & ?%kin_within_sym); repeat split; done.
Qed.

Lemma neighbourhood_symmetric_witness :
  ∃ lx ly,
    get_neighbourhood_fuel 2 demo.graph 1 2 = Ok lx ∧
    get_neighbourhood_fuel 2 demo.graph 3 2 = Ok ly ∧
    (3 ∈ sctid <$> lx ↔ 1 ∈ sctid <$> ly).
Proof.
  eexists _, _. split; [reflexivity|]. split; [reflexivity|].
  apply (neighbourhood_symmetric 2 2 demo.graph 1 3 2 _ _ demo_graph_wf).
  - unfold root_concept_id. lia.
  - unfold root_concept_id. lia.
  - reflexivity.
  - reflexivity.
Defined.

Lemma isa_within_kin (G : DiGraph) (k u x : Z) :
  isa_within G k u x → kin_within G k u x ∧ kin_within G k x u.
Proof.
  intros (n & ? & ? & Hn).
  assert (nsteps (kin G) n u x) as Hkin.
  { eapply nsteps_congruence with (f := id); [|exact Hn]. intros ???. by left. }
  split; exists n; eauto using nsteps_kin_sym.
Qed.

(** X9. The neighbourhood takes in the ancestors and the descendants:
    in a well-formed graph and for one depth [k], when
    [get_ancestors(id, k)], [get_descendants(id, k)] and
    [get_neighbourhood(id, k)] return, every concept of the first two
    results other than [id] itself and the root is in the third. *)
Theorem neighbourhood_covers_lineage (limit limit' limit'' : nat) (G : DiGraph)
    (id k : Z) (anc desc : cset) (l : list SnomedConceptDetails) :
  wf_graph G →
  get_ancestors_fuel limit G id (Some k) = Ok anc →
  get_descendants_fuel limit' G id (Some k) = Ok desc →
  get_neighbourhood_fuel limit'' G id k = Ok l →
  ∀ x, x ∈ dom anc ∨ x ∈ dom desc → x ≠ id → x ≠ root_concept_id →
       x ∈ sctid <$> l.
Proof.
  intros Hwf Hanc Hdes Hl.
  apply get_ancestors_fuel_spec in Hanc as [_ Hanc].
  apply get_descendants_fuel_spec in Hdes as [_ Hdes]; [|done].
  apply get_neighbourhood_fuel_spec in Hl as (_ & _ & Hl); [|done].
  intros x Hx Hxid Hxroot. apply Hl. do 2 (split; [done|]).
  destruct Hx as [Hx|Hx].
  - apply Hanc in Hx as [_ Hx]. by apply isa_within_kin in Hx as [? _].
  - apply Hdes in Hx. by apply isa_within_kin in Hx as [_ ?].
Qed.

Lemma neighbourhood_covers_lineage_witness :
  ∃ anc desc l,
    get_ancestors_fuel 2 demo.graph 2 (Some 2) = Ok anc ∧
    get_descendants_fuel 2 demo.graph 2 (Some 2) = Ok desc ∧
    get_neighbourhood_fuel 2 demo.graph 2 2 = Ok l ∧
    ∀ x, x ∈ dom anc ∨ x ∈ dom desc → x ≠ 2 → x ≠ root_concept_id →
         x ∈ sctid <$> l.
Proof.
  eexists _, _, _. do 3 (split; [reflexivity|]).
  apply (neighbourhood_covers_lineage 2 2 2 demo.graph 2 2 _ _ _ demo_graph_wf).
  - reflexivity.
  - reflexivity.
  - reflexivity.
Defined.

(** ** Depth and the call stack *)

(** X29. [get_ancestors] grows with the depth: when the calls for two
    depths [k ≤ k'] return, the first result is included in the second.
    An unset depth runs as depth 99999 under every recursion limit.
    When every ancestor of the concept lies within 99999 "is a" edges
    of it, as it does in a well-formed graph of at most 99999 concepts,
    a call with the depth unset that returns gives the whole "is a"
    closure of the concept without the root, and the result of every
    depth is included in it. *)
Theorem ancestors_closure_within_reach (G : DiGraph) (id : Z) :
  (∀ limit limit' k k' s s',
     k ≤ k' →
     get_ancestors_fuel limit G id (Some k) = Ok s →
     get_ancestors_fuel limit' G id (Some k') = Ok s' → s ⊆ s') ∧
  (∀ limit,
     get_ancestors_fuel limit G id None = get_ancestors_fuel limit G id (Some 99999)) ∧
  (∀ limit s_all,
     (∀ x, isa_ancestor G id x → isa_within G 99999 id x) →
     get_ancestors_fuel limit G id None = Ok s_all →
     (∀ x, x ∈ dom s_all ↔ x ≠ root_concept_id ∧ isa_ancestor G id x) ∧
     (∀ limit' k s, get_ancestors_fuel limit' G id (Some k) = Ok s → s ⊆ s_all)) ∧
  (wf_graph G → Z.of_nat (nx.number_of_nodes G) ≤ 99999 →
   ∀ x, isa_ancestor G id x → isa_within G 99999 id x).
Proof.
  assert (∀ limit limit' (k k' : option Z) s s',
            steps_or_default k ≤ steps_or_default k' →
            get_ancestors_fuel limit G id k = Ok s →
            get_ancestors_fuel limit' G id k' = Ok s' → s ⊆ s') as Hmono.
  { intros limit limit' k k' s s' Hk
      [Hdet Hdom]%get_ancestors_fuel_spec [Hdet' Hdom']%get_ancestors_fuel_spec.
    apply (details_of_subseteq G); [done | done |]. intros x. rewrite Hdom, Hdom'.
    intros [? ?]. split; [done|]. by eapply isa_within_mono. }
  split; [|split; [|split]].
  - intros limit limit' k k' s s' Hk. by apply Hmono.
  - intros limit. apply get_ancestors_fuel_None.
  - intros limit s_all Hreach Hall. split.
    + apply get_ancestors_fuel_spec in Hall as [_ Hdom]. intros x. rewrite Hdom.
      change (steps_or_default None) with 99999. split.
      * intros [? (n & ? & _ & ?)]. split; [done|]. by exists n.
      * intros [? ?]. split; [done|]. by apply Hreach.
    + intros limit' k s Hs.
      pose proof Hs as [Hdet Hdom]%get_ancestors_fuel_spec.
      pose proof Hall as [Hdet' Hdom']%get_ancestors_fuel_spec.
      apply (details_of_subseteq G); [done | done |]. intros x. rewrite Hdom, Hdom'.
      change (steps_or_default None) with 99999.
      intros [? (n & ? & _ & ?)]. split; [done|]. apply Hreach. by exists n.
  - intros Hwf Hsize x (n & Hn & Hsteps).
    eapply isa_within_mono; [exact Hsize|].
    apply (isa_within_saturates G (Z.of_nat n)); [done|]. exists n. split; [done|]. split; [lia | done].
Qed.

Lemma ancestors_closure_within_reach_witness :
  ∃ s_all, get_ancestors_fuel 4 demo.graph 1 None = Ok s_all ∧
    (∀ x, x ∈ dom s_all ↔ x ≠ root_concept_id ∧ isa_ancestor demo.graph 1 x).
Proof.
  eexists. split; [reflexivity|].
  destruct (ancestors_closure_within_reach demo.graph 1) as (_ & _ & Hclosure & Hreach).
  apply (Hclosure 4%nat); [|reflexivity].
  apply Hreach; [exact demo_graph_wf|].
  apply (bool_decide_unpack _). vm_compute. reflexivity.
Defined.

(** X30. Let [limit] be the number of nested calls of [get_ancestors]
    that the recursion limit of the interpreter leaves room for.  In a
    well-formed graph whose concepts are all described, a call for a
    depth [k] (99999 when unset) overflows the stack exactly when
    [limit < k] and an "is a" walk of [limit] edges starts at the
    concept, as it does for every [limit] once an "is a" cycle is
    within reach; otherwise the call returns.  With room for [k] nested
    calls each of the three traversals returns. *)
Theorem ancestors_overflow_exactly (limit : nat) (G : DiGraph) (id : Z)
    (steps_removed : option Z) :
  wf_graph G → described G → nx.contains G id = true → valid_steps steps_removed →
  (get_ancestors_fuel limit G id steps_removed = OutOfFuel ↔
   Z.of_nat limit < steps_or_default steps_removed ∧
   ∃ x, nsteps (isa_edge G) limit id x) ∧
  (get_ancestors_fuel limit G id steps_removed = OutOfFuel ∨
   ∃ s, get_ancestors_fuel limit G id steps_removed = Ok s) ∧
  ((call_depth (steps_or_default steps_removed) ≤ limit)%nat →
   (∃ s, get_ancestors_fuel limit G id steps_removed = Ok s) ∧
   (∃ s, get_descendants_fuel limit G id steps_removed = Ok s) ∧
   (∃ l, get_neighbourhood_fuel limit G id (steps_or_default steps_removed) = Ok l)).
Proof.
  intros Hwf Hdesc Hid%contains_spec Hvalid.
  pose proof (valid_steps_default steps_removed Hvalid) as Hpos.
  split; [|split].
  - destruct (get_ancestors_fuel_overflow G limit id steps_removed Hwf Hdesc Hid Hvalid)
      as [(H & Hlt & Hwalk)|([s H] & Hno)].
    + done.
    + split; [congruence | done].
  - destruct (get_ancestors_fuel_overflow G limit id steps_removed Hwf Hdesc Hid Hvalid)
      as [(H & _)|(H & _)]; [by left | by right].
  - intros Hroom. split; [|split].
    + by apply get_ancestors_fuel_total.
    + by apply get_descendants_fuel_total.
    + by apply get_neighbourhood_fuel_total.
Qed.

Lemma ancestors_overflow_exactly_witness :
  get_ancestors_fuel 2 demo.graph 1 (Some 5) = OutOfFuel ∧
  (∃ s, get_ancestors_fuel 5 demo.graph 1 (Some 2) = Ok s) ∧
  (∃ s, get_descendants_fuel 5 demo.graph 1 (Some 2) = Ok s) ∧
  (∃ l, get_neighbourhood_fuel 5 demo.graph 1 2 = Ok l).
Proof.
  assert (nx.contains demo.graph 1 = true) as Hin by (vm_compute; reflexivity).
  split.
  - destruct (ancestors_overflow_exactly 2 demo.graph 1 (Some 5)
                demo_graph_wf demo_graph_described Hin) as (Hiff & _); [simpl; lia|].
    apply Hiff. split; [simpl; lia|]. exists 3.
    apply (nsteps_l _ _ _ 2); [apply (bool_decide_unpack _); vm_compute; reflexivity|].
    apply nsteps_once. apply (bool_decide_unpack _). vm_compute. reflexivity.
  - destruct (ancestors_overflow_exactly 5 demo.graph 1 (Some 2)
                demo_graph_wf demo_graph_described Hin) as (_ & _ & Hroom); [simpl; lia|].
    apply Hroom. unfold call_depth. simpl. lia.
Defined.

(** ** Concepts that are not in the graph *)

Lemma get_concept_details_unknown (G : DiGraph) (id : Z) :
  nx.contains G id = false → get_concept_details G id = Raise KeyError.
Proof.
  intros Hid. unfold get_concept_details, nx.nodes.
  destruct (od_get id (_node G)) as [nd|] eqn:Hnd; [|done].
  assert (nx.contains G id = true) by (apply contains_spec; eauto). congruence.
Qed.

Lemma get_parents_unknown (G : DiGraph) (id : Z) :
  nx.contains G id = false → get_parents G id = Raise KeyError.
Proof.
  intros Hid. unfold get_parents, get_out_relationships.
  by rewrite get_concept_details_unknown.
Qed.

Lemma get_children_unknown (G : DiGraph) (id : Z) :
  nx.contains G id = false → get_children G id = Raise KeyError.
Proof.
  intros Hid. unfold get_children, get_in_relationships.
  by rewrite get_concept_details_unknown.
Qed.

(** X10. Asked about a concept that is not in the graph, every query
    that reads a concept raises [KeyError] (the depth being one the
    query accepts): the first thing each does is to look the node up. *)
Theorem unknown_concept_raises_KeyError (G : DiGraph) (id : Z) :
  nx.contains G id = false →
  get_concept_details G id = Raise KeyError ∧
  get_parents G id = Raise KeyError ∧
  get_children G id = Raise KeyError ∧
  get_inferred_relationships G id = Raise KeyError ∧
  get_full_concept G id = Raise KeyError ∧
  (∀ steps_removed, valid_steps steps_removed →
     get_ancestors G id steps_removed = Raise KeyError ∧
     get_descendants G id steps_removed = Raise KeyError) ∧
  (∀ k, 0 < k → get_neighbourhood G id k = Raise KeyError).
Proof.
  intros Hid.
  pose proof (get_concept_details_unknown G id Hid) as Hdet.
  pose proof (get_parents_unknown G id Hid) as Hps.
  pose proof (get_children_unknown G id Hid) as Hcs.
  do 3 (split; [done|]). split; [|split; [|split]].
  - unfold get_inferred_relationships, get_out_relationships. by rewrite Hdet.
  - unfold get_full_concept. by rewrite Hdet.
  - intros steps Hvalid.
    assert (check_steps_removed steps = Ok (steps_or_default steps)) as Hcheck.
    { apply check_steps_removed_Ok. split; [done | by apply valid_steps_default]. }
    unfold get_ancestors, get_descendants.
    pose proof (call_depth_pos (steps_or_default steps)) as Hfuel.
    destruct (call_depth (steps_or_default steps)) as [|fuel]; [lia|].
    cbn [get_ancestors_fuel get_descendants_fuel]. by rewrite Hcheck, Hps, Hcs.
  - intros k Hk. unfold get_neighbourhood.
    pose proof (call_depth_pos k) as Hfuel.
    destruct (call_depth k) as [|fuel]; [lia|].
    cbn [get_neighbourhood_fuel]. rewrite bool_decide_true by lia. by rewrite Hps.
Qed.

Lemma unknown_concept_raises_KeyError_witness :
  get_concept_details demo.graph 55 = Raise KeyError ∧
  get_parents demo.graph 55 = Raise KeyError ∧
  get_children demo.graph 55 = Raise KeyError ∧
  get_inferred_relationships demo.graph 55 = Raise KeyError ∧
  get_full_concept demo.graph 55 = Raise KeyError ∧
  (∀ steps_removed, valid_steps steps_removed →
     get_ancestors demo.graph 55 steps_removed = Raise KeyError ∧
     get_descendants demo.graph 55 steps_removed = Raise KeyError) ∧
  (∀ k, 0 < k → get_neighbourhood demo.graph 55 k = Raise KeyError).
Proof.
  apply (unknown_concept_raises_KeyError demo.graph 55). vm_compute. reflexivity.
Defined.

(** X11. The two path queries answer an unknown concept with networkx's
    [NodeNotFound], not with [KeyError] and not with an empty result:
    [find_path] when either concept is missing from the graph,
    [path_to_root] when the concept or the root is. *)
Theorem unknown_concept_raises_NodeNotFound (one_node_path : bool) (G : DiGraph)
    (a b : Z) (print_ : bool) :
  (nx.contains G a = false ∨ nx.contains G b = false →
   find_path G a b print_ = Raise NodeNotFound) ∧
  (nx.contains G a = false ∨ nx.contains G root_concept_id = false →
   path_to_root one_node_path G a print_ = Raise NodeNotFound).
Proof.
  split.
  - intros Hab. unfold find_path, nx.has_path, nx.shortest_path.
    assert (nx.contains G a && nx.contains G b = false) as ->; [|done].
    destruct Hab as [-> | ->]; [done | by rewrite andb_false_r].
  - intros Ha. unfold path_to_root, nx.all_simple_paths.
    destruct (nx.contains G a); simpl; [|done].
    destruct Ha as [?| ->]; done.
Qed.

Lemma unknown_concept_raises_NodeNotFound_witness :
  find_path demo.graph 1 55 false = Raise NodeNotFound ∧
  path_to_root true demo.graph 55 false = Raise NodeNotFound.
Proof.
  destruct (unknown_concept_raises_NodeNotFound true demo.graph 1 55 false) as [Hf _].
  destruct (unknown_concept_raises_NodeNotFound true demo.graph 55 55 false) as [_ Hp].
  split.
  - apply Hf. right. vm_compute. reflexivity.
  - apply Hp. left. vm_compute. reflexivity.
Defined.
(** ** Printing the paths *)

Lemma shortest_path_ends (G : DiGraph) (s t : Z) (p : list Z) :
  nx.shortest_path G s t = Ok p → ∃ ext, p = s :: ext ∧ endpoint s ext = t.
Proof.
  unfold nx.shortest_path. destruct (negb _); [done|].
  pose proof (bfs_spec G s t (nx.number_of_nodes G) 0 [s] [[s]] (level_inv_init G s))
    as Hbfs.
  destruct (nx.bfs _ _ _ _ _) as [q|]; [|done]. intros [= <-].
  destruct Hbfs as (ext & -> & _ & Hend & _); [lia | eauto].
Qed.

(** What [find_path] does once the nodes of the path are known. *)
Lemma find_path_tail (G : DiGraph) (nodes : list Z) :
  length nodes ≠ 1%nat →
  (let! path := res_mapM (step_relationship G) (nx.pairwise nodes) in
   match nodes, path with
   | _ :: _, [] => Raise IndexError
   | _, _ => Ok path
   end)
  = res_mapM (step_relationship G) (nx.pairwise nodes).
Proof.
  intros Hlen. destruct nodes as [|u [|v l]]; [done | done |].
  rewrite pairwise_cons. cbn [res_mapM].
  destruct (step_relationship G (u, v)); simpl; [|done|done].
  by destruct (res_mapM _ _).
Qed.

(** X12. Asking [find_path] to print changes its outcome in one case
    only.  For two different concepts the call with [print_] set
    returns what the call without it returns.  For one and the same
    concept of the graph the path has a node and no edge: the call
    returns the empty list, as it does when there is no path at all,
    and with [print_] set it raises [IndexError]. *)
Theorem find_path_printing (G : DiGraph) (a b : Z) :
  (a ≠ b → find_path G a b true = find_path G a b false) ∧
  (nx.contains G a = true →
   find_path G a a false = Ok [] ∧ find_path G a a true = Raise IndexError).
Proof.
  split.
  - intros Hab. unfold find_path.
    assert (∀ s t p, s ≠ t → nx.shortest_path G s t = Ok p → length p ≠ 1%nat) as Hlen.
    { intros s t p Hst (ext & -> & Hend)%shortest_path_ends.
      destruct ext; [|done]. by unfold endpoint in Hend. }
    destruct (nx.has_path G a b) as [[|]| |]; simpl; [| |done|done].
    + destruct (nx.shortest_path G a b) as [p| |] eqn:Hp; simpl; [|done|done].
      rewrite find_path_tail by eauto. by rewrite res_bind_Ok_r.
    + destruct (nx.has_path G b a) as [[|]| |]; simpl; [| |done|done].
      * destruct (nx.shortest_path G b a) as [p| |] eqn:Hp; simpl; [|done|done].
        rewrite find_path_tail by eauto. by rewrite res_bind_Ok_r.
      * done.
  - intros Ha. unfold find_path, nx.has_path. rewrite (shortest_path_self G a Ha).
    simpl. rewrite ?(shortest_path_self G a Ha). done.
Qed.

Lemma find_path_printing_witness :
  find_path demo.graph 1 3 true = find_path demo.graph 1 3 false ∧
  find_path demo.graph 1 1 false = Ok [] ∧
  find_path demo.graph 1 1 true = Raise IndexError.
Proof.
  destruct (find_path_printing demo.graph 1 3) as [Hd _].
  destruct (find_path_printing demo.graph 1 1) as [_ Hs].
  split; [apply Hd; lia|]. apply Hs. vm_compute. reflexivity.
Defined.

Lemma foldM_invariant {A B : Type} (P : B → Prop) (f : B → A → res B) (l : list A)
    (b b' : B) :
  (∀ b x b', f b x = Ok b' → P b → P b') →
  P b → foldM f l b = Ok b' → P b'.
Proof.
  intros Hf. revert b. induction l as [|x l IH]; intros b Hb; simpl.
  - by intros [= <-].
  - intros (b1 & Hb1 & H)%res_bind_Ok. eauto.
Qed.

Lemma keep_shortest_nonempty (sp p : option (list SnomedRelationship)) :
  sp ≠ Some [] → keep_shortest sp p ≠ Some [].
Proof.
  intros Hsp. unfold keep_shortest.
  destruct p as [[|r p]|]; [done| |done].
  destruct sp as [[|r' sp]|]; [done| |done].
  by case_decide.
Qed.

(** X13. Asking [path_to_root] to print does not change a path that was
    found, and turns the answer [None] (no "is a" path to the root, or
    the concept is the root) into a [TypeError]; an exception of the
    call without printing is raised all the same. *)
Theorem path_to_root_printing (one_node_path : bool) (G : DiGraph) (id : Z) :
  path_to_root one_node_path G id true =
  match path_to_root one_node_path G id false with
  | Ok None => Raise TypeError
  | outcome => outcome
  end.
Proof.
  unfold path_to_root.
  destruct (nx.all_simple_paths one_node_path G id root_concept_id) as [cands| |];
    simpl; [|done|done].
  destruct (foldM _ cands None) as [[[|r p]|]| |] eqn:Hfold; simpl; try done.
  assert (Some [] ≠ Some (@nil SnomedRelationship)) as Hne; [|done].
  revert Hfold. apply (foldM_invariant (λ sp, sp ≠ Some [])); [|done].
  intros sp nodes sp' (path & _ & [= <-])%res_bind_Ok Hsp.
  by apply keep_shortest_nonempty.
Qed.

Lemma path_to_root_printing_witness :
  path_to_root true demo.graph root_concept_id true = Raise TypeError ∧
  path_to_root true demo.graph 2 true = path_to_root true demo.graph 2 false.
Proof.
  rewrite (path_to_root_printing true demo.graph root_concept_id).
  rewrite (path_to_root_printing true demo.graph 2).
  split; vm_compute; reflexivity.
Defined.
(** ** How [from_rf2] ends *)

Lemma type_name_described (concepts_df : list Desc.row) (r : Rel.row) :
  is_Some (type_name (active_descriptions concepts_df) (Rel.typeId r)) ↔
  type_described concepts_df r.
Proof.
  unfold type_name, type_described, pd.rows_of, active_descriptions.
  rewrite fmap_is_Some. split.
  - intros [d Hd]. apply last_Some_elem_of in Hd.
    apply list_elem_of_filter in Hd as [Hfsn Hd].
    apply list_elem_of_filter in Hd as [Hid Hd].
    apply list_elem_of_filter in Hd as [Hact Hd]. by exists d.
  - intros (d & Hd & Hact & Hid & Hfsn).
    destruct (last _) as [d'|] eqn:E; [eauto|]. apply last_None in E.
    assert (d ∈ @nil Desc.row) as Hnil; [|by apply elem_of_nil in Hnil].
    rewrite <- E. by repeat (apply list_elem_of_filter; split).
Qed.

Lemma resolved_described (relationships_df : list Rel.row) (concepts_df : list Desc.row) :
  Forall (λ r, is_Some (type_name (active_descriptions concepts_df) (Rel.typeId r)))
         (active_relationships relationships_df) ↔
  ∀ r, r ∈ relationships_df → Rel.active r = 1 → type_described concepts_df r.
Proof.
  rewrite Forall_forall. unfold active_relationships.
  setoid_rewrite list_elem_of_filter. setoid_rewrite type_name_described.
  split; [intros H r ? ?; by apply H | intros H r [? ?]; by apply H].
Qed.

Lemma create_relationship_types_outcome (rels : list Rel.row) (concepts : list Desc.row) :
  (∃ types, create_relationship_types rels concepts = Ok types) ∨
  create_relationship_types rels concepts = Raise KeyError.
Proof.
  destruct (decide (Forall (λ r, pd.rows_of concepts (Rel.typeId r) ≠ []) rels)) as [H|H].
  - left. by apply create_relationship_types_Ok.
  - right. unfold create_relationship_types. rewrite loc_raises; [done|].
    intros Hall. apply H. apply Forall_forall. intros r Hr.
    rewrite Forall_forall in Hall. apply Hall.
    apply elem_of_unique, list_elem_of_fmap. eauto.
Qed.

Lemma create_relationships_outcome (types : gmap Z string) (rels : list Rel.row)
    (G : DiGraph) :
  (∃ G', create_relationships types rels G = Ok G') ∨
  create_relationships types rels G = Raise KeyError.
Proof.
  unfold create_relationships. revert G.
  induction rels as [|r rels IH]; intros G; simpl; [eauto|].
  destruct (types !! Rel.typeId r) as [name|]; simpl; [apply IH | by right].
Qed.

Lemma from_rf2_Ok_or_KeyError (relationships_df : list Rel.row)
    (concepts_df : list Desc.row) :
  (∃ G log, from_rf2 relationships_df concepts_df = Ok (G, log)) ∨
  from_rf2 relationships_df concepts_df = Raise KeyError.
Proof.
  unfold from_rf2.
  destruct (create_relationship_types_outcome (active_relationships relationships_df)
              (active_descriptions concepts_df)) as [[types ->]| ->]; [|by right].
  simpl.
  destruct (create_relationships_outcome types (active_relationships relationships_df)
              nx.DiGraph_init) as [[G ->]| ->]; [|by right].
  simpl. left.
  destruct (add_concepts_loop (pd.groupby_index (active_descriptions concepts_df)) (G, [])
              (groupby_index_nonempty _)) as (st & Hst & _).
  unfold add_concepts. rewrite Hst. simpl. eauto.
Qed.

(** X14. [from_rf2] ends in one of two ways.  It returns a graph exactly
    when the type of every active relationship row is a concept with an
    active fully-specified-name row; otherwise it raises [KeyError].
    No other exception comes out of it: in particular the fallback for
    a concept without a fully specified name never fails, since a group
    of description rows is never empty. *)
Theorem from_rf2_outcome (relationships_df : list Rel.row) (concepts_df : list Desc.row) :
  ((∀ r, r ∈ relationships_df → Rel.active r = 1 → type_described concepts_df r) ↔
   ∃ G log, from_rf2 relationships_df concepts_df = Ok (G, log)) ∧
  (¬ (∀ r, r ∈ relationships_df → Rel.active r = 1 → type_described concepts_df r) ↔
   from_rf2 relationships_df concepts_df = Raise KeyError).
Proof.
  rewrite <- resolved_described.
  assert (∀ G log, from_rf2 relationships_df concepts_df = Ok (G, log) →
            Forall (λ r, is_Some (type_name (active_descriptions concepts_df) (Rel.typeId r)))
                   (active_relationships relationships_df)) as Hres
    by apply from_rf2_resolved.
  split; split.
  - intros H. destruct (from_rf2_Ok _ _ H) as (G & log & HG & _). eauto.
  - intros (G & log & HG). eauto.
  - intros H. destruct (from_rf2_Ok_or_KeyError relationships_df concepts_df)
      as [(G & log & HG)|HG]; [|done]. destruct H. eauto.
  - intros HG H. destruct (from_rf2_Ok _ _ H) as (G & log & HG' & _). congruence.
Qed.

Lemma from_rf2_outcome_witness :
  (∀ r, r ∈ demo.relationships → Rel.active r = 1 → type_described demo.descriptions r) ∧
  from_rf2 demo_untyped.relationships demo_untyped.descriptions = Raise KeyError.
Proof.
  split.
  - apply (proj1 (from_rf2_outcome demo.relationships demo.descriptions)).
    eexists _, _. exact demo_build_eq.
  - apply (proj2 (from_rf2_outcome demo_untyped.relationships demo_untyped.descriptions)).
    intros Htyped.
    apply (proj1 (from_rf2_outcome demo_untyped.relationships
                    demo_untyped.descriptions)) in Htyped as (G & log & HG).
    vm_compute in HG. discriminate HG.
Defined.
(** ** The nodes [from_rf2] keeps *)

Lemma rows_between_nonempty (rels : list Rel.row) (s t : Z) :
  is_Some (last (rows_between rels s t)) ↔
  ∃ r, r ∈ rels ∧ Rel.sourceId r = s ∧ Rel.destinationId r = t.
Proof.
  unfold rows_between. split.
  - intros [r Hr]. apply last_Some_elem_of, list_elem_of_filter in Hr as [[? ?] ?]. eauto.
  - intros (r & Hr & Hs & Ht).
    destruct (last _) as [r'|] eqn:E; [eauto|]. apply last_None in E.
    assert (r ∈ @nil Rel.row) as Hnil; [|by apply elem_of_nil in Hnil].
    rewrite <- E. by apply list_elem_of_filter.
Qed.

Lemma degree_pos_edge (G : DiGraph) (k : Z) :
  wf_graph G →
  nx.degree G k ≠ 0%nat ↔
  ∃ v ed, nx.edge_data G k v = Some ed ∨ nx.edge_data G v k = Some ed.
Proof.
  intros Hwf. unfold nx.degree, nx.successors, nx.predecessors. split.
  - intros Hdeg.
    destruct (od_get k (_succ G)) as [[|[v ed] d]|] eqn:Hs; simpl in Hdeg.
    + destruct (od_get k (_pred G)) as [[|[u ed] d]|] eqn:Hp; simpl in Hdeg; [done| |done].
      exists u, ed. right. apply (wf_adj G Hwf). unfold pred_data. rewrite Hp. simpl.
      by rewrite decide_True.
    + exists v, ed. left. unfold nx.edge_data. rewrite Hs. simpl. by rewrite decide_True.
    + destruct (od_get k (_pred G)) as [[|[u ed] d]|] eqn:Hp; simpl in Hdeg; [done| |done].
      exists u, ed. right. apply (wf_adj G Hwf). unfold pred_data. rewrite Hp. simpl.
      by rewrite decide_True.
  - intros (v & ed & [Hed|Hed]).
    + unfold nx.edge_data in Hed. destruct (od_get k (_succ G)) as [d|]; [|done].
      assert (v ∈ od_keys d) as Hv by (apply od_get_keys; eauto).
      destruct (od_keys d); [by apply elem_of_nil in Hv | simpl; lia].
    + apply (wf_adj G Hwf) in Hed. unfold pred_data in Hed.
      destruct (od_get k (_pred G)) as [d|]; [|done].
      assert (v ∈ od_keys d) as Hv by (apply od_get_keys; eauto).
      destruct (od_keys d); [by apply elem_of_nil in Hv | simpl; lia].
Qed.

(** What [from_rf2] builds, in terms of the two frames. *)
Lemma from_rf2_built (relationships_df : list Rel.row) (concepts_df : list Desc.row)
    (G : DiGraph) (log : list NoFsnWarning) :
  from_rf2 relationships_df concepts_df = Ok (G, log) →
  wf_graph G ∧ unique_keys G ∧
  (∀ s t, is_Some (nx.edge_data G s t) ↔
          ∃ r, r ∈ relationships_df ∧ Rel.active r = 1 ∧
               Rel.sourceId r = s ∧ Rel.destinationId r = t) ∧
  (∀ k, nx.degree G k ≠ 0%nat ↔ related relationships_df k) ∧
  (∀ k, od_get k (_node G) =
        if decide (nx.degree G k = 0%nat) then None
        else concept_node (active_descriptions concepts_df) k).
Proof.
  intros HG. pose proof (from_rf2_resolved _ _ _ _ HG) as Hres.
  destruct (from_rf2_Ok _ _ Hres) as (G' & log' & HG' & Hwf & Huk & Hedge & Hnode & _).
  rewrite HG in HG'. injection HG' as <- <-.
  assert (∀ s t, is_Some (nx.edge_data G s t) ↔
            ∃ r, r ∈ relationships_df ∧ Rel.active r = 1 ∧
                 Rel.sourceId r = s ∧ Rel.destinationId r = t) as Hedges.
  { intros s t. rewrite Hedge.
    pose proof (rows_between_nonempty (active_relationships relationships_df) s t) as Hrb.
    unfold active_relationships in Hrb at 2. setoid_rewrite list_elem_of_filter in Hrb.
    split.
    - intros Hsome. destruct (last _) as [r|]; [|by destruct Hsome as [? [=]]].
      destruct (proj1 Hrb) as (r' & [? ?] & ? & ?); eauto 10.
    - intros (r & Hr & Hact & Hs & Ht).
      destruct (proj2 Hrb) as [r' Hr']; [eauto 10|]. rewrite Hr'.
      apply last_Some_elem_of, list_elem_of_filter in Hr' as [_ Hr'].
      rewrite Forall_forall in Hres. destruct (Hres r' Hr') as [name Hname].
      unfold row_edge. rewrite Hname. eauto. }
  do 2 (split; [done|]). split; [done|]. split; [|done].
  intros k. rewrite degree_pos_edge by done. unfold related. split.
  - intros (v & ed & [Hed|Hed]).
    + destruct (proj1 (Hedges k v)) as (r & ? & ? & ? & ?); eauto 10.
    + destruct (proj1 (Hedges v k)) as (r & ? & ? & ? & ?); eauto 10.
  - intros (r & Hr & Hact & [Hk|Hk]).
    + destruct (proj2 (Hedges k (Rel.destinationId r))) as [ed Hed]; eauto 10.
    + destruct (proj2 (Hedges (Rel.sourceId r) k)) as [ed Hed]; eauto 10.
Qed.

Lemma concept_node_Some (concepts : list Desc.row) (k : Z) :
  is_Some (concept_node concepts k).
Proof.
  unfold concept_node, node_of. destruct (pd.rows_of concepts k) as [|d rows]; [eauto|].
  destruct (resolve_names_nonempty (d :: rows)) as [[[f syn] b] ->]; [done | eauto].
Qed.

(** X15. The graph [from_rf2] returns is well formed and has exactly the
    concepts that are at one end of an active relationship row as its
    nodes, and exactly the ordered pairs joined by such a row as its
    edges.  So no node is isolated, and a concept that has descriptions
    but takes part in no active relationship is not in the graph. *)
Theorem from_rf2_keeps_related_concepts (relationships_df : list Rel.row)
    (concepts_df : list Desc.row) (G : DiGraph) (log : list NoFsnWarning) :
  from_rf2 relationships_df concepts_df = Ok (G, log) →
  wf_graph G ∧
  (∀ k, nx.contains G k = true ↔ related relationships_df k) ∧
  (∀ k, nx.contains G k = true → (0 < nx.degree G k)%nat) ∧
  (∀ s t, has_edge G s t ↔
          ∃ r, r ∈ relationships_df ∧ Rel.active r = 1 ∧
               Rel.sourceId r = s ∧ Rel.destinationId r = t).
Proof.
  intros (Hwf & Huk & Hedge & Hdeg & Hnode)%from_rf2_built.
  assert (∀ k, nx.contains G k = true ↔ nx.degree G k ≠ 0%nat) as Hin.
  { intros k. rewrite contains_spec, Hnode. case_decide as Hk.
    - split; [by intros [? [=]] | done].
    - split; [done | intros _; apply concept_node_Some]. }
  split; [done|]. split; [|split].
  - intros k. by rewrite Hin, Hdeg.
  - intros k Hk%Hin. lia.
  - intros s t. rewrite <- Hedge. unfold has_edge, nx.successors, nx.edge_data.
    destruct (od_get s (_succ G)) as [d|].
    + apply od_get_keys.
    + split; [by intros ?%elem_of_nil | by intros [? [=]]].
Qed.

Lemma from_rf2_keeps_related_concepts_witness :
  wf_graph demo.graph ∧
  (∀ k, nx.contains demo.graph k = true ↔ related demo.relationships k) ∧
  (∀ k, nx.contains demo.graph k = true → (0 < nx.degree demo.graph k)%nat) ∧
  (∀ s t, has_edge demo.graph s t ↔
          ∃ r, r ∈ demo.relationships ∧ Rel.active r = 1 ∧
               Rel.sourceId r = s ∧ Rel.destinationId r = t).
Proof.
  apply (from_rf2_keeps_related_concepts demo.relationships demo.descriptions
           demo.graph demo.log).
  exact demo_build_eq.
Defined.
Lemma rows_of_active_nonempty (concepts_df : list Desc.row) (k : Z) :
  pd.rows_of (active_descriptions concepts_df) k ≠ [] ↔ has_description concepts_df k.
Proof.
  rewrite rows_of_nonempty, list_elem_of_fmap. unfold active_descriptions, has_description.
  setoid_rewrite list_elem_of_filter. split.
  - intros (d & -> & ? & ?). eauto.
  - intros (d & ? & ? & <-). eauto.
Qed.

(** X16. How [from_rf2] names the concepts it keeps.  A concept with an
    active fully-specified-name row gets the term of the first such row
    as [fsn] and the terms of all its other active rows that are not
    fully specified names, in file order, as [synonyms]; further
    fully-specified-name rows are dropped.  A concept that is at one end
    of an active relationship but has no active description row stays in
    the graph without attributes, and [get_concept_details] raises
    [TypeError] for it. *)
Theorem from_rf2_names_concepts (relationships_df : list Rel.row)
    (concepts_df : list Desc.row) (G : DiGraph) (log : list NoFsnWarning) (k : Z) :
  from_rf2 relationships_df concepts_df = Ok (G, log) →
  nx.contains G k = true →
  (∀ f fs,
     fsn_terms (pd.rows_of (active_descriptions concepts_df) k) = f :: fs →
     get_concept_details G k =
     Ok {| sctid := k; fsn := f;
           synonyms :=
             Some (synonym_terms (pd.rows_of (active_descriptions concepts_df) k)) |}) ∧
  (¬ has_description concepts_df k →
   nx.nodes G k = Ok empty_node ∧ get_concept_details G k = Raise TypeError).
Proof.
  intros (Hwf & Huk & Hedge & Hdeg & Hnode)%from_rf2_built Hk.
  assert (od_get k (_node G) = concept_node (active_descriptions concepts_df) k) as Hn.
  { rewrite Hnode. case_decide as Hd; [|done].
    apply contains_spec in Hk. rewrite Hnode, decide_True in Hk by done.
    by destruct Hk as [? [=]]. }
  unfold get_concept_details, nx.nodes. rewrite Hn. unfold concept_node. split.
  - intros f fs Hf.
    destruct (pd.rows_of (active_descriptions concepts_df) k) as [|d rows] eqn:Hrows;
      [done|].
    unfold node_of, resolve_names. by rewrite Hf.
  - intros Hnone.
    destruct (pd.rows_of (active_descriptions concepts_df) k) as [|d rows] eqn:Hrows;
      [done|].
    destruct Hnone. apply rows_of_active_nonempty. by rewrite Hrows.
Qed.

Lemma from_rf2_names_concepts_witness :
  (∀ f fs,
     fsn_terms (pd.rows_of (active_descriptions demo.descriptions) 1) = f :: fs →
     get_concept_details demo.graph 1 =
     Ok {| sctid := 1; fsn := f;
           synonyms :=
             Some (synonym_terms (pd.rows_of (active_descriptions demo.descriptions) 1)) |}) ∧
  (¬ has_description demo.descriptions 1 →
   nx.nodes demo.graph 1 = Ok empty_node ∧
   get_concept_details demo.graph 1 = Raise TypeError).
Proof.
  apply (from_rf2_names_concepts demo.relationships demo.descriptions
           demo.graph demo.log 1).
  - exact demo_build_eq.
  - vm_compute. reflexivity.
Defined.

(** X17. Every concept of the graph [from_rf2] returns carries a fully
    specified name exactly when every concept at one end of an active
    relationship row has an active description row. *)
Theorem from_rf2_described (relationships_df : list Rel.row)
    (concepts_df : list Desc.row) (G : DiGraph) (log : list NoFsnWarning) :
  from_rf2 relationships_df concepts_df = Ok (G, log) →
  described G ↔
  ∀ k, related relationships_df k → has_description concepts_df k.
Proof.
  intros (Hwf & Huk & Hedge & Hdeg & Hnode)%from_rf2_built.
  unfold described. split.
  - intros Hdesc k Hk%Hdeg. apply rows_of_active_nonempty.
    pose proof (Hnode k) as Hn. rewrite decide_False in Hn by done.
    unfold concept_node in Hn.
    destruct (pd.rows_of (active_descriptions concepts_df) k); [|done].
    by destruct (Hdesc k _ Hn) as [? [=]].
  - intros Hall k nd Hnd. rewrite Hnode in Hnd. case_decide as Hk; [done|].
    apply Hdeg, Hall, rows_of_active_nonempty in Hk.
    unfold concept_node, node_of in Hnd.
    destruct (pd.rows_of (active_descriptions concepts_df) k) as [|d rows]; [done|].
    destruct (resolve_names (d :: rows)) as [[[f syn] b]|]; [|done].
    injection Hnd as <-. simpl. eauto.
Qed.

Lemma from_rf2_described_witness :
  described demo.graph ↔
  ∀ k, related demo.relationships k → has_description demo.descriptions k.
Proof.
  apply (from_rf2_described demo.relationships demo.descriptions demo.graph demo.log).
  exact demo_build_eq.
Defined.

(** ** Iterating over the graph *)

Lemma get_concept_details_outcome (G : DiGraph) (k : Z) :
  (∃ c, get_concept_details G k = Ok c) ∨
  get_concept_details G k = Raise TypeError ∨
  (get_concept_details G k = Raise KeyError ∧ od_get k (_node G) = None).
Proof.
  unfold get_concept_details, nx.nodes, SnomedConceptDetails_init.
  destruct (od_get k (_node G)) as [nd|]; simpl; [|by right; right].
  destruct (nd_fsn nd); [left; eauto | right; by left].
Qed.

(** X18. Iterating over a [SnomedGraph] to the end succeeds exactly when
    every node carries a fully specified name, and raises [TypeError]
    otherwise; when it succeeds it yields [len(graph)] concepts, one per
    node in the order of the node dictionary, and [id in graph] holds
    exactly for the identifiers of the concepts yielded. *)
Theorem iteration_lists_the_nodes (G : DiGraph) :
  ((∃ cs, SnomedGraph_iter G = Ok cs) ↔ described G) ∧
  (¬ described G → SnomedGraph_iter G = Raise TypeError) ∧
  (∀ cs, SnomedGraph_iter G = Ok cs →
     sctid <$> cs = od_keys (_node G) ∧
     length cs = SnomedGraph_len G ∧
     Forall (λ c, get_concept_details G (sctid c) = Ok c) cs ∧
     ∀ id, SnomedGraph_contains G id = true ↔ id ∈ sctid <$> cs).
Proof.
  assert (∀ cs, SnomedGraph_iter G = Ok cs →
            sctid <$> cs = od_keys (_node G) ∧
            Forall (λ c, get_concept_details G (sctid c) = Ok c) cs) as Hok.
  { unfold SnomedGraph_iter. intros cs Hcs%res_mapM_Ok.
    induction Hcs as [|k c ks cs Hc _ [IH1 IH2]]; [done|].
    pose proof (get_concept_details_sctid _ _ _ Hc) as Hk.
    split; [by rewrite fmap_cons, Hk, IH1 | constructor; [by rewrite Hk | done]]. }
  assert (described G → ∃ cs, SnomedGraph_iter G = Ok cs) as Htotal.
  { intros Hdesc. apply res_mapM_total, Forall_forall. intros k Hk%od_get_keys.
    by apply get_concept_details_total. }
  assert ((∃ cs, SnomedGraph_iter G = Ok cs) → described G) as Hdesc.
  { intros [cs Hcs] k nd Hnd. destruct (Hok cs Hcs) as [Hkeys Hall].
    assert (k ∈ sctid <$> cs) as (c & -> & Hc)%list_elem_of_fmap.
    { rewrite Hkeys. apply od_get_keys. eauto. }
    rewrite Forall_forall in Hall. specialize (Hall c Hc).
    unfold get_concept_details, nx.nodes in Hall. rewrite Hnd in Hall. simpl in Hall.
    unfold SnomedConceptDetails_init in Hall. destruct (nd_fsn nd); [eauto | done]. }
  split; [by split|]. split.
  - intros Hnot. unfold SnomedGraph_iter.
    assert (∀ ks, (∃ cs, res_mapM (get_concept_details G) ks = Ok cs) ∨
                  res_mapM (get_concept_details G) ks = Raise TypeError ∨
                  ∃ k, k ∈ ks ∧ od_get k (_node G) = None) as Hcases.
    { induction ks as [|k ks IH]; simpl; [left; eauto|].
      destruct (get_concept_details_outcome G k) as [[c ->]|[->|[-> Hnone]]]; simpl.
      - destruct IH as [[cs ->]|[->|(k' & ? & ?)]]; simpl.
        + left. eauto.
        + right. by left.
        + right. right. exists k'. split; [by right | done].
      - right. by left.
      - right. right. exists k. split; [left | done]. }
    destruct (Hcases (od_keys (_node G))) as [Hcs|[?|(k & Hk%od_get_keys & Hnone)]].
    + destruct Hnot. by apply Hdesc.
    + done.
    + rewrite Hnone in Hk. by destruct Hk as [? [=]].
  - intros cs Hcs. destruct (Hok cs Hcs) as [Hkeys Hall].
    split; [done|]. split; [|split; [done|]].
    + unfold SnomedGraph_len, nx.number_of_nodes.
      rewrite <- (length_fmap sctid), Hkeys. unfold od_keys. by rewrite length_fmap.
    + intros id. unfold SnomedGraph_contains. by rewrite contains_spec, Hkeys, od_get_keys.
Qed.

Lemma iteration_lists_the_nodes_witness :
  ∃ cs, SnomedGraph_iter demo.graph = Ok cs ∧
    sctid <$> cs = od_keys (_node demo.graph) ∧
    length cs = SnomedGraph_len demo.graph.
Proof.
  destruct (iteration_lists_the_nodes demo.graph) as (Hdesc & _ & Hok).
  destruct (proj2 Hdesc demo_graph_described) as [cs Hcs].
  exists cs. split; [done|]. destruct (Hok cs Hcs) as (? & ? & _). done.
Defined.
(** ** The whole of a concept *)

Lemma groupby_join {A : Type} (l : list A) (key : A → Z) :
  mjoin ((groupby l key).*2) = l.
Proof.
  induction l as [|x l IH]; [done|]. simpl.
  destruct (groupby l key) as [|[g xs] rest]; simpl in *.
  - by rewrite <- IH.
  - case_decide; simpl; by rewrite <- IH.
Qed.

Lemma inferred_relationships_join (G : DiGraph) (id : Z)
    (gs : list SnomedRelationshipGroup) :
  get_inferred_relationships G id = Ok gs →
  ∃ rs, get_out_relationships G id = Ok rs ∧
        mjoin (relationships <$> gs) ≡ₚ filter (λ r, ¬ is_a r) rs.
Proof.
  unfold get_inferred_relationships. intros (rs & Hrs & [= <-])%res_bind_Ok.
  exists rs. split; [done|]. rewrite <- list_fmap_compose.
  rewrite <- (sorted_Permutation (filter _ rs) group) at 2.
  rewrite <- (groupby_join (sorted _ group) group) at 2.
  by rewrite (list_fmap_ext _ snd (groupby _ _)) by done.
Qed.

Lemma filter_split_length {A : Type} (P : A → Prop) `{!∀ x, Decision (P x)} (l : list A) :
  (length (filter P l) + length (filter (λ x, ¬ P x) l) = length l)%nat.
Proof.
  induction l as [|x l IH]; [done|].
  destruct (decide (P x)).
  - rewrite filter_cons_True, (filter_cons_False (λ x, ¬ P x)) by tauto. simpl. lia.
  - rewrite filter_cons_False, (filter_cons_True (λ x, ¬ P x)) by tauto. simpl. lia.
Qed.

(** X19. [get_full_concept] accounts for every edge at the concept
    once.  When it returns, the concept's details are those of the
    identifier asked for; each outgoing edge shows up exactly once,
    among the parents when it is typed "is a" and among the inferred
    relationships otherwise, so that the two together number the
    out-degree; and the children are the sources of the incoming edges
    typed "is a". *)
Theorem full_concept_accounts_for_edges (G : DiGraph) (id : Z) (c : SnomedConcept) :
  get_full_concept G id = Ok c →
  get_concept_details G id = Ok (concept_details c) ∧
  sctid (concept_details c) = id ∧
  sctid <$> parents c = filter (isa_edge G id) (nx.successors G id) ∧
  sctid <$> children c = filter (λ u, isa_edge G u id) (nx.predecessors G id) ∧
  sctid <$> (tgt <$> mjoin (relationships <$> inferred_relationship_groups c))
    ≡ₚ filter (λ v, ¬ isa_edge G id v) (nx.successors G id) ∧
  (length (parents c) +
   length (mjoin (relationships <$> inferred_relationship_groups c))
   = length (nx.successors G id))%nat.
Proof.
  unfold get_full_concept. intros H.
  apply res_bind_Ok in H as (cd & Hcd & H). apply res_bind_Ok in H as (ps & Hps & H).
  apply res_bind_Ok in H as (cs & Hcs & H). apply res_bind_Ok in H as (gs & Hgs & [= <-]).
  simpl.
  split; [done|]. split; [by eapply get_concept_details_sctid|].
  split; [by apply get_parents_keys|]. split; [by apply get_children_keys|].
  destruct (inferred_relationships_join G id gs Hgs) as (rs & Hrs & Hperm).
  pose proof (get_out_relationships_edges G id rs Hrs) as Hedges.
  assert (sctid <$> (tgt <$> filter (λ r, ¬ is_a r) rs)
          = filter (λ v, ¬ isa_edge G id v) (nx.successors G id)) as Hrest.
  { clear -Hedges. induction Hedges as [|v r vs rs Hr _ IH]; [done|].
    apply relationship_of_edge_is_a in Hr as (Hisa & _ & Htgt & _).
    destruct (decide (is_a r)) as [Hr|Hr].
    - rewrite filter_cons_False by tauto.
      rewrite (filter_cons_False _ v); [done|]. rewrite <- Hisa. tauto.
    - rewrite filter_cons_True by done. rewrite (filter_cons_True _ v) by (by rewrite <- Hisa).
      rewrite !fmap_cons. by rewrite Htgt, IH. }
  split.
  - by rewrite Hperm, Hrest.
  - rewrite Hperm. unfold get_parents in Hps. rewrite Hrs in Hps. simpl in Hps.
    injection Hps as <-. rewrite length_fmap.
    rewrite (filter_split_length is_a rs). symmetry. by eapply Forall2_length.
Qed.

Lemma full_concept_accounts_for_edges_witness :
  ∃ c, get_full_concept demo.graph 1 = Ok c ∧
    get_concept_details demo.graph 1 = Ok (concept_details c) ∧
    sctid (concept_details c) = 1 ∧
    sctid <$> parents c = filter (isa_edge demo.graph 1) (nx.successors demo.graph 1) ∧
    sctid <$> children c
      = filter (λ u, isa_edge demo.graph u 1) (nx.predecessors demo.graph 1) ∧
    sctid <$> (tgt <$> mjoin (relationships <$> inferred_relationship_groups c))
      ≡ₚ filter (λ v, ¬ isa_edge demo.graph 1 v) (nx.successors demo.graph 1) ∧
    (length (parents c) +
     length (mjoin (relationships <$> inferred_relationship_groups c))
     = length (nx.successors demo.graph 1))%nat.
Proof.
  eexists. split; [reflexivity|].
  apply (full_concept_accounts_for_edges demo.graph 1). reflexivity.
Defined.
(** ** Relationship types *)

Lemma edge_list_of_data (G : DiGraph) (u v : Z) (ed : EdgeData) :
  nx.edge_data G u v = Some ed → (u, v, ed) ∈ edge_list G.
Proof.
  unfold nx.edge_data, edge_list. destruct (od_get u (_succ G)) as [d|] eqn:Hd; [|done].
  intros Hed. apply list_elem_of_join.
  exists ((λ ve : Z * EdgeData, (u, ve.1, ve.2)) <$> d). split.
  - apply list_elem_of_fmap. exists (v, ed). split; [done|]. by apply od_get_elem_of.
  - apply list_elem_of_fmap. exists (u, d). split; [done|]. by apply od_get_elem_of.
Qed.

Lemma relationship_type_known (G : DiGraph) (u v : Z) (r : SnomedRelationship) :
  relationship_of_edge G u v r → type r ∈ relationship_types G.
Proof.
  intros (cu & cv & ed & _ & _ & Hed & ->). simpl. unfold relationship_types.
  apply elem_of_list_to_set, list_elem_of_fmap. exists (u, v, ed).
  split; [done | by apply edge_list_of_data].
Qed.

Lemma find_path_steps (G : DiGraph) (a b : Z) (print_ : bool)
    (rs : list SnomedRelationship) :
  find_path G a b print_ = Ok rs →
  ∃ nodes, res_mapM (step_relationship G) (nx.pairwise nodes) = Ok rs.
Proof.
  unfold find_path. intros H.
  apply res_bind_Ok in H as (forward & _ & H).
  apply res_bind_Ok in H as (nodes & _ & H).
  apply res_bind_Ok in H as (path & Hpath & H).
  exists nodes. rewrite Hpath. destruct print_; [|done].
  destruct nodes as [|u nodes]; [done|]. by destruct path.
Qed.

(** X20. The property [relationship_types] covers what the queries
    return: the type name of every relationship in a group returned by
    [get_inferred_relationships] and of every relationship on a path
    returned by [find_path] is in [relationship_types]. *)
Theorem relationship_types_cover_results (G : DiGraph) (r : SnomedRelationship) :
  (∀ id gs g, get_inferred_relationships G id = Ok gs →
              g ∈ gs → r ∈ relationships g → type r ∈ relationship_types G) ∧
  (∀ a b print_ rs, find_path G a b print_ = Ok rs →
                    r ∈ rs → type r ∈ relationship_types G).
Proof.
  split.
  - intros id gs g Hgs Hg Hr.
    destruct (inferred_relationships_join G id gs Hgs) as (rs & Hrs & Hperm).
    assert (r ∈ filter (λ r, ¬ is_a r) rs) as [_ Hin]%list_elem_of_filter.
    { rewrite <- Hperm. apply list_elem_of_join. exists (relationships g).
      split; [done|]. apply list_elem_of_fmap. eauto. }
    pose proof (get_out_relationships_edges G id rs Hrs) as Hedges.
    destruct (Forall2_elem_of_r _ _ _ _ Hedges Hin) as (v & _ & Hv).
    by eapply relationship_type_known.
  - intros a b print_ rs (nodes & Hrs)%find_path_steps Hr.
    apply res_mapM_Ok in Hrs.
    destruct (Forall2_elem_of_r _ _ _ _ Hrs Hr) as (e & _ & He).
    apply step_relationship_Ok in He as [He _]. by eapply relationship_type_known.
Qed.

Lemma relationship_types_cover_results_witness :
  ∃ gs, get_inferred_relationships demo.graph 1 = Ok gs ∧
    ∀ g r, g ∈ gs → r ∈ relationships g → type r ∈ relationship_types demo.graph.
Proof.
  eexists. split; [reflexivity|]. intros g r.
  apply (proj1 (relationship_types_cover_results demo.graph r) 1). reflexivity.
Defined.

(** X21. In the graph [from_rf2] returns, the relationship types are the
    names given to the rows that survive: a name is in
    [relationship_types] exactly when it is the term of the last active
    fully-specified-name row of the type concept of an active
    relationship row that is the last one for its ordered pair. *)
Theorem from_rf2_relationship_types (relationships_df : list Rel.row)
    (concepts_df : list Desc.row) (G : DiGraph) (log : list NoFsnWarning) (t : string) :
  from_rf2 relationships_df concepts_df = Ok (G, log) →
  t ∈ relationship_types G ↔
  ∃ r, last (rows_between (active_relationships relationships_df)
               (Rel.sourceId r) (Rel.destinationId r)) = Some r ∧
       type_name (active_descriptions concepts_df) (Rel.typeId r) = Some t.
Proof.
  intros HG. pose proof (from_rf2_resolved _ _ _ _ HG) as Hres.
  destruct (from_rf2_Ok _ _ Hres) as (G' & log' & HG' & Hwf & Huk & Hedge & _).
  rewrite HG in HG'. injection HG' as <- <-.
  unfold relationship_types. rewrite elem_of_list_to_set, list_elem_of_fmap. split.
  - intros ([[u v] ed] & -> & He). apply elem_of_edge_list in He; [|done].
    rewrite Hedge in He. simpl.
    destruct (last _) as [r|] eqn:Hlast; [|done].
    pose proof Hlast as [[Hs Ht] _]%last_Some_elem_of%list_elem_of_filter.
    exists r. rewrite Hs, Ht. split; [done|].
    unfold row_edge in He. destruct (type_name _ _); [|done]. by injection He as <-.
  - intros (r & Hlast & Hname).
    exists (Rel.sourceId r, Rel.destinationId r,
            {| ed_group := Rel.relationshipGroup r; ed_type := t;
               ed_type_id := Rel.typeId r |}).
    split; [done|]. apply elem_of_edge_list; [done|].
    rewrite Hedge, Hlast. unfold row_edge. by rewrite Hname.
Qed.

Lemma from_rf2_relationship_types_witness :
  "Is a (attribute)" ∈ relationship_types demo.graph ↔
  ∃ r, last (rows_between (active_relationships demo.relationships)
               (Rel.sourceId r) (Rel.destinationId r)) = Some r ∧
       type_name (active_descriptions demo.descriptions) (Rel.typeId r)
       = Some "Is a (attribute)".
Proof.
  apply (from_rf2_relationship_types demo.relationships demo.descriptions
           demo.graph demo.log).
  exact demo_build_eq.
Defined.
(** ** The hierarchy tag *)

Lemma until_close_Some (s b r : list ascii) :
  until_close s = Some (b, r) ↔ s = b ++ ")"%char :: r ∧ ")"%char ∉ b.
Proof.
  revert b. induction s as [|c s IH]; intros b; simpl.
  - split; [done|]. intros [H _]. by destruct b.
  - case_decide as Hc.
    + subst c. split.
      * intros [= <- <-]. split; [done | apply not_elem_of_nil].
      * intros [H Hb]. destruct b as [|c' b]; [by injection H as <-|].
        injection H as <- _. destruct Hb. left.
    + split.
      * intros H. apply fmap_Some in H as ([b' r'] & E & [= -> ->]).
        apply IH in E as [-> Hb']. split; [done|]. by rewrite not_elem_of_cons.
      * intros [H Hb]. destruct b as [|c' b]; [by injection H as ->|].
        injection H as <- H. rewrite not_elem_of_cons in Hb. destruct Hb as [_ Hb].
        apply fmap_Some. exists (b, r). split; [by apply IH | done].
Qed.

Lemma until_close_None (s : list ascii) :
  until_close s = None ↔ ")"%char ∉ s.
Proof.
  induction s as [|c s IH]; simpl.
  - split; [intros _; apply not_elem_of_nil | done].
  - rewrite not_elem_of_cons. case_decide as Hc.
    + split; [done | intros [? _]; congruence].
    + rewrite fmap_None, IH. split; [by intros ? | by intros [_ ?]].
Qed.

(** [m] is a parenthesised tag followed by white space only. *)
Lemma match_here_Some (s m : list ascii) :
  match_here s = Some m ↔
  m = s ∧ ∃ tag spaces,
    s = "("%char :: tag ++ ")"%char :: spaces ∧
    tag ≠ [] ∧ (")"%char ∉ tag) ∧ forallb isspace spaces = true.
Proof.
  unfold match_here. destruct s as [|c rest].
  { split; [done | by intros [_ (? & ? & ? & _)]]. }
  case_decide as Hc.
  - subst c. destruct (until_close rest) as [[tag spaces]|] eqn:E.
    + apply until_close_Some in E as [-> Htag].
      destruct tag as [|t tag].
      * split; [done|]. intros [_ (tag' & spaces' & H & Hne & Hno & _)].
        injection H as H. destruct tag' as [|t' tag']; [done|].
        injection H as <- _. destruct Hno. left.
      * destruct (forallb isspace spaces) eqn:Hsp.
        -- split; [intros [= <-]; split; [done|]; by exists (t :: tag), spaces|].
           by intros [-> _].
        -- split; [done|]. intros [_ (tag' & spaces' & H & Hne & Hno & Hsp')].
           injection H as H.
           assert (until_close ((t :: tag) ++ ")"%char :: spaces) = Some (tag', spaces'))
             as E' by (by apply until_close_Some).
           assert (until_close ((t :: tag) ++ ")"%char :: spaces) = Some (t :: tag, spaces))
             as E'' by (by apply until_close_Some).
           rewrite E' in E''. injection E'' as -> ->. congruence.
    + split; [done|]. intros [_ (tag' & spaces' & H & Hne & Hno & _)].
      injection H as ->. apply until_close_None in E. destruct E.
      apply elem_of_app. right. left.
  - split; [done|]. intros [_ (tag' & spaces' & H & _)]. by injection H as -> _.
Qed.

Lemma re_search_Some (s m : list ascii) :
  re_search s = Some m → ∃ pre, s = pre ++ m ∧ match_here m = Some m.
Proof.
  induction s as [|c s IH]; cbn [re_search].
  - done.
  - destruct (match_here (c :: s)) as [m'|] eqn:E.
    + intros [= <-]. pose proof E as [Hm' _]%match_here_Some. subst m'.
      by exists [].
    + intros (pre & -> & Hm)%IH. by exists (c :: pre).
Qed.

Lemma re_search_found (pre m : list ascii) :
  is_Some (match_here m) → is_Some (re_search (pre ++ m)).
Proof.
  intros Hm. induction pre as [|c pre IH].
  - destruct m as [|c m]; [by destruct Hm as [? ?]|]. cbn [app re_search].
    destruct (match_here (c :: m)); [eauto | by destruct Hm as [? [=]]].
  - cbn [app re_search]. destruct (match_here (c :: pre ++ m)); [eauto | done].
Qed.

Lemma isspace_blocks (r m : list ascii) :
  forallb isspace (r ++ "("%char :: m) = false.
Proof.
  induction r as [|c r IH]; simpl; [done|]. rewrite IH. apply andb_false_r.
Qed.

(** Every opening parenthesis of [pre] is closed within [pre]. *)
Lemma re_search_skip (pre m : list ascii) :
  (∀ p1 p2, pre = p1 ++ "("%char :: p2 → ")"%char ∈ p2) →
  re_search (pre ++ "("%char :: m) = re_search ("("%char :: m).
Proof.
  induction pre as [|c pre IH]; intros Hclosed; [done|].
  assert (match_here ((c :: pre) ++ "("%char :: m) = None) as Hnone.
  { simpl. case_decide as Hc; [|done]. subst c.
    pose proof (Hclosed [] pre eq_refl) as Hin.
    destruct (until_close pre) as [[b r]|] eqn:E.
    - apply until_close_Some in E as [-> Hb].
      assert (until_close ((b ++ ")"%char :: r) ++ "("%char :: m)
              = Some (b, r ++ "("%char :: m)) as ->.
      { apply until_close_Some. by rewrite <- app_assoc. }
      destruct b; [done|]. by rewrite isspace_blocks.
    - by apply until_close_None in E. }
  change (re_search ((c :: pre) ++ "("%char :: m))
    with (match match_here ((c :: pre) ++ "("%char :: m) with
          | Some m' => Some m'
          | None => re_search (pre ++ "("%char :: m)
          end).
  rewrite Hnone. apply IH. intros p1 p2 ->. by apply (Hclosed (c :: p1) p2).
Qed.
Lemma removelast_snoc {A : Type} (l : list A) (x : A) : removelast (l ++ [x]) = l.
Proof. induction l as [|y [|z l] IH]; [done | done |]. simpl in *. by rewrite IH. Qed.

Lemma removelast_cons_cons {A : Type} (x y : A) (l : list A) :
  removelast (x :: y :: l) = x :: removelast (y :: l).
Proof. done. Qed.

Lemma removelast_app_cons {A : Type} (l : list A) (x : A) (k : list A) :
  removelast (l ++ x :: k) = l ++ removelast (x :: k).
Proof.
  induction l as [|y l IH]; [done|]. destruct l as [|z l]; simpl in *; by rewrite ?IH.
Qed.

Lemma parens_closed_nil (p1 p2 : list ascii) :
  [] = p1 ++ "("%char :: p2 → ")"%char ∈ p2.
Proof. by destruct p1. Qed.

Lemma parens_closed_cons (c : ascii) (pre : list ascii) :
  (c = "("%char → ")"%char ∈ pre) →
  (∀ p1 p2, pre = p1 ++ "("%char :: p2 → ")"%char ∈ p2) →
  ∀ p1 p2, c :: pre = p1 ++ "("%char :: p2 → ")"%char ∈ p2.
Proof.
  intros Hc Hpre [|c' p1] p2 H; injection H as -> ->; [by apply Hc | by eapply Hpre].
Qed.

(** X22. The hierarchy of a concept is read off the end of its fully
    specified name.  Let the name be some text in which every opening
    parenthesis is closed, then a parenthesised tag that is not empty
    and holds no closing parenthesis, then white space only.  Without
    trailing white space [hierarchy] is the tag.  With trailing white
    space the slice [[1:-1]] is taken of the match including that white
    space, so [hierarchy] is the tag, the closing parenthesis and the
    white space less its last character. *)
Theorem hierarchy_of_tagged_name (c : SnomedConceptDetails)
    (pre tag spaces : list ascii) :
  String.list_ascii_of_string (fsn c) = pre ++ "("%char :: tag ++ ")"%char :: spaces →
  (∀ p1 p2, pre = p1 ++ "("%char :: p2 → ")"%char ∈ p2) →
  tag ≠ [] → ")"%char ∉ tag → forallb isspace spaces = true →
  hierarchy c =
  String.string_of_list_ascii
    match spaces with
    | [] => tag
    | _ :: _ => tag ++ ")"%char :: removelast spaces
    end.
Proof.
  intros Hfsn Hclosed Htag Hno Hsp. unfold hierarchy. rewrite Hfsn.
  rewrite re_search_skip by done.
  assert (match_here ("("%char :: tag ++ ")"%char :: spaces)
          = Some ("("%char :: tag ++ ")"%char :: spaces)) as Hm.
  { apply match_here_Some. split; [done|]. by exists tag, spaces. }
  cbn [re_search]. rewrite Hm. f_equal. cbn [tail].
  destruct spaces as [|s spaces].
  - apply removelast_snoc.
  - by rewrite removelast_app_cons, removelast_cons_cons.
Qed.

Lemma hierarchy_of_tagged_name_witness :
  hierarchy {| sctid := 1; fsn := "Ear (of dog) (body structure) "; synonyms := None |}
  = "body structure)".
Proof.
  apply (hierarchy_of_tagged_name
           {| sctid := 1; fsn := "Ear (of dog) (body structure) "; synonyms := None |}
           (String.list_ascii_of_string "Ear (of dog) ")
           (String.list_ascii_of_string "body structure")
           (String.list_ascii_of_string " ")).
  - reflexivity.
  - repeat (apply parens_closed_cons;
              [try discriminate; intros _;
               apply (bool_decide_unpack _); vm_compute; reflexivity|]).
    apply parens_closed_nil.
  - done.
  - apply (bool_decide_unpack _). vm_compute. reflexivity.
  - reflexivity.
Defined.

(** X23. [hierarchy] is the empty string unless the fully specified name
    ends, white space aside, in a parenthesised tag: it is not empty
    exactly when the name can be cut into some text, an opening
    parenthesis, a tag that is not empty and holds no closing
    parenthesis, a closing parenthesis and white space only.  So a name
    without closing parenthesis, a name ending in [()] and a name with
    text after its last parenthesis all have the empty hierarchy. *)
Theorem hierarchy_empty_unless_tagged (c : SnomedConceptDetails) :
  hierarchy c ≠ "" ↔
  ∃ pre tag spaces,
    String.list_ascii_of_string (fsn c) = pre ++ "("%char :: tag ++ ")"%char :: spaces ∧
    tag ≠ [] ∧ (")"%char ∉ tag) ∧ forallb isspace spaces = true.
Proof.
  unfold hierarchy. split.
  - destruct (re_search _) as [m|] eqn:E; [|done]. intros _.
    apply re_search_Some in E as (pre & Hs & Hm).
    apply match_here_Some in Hm as [_ (tag & spaces & -> & ? & ? & ?)].
    by exists pre, tag, spaces.
  - intros (pre & tag & spaces & -> & Htag & Hno & Hsp).
    destruct (re_search_found pre ("("%char :: tag ++ ")"%char :: spaces)) as [m Hm].
    { rewrite (proj2 (match_here_Some _ ("("%char :: tag ++ ")"%char :: spaces))); [eauto|].
      split; [done|]. by exists tag, spaces. }
    rewrite Hm. apply re_search_Some in Hm as (pre' & _ & Hm).
    apply match_here_Some in Hm as [_ (tag' & spaces' & -> & Htag' & _)].
    cbn [tail]. destruct tag' as [|t tag']; [done|].
    rewrite removelast_app_cons. done.
Qed.

Lemma hierarchy_empty_unless_tagged_witness :
  hierarchy {| sctid := 1; fsn := "Fracture (disorder)"; synonyms := None |} ≠ "".
Proof.
  apply (proj2 (hierarchy_empty_unless_tagged
                  {| sctid := 1; fsn := "Fracture (disorder)"; synonyms := None |})).
  exists (String.list_ascii_of_string "Fracture "),
         (String.list_ascii_of_string "disorder"), [].
  split; [reflexivity|]. split; [done|]. split; [|reflexivity].
  apply (bool_decide_unpack _). vm_compute. reflexivity.
Defined.
(** ** The files of a release *)

Lemma list_ascii_of_string_app (s1 s2 : string) :
  String.list_ascii_of_string (s1 +:+ s2)
  = String.list_ascii_of_string s1 ++ String.list_ascii_of_string s2.
Proof. induction s1 as [|c s1 IH]; simpl; [done | by rewrite IH]. Qed.

Lemma after_last_sep_snoc (p : list ascii) :
  posixpath.after_last_sep (p ++ ["/"%char]) = [].
Proof.
  induction p as [|c p IH]; [reflexivity|].
  cbn [app posixpath.after_last_sep].
  rewrite bool_decide_true; [done|]. apply elem_of_app. right. left.
Qed.

Lemma after_last_sep_plain (p : list ascii) :
  "/"%char ∉ p → posixpath.after_last_sep p = p ∧ posixpath.upto_last_sep p = [].
Proof.
  destruct p as [|c p]; [done|]. rewrite not_elem_of_cons. intros [Hc Hp].
  cbn [posixpath.after_last_sep posixpath.upto_last_sep].
  rewrite bool_decide_false by done. by destruct (decide (c = "/"%char)) as [->|].
Qed.

Section release_paths_facts.

Variable os_path_exists : string → bool.

Variable release_date : string → option string.

Lemma get_core_file_paths_Ok (path langcode r d : string) :
  get_core_file_paths os_path_exists release_date path langcode = Ok (r, d) →
  os_path_exists path = true ∧ os_path_exists r = true ∧ os_path_exists d = true ∧
  ∃ countrynamespace versiondate,
    release_name_parts release_date (posixpath.basename path)
    = Some (countrynamespace, versiondate) ∧
    r = posixpath.dirname path +:+ "/" +:+ posixpath.basename path
        +:+ "/Snapshot/Terminology/sct2_Relationship_Snapshot_"
        +:+ countrynamespace +:+ "_" +:+ versiondate +:+ ".txt" ∧
    d = posixpath.dirname path +:+ "/" +:+ posixpath.basename path
        +:+ "/Snapshot/Terminology/sct2_Description_Snapshot-" +:+ langcode
        +:+ "_" +:+ countrynamespace +:+ "_" +:+ versiondate +:+ ".txt".
Proof.
  unfold get_core_file_paths.
  destruct (os_path_exists path) eqn:Hpath; [|done]. cbn [negb].
  destruct (release_name_parts _ _) as [[ns date]|] eqn:Hparts; [|done].
  destruct (os_path_exists (_ +:+ _)) eqn:Hr; [|done]. cbn [negb].
  destruct (os_path_exists (_ +:+ _)) eqn:Hd in |- *; [|done]. cbn [negb].
  intros [= <- <-]. do 3 (split; [done|]). by exists ns, date.
Qed.

End release_paths_facts.

(** X24. Two ways of naming the release folder that go wrong, whatever
    the file system holds.  A path that ends in a separator is always
    refused with [AssertionError]: its last component is empty.  For a
    folder named without any separator the directory part is empty, so
    the two files are looked for under the root: both returned paths are
    [/], the folder name and the rest. *)
Theorem release_folder_edge_cases (os_path_exists : string → bool)
    (release_date : string → option string) (path langcode : string) :
  (∀ p, path = p +:+ "/" →
     get_core_file_paths os_path_exists release_date path langcode
     = Raise AssertionError) ∧
  ("/"%char ∉ String.list_ascii_of_string path →
   ∀ r d,
     get_core_file_paths os_path_exists release_date path langcode = Ok (r, d) →
     ∃ rest_r rest_d, r = "/" +:+ path +:+ rest_r ∧ d = "/" +:+ path +:+ rest_d).
Proof.
  split.
  - intros p ->. unfold get_core_file_paths.
    destruct (os_path_exists _); [|done]. cbn [negb].
    assert (posixpath.basename (p +:+ "/") = "") as ->; [|done].
    unfold posixpath.basename. rewrite list_ascii_of_string_app.
    change (String.list_ascii_of_string "/") with ["/"%char].
    by rewrite after_last_sep_snoc.
  - intros Hplain r d (_ & _ & _ & ns & date & _ & -> & ->)%get_core_file_paths_Ok.
    destruct (after_last_sep_plain _ Hplain) as [Hbase Hdir].
    unfold posixpath.dirname, posixpath.basename. rewrite Hbase, Hdir.
    rewrite String.string_of_list_ascii_of_string. simpl. eauto.
Qed.

Lemma release_folder_edge_cases_witness :
  get_core_file_paths (λ _, true) (λ s, Some s) "/data/A_B_C_20230131T120000Z/" "en"
  = Raise AssertionError ∧
  ∀ r d,
    get_core_file_paths (λ _, true) (λ s, Some s) "A_B_C_20230131T120000Z" "en"
    = Ok (r, d) →
    ∃ rest_r rest_d,
      r = "/" +:+ "A_B_C_20230131T120000Z" +:+ rest_r ∧
      d = "/" +:+ "A_B_C_20230131T120000Z" +:+ rest_d.
Proof.
  split.
  - apply (release_folder_edge_cases (λ _, true) (λ s, Some s)
             "/data/A_B_C_20230131T120000Z/" "en")
      with (p := "/data/A_B_C_20230131T120000Z").
    reflexivity.
  - apply (release_folder_edge_cases (λ _, true) (λ s, Some s)
             "A_B_C_20230131T120000Z" "en").
    apply (bool_decide_unpack _). vm_compute. reflexivity.
Defined.

(** X25. [get_core_file_paths] fails with [AssertionError] and with
    nothing else, in particular when the path does not exist or the
    folder name does not have four or five parts separated by [_]; and
    when it returns, the path and the two files it names exist. *)
Theorem release_paths_outcome (os_path_exists : string → bool)
    (release_date : string → option string) (path langcode : string) :
  ((∃ rd, get_core_file_paths os_path_exists release_date path langcode = Ok rd) ∨
   get_core_file_paths os_path_exists release_date path langcode = Raise AssertionError) ∧
  (os_path_exists path = false →
   get_core_file_paths os_path_exists release_date path langcode = Raise AssertionError) ∧
  (length (str_split "_"%char (String.list_ascii_of_string (posixpath.basename path))) ≠ 4%nat →
   length (str_split "_"%char (String.list_ascii_of_string (posixpath.basename path))) ≠ 5%nat →
   get_core_file_paths os_path_exists release_date path langcode = Raise AssertionError) ∧
  (∀ r d,
     get_core_file_paths os_path_exists release_date path langcode = Ok (r, d) →
     os_path_exists path = true ∧ os_path_exists r = true ∧ os_path_exists d = true).
Proof.
  split; [|split; [|split]].
  - unfold get_core_file_paths.
    destruct (os_path_exists path); [|by right]. cbn [negb].
    destruct (release_name_parts _ _) as [[ns date]|]; [|by right].
    destruct (os_path_exists _); [|by right]. cbn [negb].
    destruct (os_path_exists _); [|by right]. left. eauto.
  - intros Hpath. unfold get_core_file_paths. by rewrite Hpath.
  - intros H4 H5. unfold get_core_file_paths.
    destruct (os_path_exists path); [|done]. cbn [negb].
    assert (release_name_parts release_date (posixpath.basename path) = None) as ->; [|done].
    unfold release_name_parts.
    destruct (str_split _ _) as [|e1 [|e2 [|e3 [|e4 [|e5 [|e6 es]]]]]]; try done.
  - intros r d (? & ? & ? & _)%get_core_file_paths_Ok. done.
Qed.

Lemma release_paths_outcome_witness :
  get_core_file_paths (λ _, true) (λ s, Some s) "/data/SnomedCT_Release" "en"
  = Raise AssertionError.
Proof.
  apply (release_paths_outcome (λ _, true) (λ s, Some s) "/data/SnomedCT_Release" "en").
  - vm_compute. lia.
  - vm_compute. lia.
Defined.
(** ** From the rows to the hierarchy *)

(** X26. From the release to the hierarchy, end to end.  In the graph
    [from_rf2] returns, whenever [get_parents(u)] returns, [v] is among
    the parents exactly when the last active relationship row from [u]
    to [v] is typed "is a"; and likewise [u] is among
    [get_children(v)] under the same condition.  An "is a" row
    followed by a row of another type for the same pair therefore gives
    no parent. *)
Theorem from_rf2_hierarchy (relationships_df : list Rel.row)
    (concepts_df : list Desc.row) (G : DiGraph) (log : list NoFsnWarning) (u v : Z) :
  from_rf2 relationships_df concepts_df = Ok (G, log) →
  (∀ ps, get_parents G u = Ok ps →
     v ∈ sctid <$> ps ↔
     ∃ r, last (rows_between (active_relationships relationships_df) u v) = Some r ∧
          Rel.typeId r = is_a_relationship_typeId) ∧
  (∀ cs, get_children G v = Ok cs →
     u ∈ sctid <$> cs ↔
     ∃ r, last (rows_between (active_relationships relationships_df) u v) = Some r ∧
          Rel.typeId r = is_a_relationship_typeId).
Proof.
  intros HG. pose proof (from_rf2_resolved _ _ _ _ HG) as Hres.
  destruct (from_rf2_Ok _ _ Hres) as (G' & log' & HG' & Hwf & _ & Hedge & _).
  rewrite HG in HG'. injection HG' as <- <-.
  assert (isa_edge G u v ↔
          ∃ r, last (rows_between (active_relationships relationships_df) u v) = Some r ∧
               Rel.typeId r = is_a_relationship_typeId) as Hisa.
  { unfold isa_edge. rewrite Hedge. split.
    - intros (ed & Hed & Hty). destruct (last _) as [r|]; [|done].
      exists r. split; [done|]. unfold row_edge in Hed.
      destruct (type_name _ _); [|done]. by injection Hed as <-.
    - intros (r & Hr & Hty). rewrite Hr.
      apply last_Some_elem_of, list_elem_of_filter in Hr as [_ Hr].
      rewrite Forall_forall in Hres. destruct (Hres r Hr) as [name Hname].
      unfold row_edge. rewrite Hname. eauto. }
  split.
  - intros ps Hps. rewrite <- Hisa, list_elem_of_fmap. split.
    + intros (c & -> & Hc). by eapply get_parents_sound.
    + intros Huv. destruct (get_parents_complete _ _ _ _ Hps Huv) as (c & ? & <-). eauto.
  - intros cs Hcs. rewrite <- Hisa, list_elem_of_fmap. split.
    + intros (c & -> & Hc). by eapply get_children_sound.
    + intros Huv. destruct (get_children_complete _ _ _ _ Hwf Hcs Huv) as (c & ? & <-). eauto.
Qed.

Lemma from_rf2_hierarchy_witness :
  (∀ ps, get_parents demo.graph 1 = Ok ps →
     9 ∈ sctid <$> ps ↔
     ∃ r, last (rows_between (active_relationships demo.relationships) 1 9) = Some r ∧
          Rel.typeId r = is_a_relationship_typeId) ∧
  (∀ cs, get_children demo.graph 9 = Ok cs →
     1 ∈ sctid <$> cs ↔
     ∃ r, last (rows_between (active_relationships demo.relationships) 1 9) = Some r ∧
          Rel.typeId r = is_a_relationship_typeId).
Proof.
  apply (from_rf2_hierarchy demo.relationships demo.descriptions demo.graph demo.log 1 9).
  exact demo_build_eq.
Defined.
(** ** Paths to the ancestors *)

(** X27. [find_path] reaches every ancestor.  In a well-formed, fully
    described graph, when [x] other than [id] is in
    [get_ancestors(id, k)], [find_path(id, x)] returns a path that is
    not empty and has at most [k] relationships. *)
Theorem find_path_reaches_ancestors (G : DiGraph) (id x k : Z) (s : cset) :
  wf_graph G → described G → 0 < k →
  get_ancestors G id (Some k) = Ok s → x ∈ dom s → x ≠ id →
  ∃ rels, find_path G id x false = Ok rels ∧
          rels ≠ [] ∧ Z.of_nat (length rels) ≤ k.
Proof.
  intros Hwf Hdesc Hk Hs Hx Hxid. unfold get_ancestors in Hs.
  destruct (get_ancestors_fuel_spec _ _ _ _ _ Hs) as [Hdet Hdom].
  destruct (proj1 (Hdom x) Hx) as [_ (n & Hn & Hnk & Hsteps)]. simpl in Hnk.
  assert (nx.contains G x = true) as Hxin.
  { apply elem_of_dom in Hx as [c Hc]. apply contains_spec.
    eapply get_concept_details_node. by apply Hdet. }
  assert (nx.contains G id = true) as Hid.
  { inversion Hsteps as [|? ? v ? (ed & Hed & _) _]; subst; [lia|].
    apply contains_spec. by eapply wf_source. }
  assert (nsteps (has_edge G) n id x) as Hwalk.
  { eapply nsteps_congruence with (f := λ z, z); [|exact Hsteps].
    intros u v (ed & Hed & _). apply has_edge_data. eauto. }
  apply nsteps_chain in Hwalk as (l & Hlen & Hchain & Hend).
  assert (is_path G id x (id :: l)) as Hpath by (by exists l).
  unfold find_path.
  destruct (has_path_spec G id x Hwf Hid Hxin) as [[-> (nodes & -> & Hsh)]|[_ Hno]];
    [|by destruct (Hno _ Hpath)].
  simpl.
  destruct (relationships_along G id x nodes Hwf Hdesc (proj1 Hsh)) as (rels & -> & Hrels).
  simpl. exists rels. split; [done|].
  destruct Hsh as [(ext & -> & _ & Hext) Hmin].
  pose proof (path_relationships_length _ _ _ _ Hrels) as Hrl.
  specialize (Hmin _ Hpath). simpl in Hmin. split; [|lia].
  intros ->. destruct ext; [|done]. by unfold endpoint in Hext.
Qed.

Lemma find_path_reaches_ancestors_witness :
  ∃ s rels,
    get_ancestors demo.graph 1 (Some 2) = Ok s ∧
    find_path demo.graph 1 3 false = Ok rels ∧
    rels ≠ [] ∧ Z.of_nat (length rels) ≤ 2.
Proof.
  eexists. 
  destruct (find_path_reaches_ancestors demo.graph 1 3 2 _
              demo_graph_wf demo_graph_described ltac:(lia) eq_refl)
    as (rels & Hrels & Hne & Hlen).
  - apply (bool_decide_unpack _). vm_compute. reflexivity.
  - lia.
  - exists rels. split; [reflexivity | done].
Defined.
(** ** From the rows to the inferred relationships *)

Lemma inferred_group_number (G : DiGraph) (u : Z) (gs : list SnomedRelationshipGroup)
    (grp : SnomedRelationshipGroup) (r : SnomedRelationship) :
  get_inferred_relationships G u = Ok gs →
  grp ∈ gs → r ∈ relationships grp → rg_group grp = group r.
Proof.
  unfold get_inferred_relationships. intros (rs & _ & [= <-])%res_bind_Ok Hgrp Hr.
  apply list_elem_of_fmap in Hgrp as ([k xs] & -> & Hg). simpl in *.
  destruct (groupby_sorted group (sorted (filter (λ r, ¬ is_a r) rs) group)
              (sorted_sorted group _)) as (_ & Hgroups & _).
  rewrite Forall_forall in Hgroups. destruct (Hgroups _ Hg) as [_ Hxs]. simpl in Hxs.
  rewrite Hxs in Hr. by apply list_elem_of_filter in Hr as [-> _].
Qed.

(** X28. From the release to the inferred relationships, end to end.
    In the graph [from_rf2] returns, whenever
    [get_inferred_relationships(u)] returns, there is a relationship to
    [v] with type id [tid] in the group numbered [g] exactly when the
    last active relationship row from [u] to [v] has group [g] and type
    [tid], and [tid] is not the "is a" type.  Of several rows for one
    ordered pair only the last is seen, whatever their groups. *)
Theorem from_rf2_inferred_relationships (relationships_df : list Rel.row)
    (concepts_df : list Desc.row) (G : DiGraph) (log : list NoFsnWarning)
    (u v g tid : Z) (gs : list SnomedRelationshipGroup) :
  from_rf2 relationships_df concepts_df = Ok (G, log) →
  get_inferred_relationships G u = Ok gs →
  (∃ grp r, grp ∈ gs ∧ rg_group grp = g ∧ r ∈ relationships grp ∧
            sctid (tgt r) = v ∧ type_id r = tid) ↔
  (∃ row, last (rows_between (active_relationships relationships_df) u v) = Some row ∧
          Rel.relationshipGroup row = g ∧ Rel.typeId row = tid ∧
          tid ≠ is_a_relationship_typeId).
Proof.
  intros HG Hgs. pose proof (from_rf2_resolved _ _ _ _ HG) as Hres.
  destruct (from_rf2_Ok _ _ Hres) as (G' & log' & HG' & Hwf & _ & Hedge & _).
  rewrite HG in HG'. injection HG' as <- <-.
  destruct (inferred_relationships_join G u gs Hgs) as (rs & Hrs & Hperm).
  pose proof (get_out_relationships_edges G u rs Hrs) as Hedges.
  split.
  - intros (grp & r & Hgrp & Hg & Hr & Hv & Htid).
    pose proof (inferred_group_number G u gs grp r Hgs Hgrp Hr) as Hnum.
    assert (r ∈ filter (λ r, ¬ is_a r) rs) as [Hnot Hin]%list_elem_of_filter.
    { rewrite <- Hperm. apply list_elem_of_join. exists (relationships grp).
      split; [done|]. apply list_elem_of_fmap. eauto. }
    destruct (Forall2_elem_of_r _ _ _ _ Hedges Hin) as (v' & _ & cu & cv & ed & _ & Hcv & Hed & ->).
    simpl in *. rewrite (get_concept_details_sctid _ _ _ Hcv) in Hv. subst v'.
    rewrite Hedge in Hed. destruct (last _) as [row|]; [|done].
    exists row. split; [done|]. unfold row_edge in Hed.
    destruct (type_name _ _); [|done]. injection Hed as <-. simpl in *.
    unfold is_a in Hnot. simpl in Hnot. repeat split; congruence.
  - intros (row & Hrow & Hg & Htid & Hnot).
    pose proof Hrow as [_ Hin]%last_Some_elem_of%list_elem_of_filter.
    rewrite Forall_forall in Hres. destruct (Hres row Hin) as [name Hname].
    assert (nx.edge_data G u v
            = Some {| ed_group := g; ed_type := name; ed_type_id := tid |}) as Hed.
    { rewrite Hedge, Hrow. unfold row_edge. rewrite Hname. by rewrite Hg, Htid. }
    assert (v ∈ nx.successors G u) as Hv by (apply has_edge_data; eauto).
    destruct (Forall2_elem_of_l _ _ _ _ Hedges Hv) as (r & Hr & cu & cv & ed & _ & Hcv & Hed' & ->).
    rewrite Hed in Hed'. injection Hed' as <-.
    set (r := SnomedRelationship_init cu cv _) in *.
    assert (r ∈ mjoin (relationships <$> gs)) as Hjoin.
    { rewrite Hperm. apply list_elem_of_filter. split; [|done]. unfold is_a. by simpl. }
    apply list_elem_of_join in Hjoin as (xs & Hrxs & (grp & -> & Hgrp)%list_elem_of_fmap).
    exists grp, r. split; [done|].
    split; [by rewrite (inferred_group_number G u gs grp r Hgs Hgrp Hrxs)|].
    split; [done|]. split; [|done]. simpl. by eapply get_concept_details_sctid.
Qed.

Lemma from_rf2_inferred_relationships_witness :
  ∃ gs, get_inferred_relationships demo.graph 1 = Ok gs ∧
    ((∃ grp r, grp ∈ gs ∧ rg_group grp = 1 ∧ r ∈ relationships grp ∧
               sctid (tgt r) = 9 ∧ type_id r = demo.finding_site) ↔
     (∃ row, last (rows_between (active_relationships demo.relationships) 1 9) = Some row ∧
             Rel.relationshipGroup row = 1 ∧ Rel.typeId row = demo.finding_site ∧
             demo.finding_site ≠ is_a_relationship_typeId)).
Proof.
  eexists. split; [reflexivity|].
  apply (from_rf2_inferred_relationships demo.relationships demo.descriptions
           demo.graph demo.log 1 9 1 demo.finding_site).
  - exact demo_build_eq.
  - reflexivity.
Defined.
